(** * Cyan: recursive-descent parser and tree-walking interpreter

    A shallow embedding of [tokens.py], [ast_parser.py] and [interpreter.py].

    - Python objects that are mutated and shared by reference (the scope
      dictionaries of [SymbolMap]) live in an explicit heap, addressed by
      index; everything else is a value.
    - A Python run can end in three ways that the result objects of the
      program do not describe: it returns, it raises a host exception
      (AttributeError, TypeError, OverflowError, ...) or it does not come
      back within the recursion budget.  [Outcome] keeps the three apart.
    - Python's numbers are its unbounded ints, modelled by [Z], and its
      floats, whose arithmetic is the host's: it is a parameter ([PyHost]). *)

From Stdlib Require Import ZArith String Ascii List Bool Lia DecimalString.
From Stdlib Require Import Floats.SpecFloat.
From stdpp Require Import base option list gmap strings fin_maps.

Set Warnings "-register-all".

Open Scope string_scope.
Open Scope list_scope.
Open Scope Z_scope.

(* ===================================================================== *)
(** * Host language: outcomes of a run and numbers *)
(* ===================================================================== *)

(** Uncaught Python exceptions. *)
Inductive PyExc :=
| AttributeError (msg : string)
| TypeError (msg : string)
| UnboundLocalError (msg : string)
| KeyError (key : string)
| ZeroDivisionError
| OverflowError
| ValueError
| NotImplementedError.

Inductive Outcome (A : Type) :=
| Done (a : A)
| Raised (e : PyExc)
| OutOfFuel.
Arguments Done {A} a.
Arguments Raised {A} e.
Arguments OutOfFuel {A}.

#[global] Instance Outcome_bind : MBind Outcome := fun A B k m =>
  match m with
  | Done a => k a
  | Raised e => Raised e
  | OutOfFuel => OutOfFuel
  end.

#[global] Instance Outcome_ret : MRet Outcome := fun A a => Done a.

(** A Python number: an int or a float of the host. *)
Inductive PyNum (F : Type) :=
| PInt (z : Z)
| PFloat (x : F).
Arguments PInt {F} z.
Arguments PFloat {F} x.

Inductive CmpOp := CmpEq | CmpNe | CmpLt | CmpGt | CmpLe | CmpGe.

(** What the host does with numbers that are not both ints (and with the
    two int operations whose result is not an int: true division and a
    negative power). *)
Class PyHost := {
  pyfloat : Type;
  host_add : PyNum pyfloat -> PyNum pyfloat -> Outcome (PyNum pyfloat);
  host_sub : PyNum pyfloat -> PyNum pyfloat -> Outcome (PyNum pyfloat);
  host_mul : PyNum pyfloat -> PyNum pyfloat -> Outcome (PyNum pyfloat);
  host_truediv : PyNum pyfloat -> PyNum pyfloat -> Outcome (PyNum pyfloat);
  host_pow : PyNum pyfloat -> PyNum pyfloat -> Outcome (PyNum pyfloat);
  host_compare : CmpOp -> PyNum pyfloat -> PyNum pyfloat -> Outcome bool;
  host_is_zero : pyfloat -> bool;
  host_int : pyfloat -> Outcome Z
}.

(** ** A reference host: IEEE 754 binary64

    The properties below are proved for every host; this one is there to
    state them at concrete inputs.  It agrees with Python on floats and on
    the ints a float holds exactly (beyond 2^53 Python compares and
    divides ints exactly, this host rounds the operands first).  [pow] on
    floats is libm's and has no counterpart here: this host raises on it. *)
Module Binary64.
Definition prec : Z := 53.
Definition emax : Z := 1024.

Definition of_int (z : Z) : Outcome spec_float :=
  match binary_normalize prec emax z 0 false with
  | S754_infinity _ => Raised OverflowError
  | x => Done x
  end.

Definition to_float (n : PyNum spec_float) : Outcome spec_float :=
  match n with
  | PInt z => of_int z
  | PFloat x => Done x
  end.

Definition lift (op : spec_float -> spec_float -> spec_float)
    (a b : PyNum spec_float) : Outcome (PyNum spec_float) :=
  x ← to_float a; y ← to_float b; Done (PFloat (op x y)).

Definition is_zero (x : spec_float) : bool :=
  match x with S754_zero _ => true | _ => false end.

Definition truediv (a b : PyNum spec_float) : Outcome (PyNum spec_float) :=
  x ← to_float a; y ← to_float b;
  if is_zero y then Raised ZeroDivisionError
  else Done (PFloat (SFdiv prec emax x y)).

Definition compare (op : CmpOp) (a b : PyNum spec_float) : Outcome bool :=
  x ← to_float a; y ← to_float b;
  Done match op with
       | CmpEq => SFeqb x y
       | CmpNe => negb (SFeqb x y)
       | CmpLt => SFltb x y
       | CmpGt => SFltb y x
       | CmpLe => SFleb x y
       | CmpGe => SFleb y x
       end.

Definition to_int (x : spec_float) : Outcome Z :=
  match x with
  | S754_zero _ => Done 0
  | S754_infinity _ => Raised OverflowError
  | S754_nan => Raised ValueError
  | S754_finite s m e =>
      let mag := if (0 <=? e)%Z then Z.shiftl (Z.pos m) e
                 else Z.shiftr (Z.pos m) (- e) in
      Done (if s then - mag else mag)
  end.

Definition host : PyHost := {|
  pyfloat := spec_float;
  host_add := lift (SFadd prec emax);
  host_sub := lift (SFsub prec emax);
  host_mul := lift (SFmul prec emax);
  host_truediv := truediv;
  host_pow := fun _ _ => Raised NotImplementedError;
  host_compare := compare;
  host_is_zero := is_zero;
  host_int := to_int
|}.
End Binary64.

(** A statement about ints, Bools and Functions holds on every host: its
    proof on the reference host starts by forgetting which host it is on. *)
Ltac any_host := generalize Binary64.host; intros host.

(* ===================================================================== *)
(** * tokens.py *)
(* ===================================================================== *)

(** [class t]: the token type tags. *)
Module t.
Inductive tag :=
| INT | FLOAT
| PLUS | MINUS | MUL | DIV | POW
| EE | NE | LT | GT | LTE | GTE
| EQ
| L_PAREN | R_PAREN
| LITERAL | IDENTIFIER | KW
| COLON | COMMA | NEWLINE | EOF.

#[global] Instance tag_eq_dec : EqDecision tag.
Proof. solve_decision. Defined.
End t.

(** Modelled from the spec: the source position utility is not under src/;
    the spec describes it as an opaque, copyable cursor (line/column/index).
    Positions are values here, so [copy] is the identity. *)
Record Position := mkPosition { idx : nat; ln : nat; col : nat }.

Section Cyan.
Context {host : PyHost}.

Abbreviation num := (PyNum pyfloat).

(** ** Python arithmetic on numbers *)

Definition py_add (a b : num) : Outcome num :=
  match a, b with
  | PInt x, PInt y => Done (PInt (x + y))
  | _, _ => host_add a b
  end.

Definition py_sub (a b : num) : Outcome num :=
  match a, b with
  | PInt x, PInt y => Done (PInt (x - y))
  | _, _ => host_sub a b
  end.

Definition py_mul (a b : num) : Outcome num :=
  match a, b with
  | PInt x, PInt y => Done (PInt (x * y))
  | _, _ => host_mul a b
  end.

(** [a / b] is true division: also on two ints the result is a float. *)
Definition py_truediv (a b : num) : Outcome num := host_truediv a b.

(** [a ** b]: an int for an int base and a non-negative int exponent. *)
Definition py_pow (a b : num) : Outcome num :=
  match a, b with
  | PInt x, PInt y => if 0 <=? y then Done (PInt (x ^ y)) else host_pow a b
  | _, _ => host_pow a b
  end.

Definition py_compare (op : CmpOp) (a b : num) : Outcome bool :=
  match a, b with
  | PInt x, PInt y =>
      Done match op with
           | CmpEq => x =? y
           | CmpNe => negb (x =? y)
           | CmpLt => x <? y
           | CmpGt => y <? x
           | CmpLe => x <=? y
           | CmpGe => y <=? x
           end
  | _, _ => host_compare op a b
  end.

(** [v == 0] *)
Definition py_is_zero (v : num) : bool :=
  match v with
  | PInt z => z =? 0
  | PFloat x => host_is_zero x
  end.

(** [bool(v)] *)
Definition py_bool (v : num) : bool := negb (py_is_zero v).

(** [int(v)] *)
Definition py_int (v : num) : Outcome Z :=
  match v with
  | PInt z => Done z
  | PFloat x => host_int x
  end.

(** ** Tokens *)

(** The literal a token carries: [None], a number or a str. *)
Inductive TokValue :=
| TNone
| TNum (n : num)
| TStr (s : string).

Record Token := mkToken {
  type_ : t.tag;
  tok_value : TokValue;
  tok_pos_start : Position;
  tok_pos_end : Position
}.

(** [Token.is_type]: is the tag one of the given ones. *)
Definition is_type (tok : Token) (token_name_s : list t.tag) : bool :=
  bool_decide (type_ tok ∈ token_name_s).

(** [value == s] for a str [s] *)
Definition value_is (v : TokValue) (s : string) : bool :=
  match v with
  | TStr s' => bool_decide (s' = s)
  | _ => false
  end.

(** [Token.is_equals(token_name, value)] *)
Definition is_equals (tok : Token) (token_name : t.tag) (value : string) : bool :=
  bool_decide (type_ tok = token_name) && value_is (tok_value tok) value.

(** The str an IDENTIFIER token carries (the tokenizer is external: its
    contract is that identifiers, keywords and literals carry a str and
    INT/FLOAT tokens a number). *)
Definition tok_name (tok : Token) : string :=
  match tok_value tok with
  | TStr s => s
  | _ => ""
  end.

(* ===================================================================== *)
(** * ast_parser.py: the AST *)
(* ===================================================================== *)

(** [pos_start]/[pos_end] are class attributes of [Node] that default to
    [None]; each constructor below records what its [__init__] leaves. *)
Inductive Node :=
| NumberNode (tok : Token) (pos_start pos_end : option Position)
| LiteralNode (tok : Token) (pos_start pos_end : option Position)
| BinOpNode (left : Node) (oper : Token) (right : Node)
    (pos_start pos_end : option Position)
| UnaryOpNode (oper : Token) (node : Node) (pos_start pos_end : option Position)
| VarAccessNode (var_name : Token) (pos_start pos_end : option Position)
| VarAssignNode (var_name : Token) (value : Node)
    (pos_start pos_end : option Position)
| IfBlockNode (case : Node * Node) (else_expr : Node)
    (pos_start pos_end : option Position)
| FuncDefNode (name : string) (parameters : list Token) (body : Node)
    (pos_start pos_end : option Position)
| FuncCallNode (node_to_call : Node) (arguments : list Node)
    (pos_start pos_end : option Position).

Definition node_pos_start (n : Node) : option Position :=
  match n with
  | NumberNode _ ps _ | LiteralNode _ ps _ | BinOpNode _ _ _ ps _
  | UnaryOpNode _ _ ps _ | VarAccessNode _ ps _ | VarAssignNode _ _ ps _
  | IfBlockNode _ _ ps _ | FuncDefNode _ _ _ ps _ | FuncCallNode _ _ ps _ => ps
  end.

Definition node_pos_end (n : Node) : option Position :=
  match n with
  | NumberNode _ _ pe | LiteralNode _ _ pe | BinOpNode _ _ _ _ pe
  | UnaryOpNode _ _ _ pe | VarAccessNode _ _ pe | VarAssignNode _ _ _ pe
  | IfBlockNode _ _ _ pe | FuncDefNode _ _ _ _ pe | FuncCallNode _ _ _ pe => pe
  end.

(** [Node.set_pos] *)
Definition node_set_pos (n : Node) (ps pe : option Position) : Node :=
  match n with
  | NumberNode tok _ _ => NumberNode tok ps pe
  | LiteralNode tok _ _ => LiteralNode tok ps pe
  | BinOpNode l o r _ _ => BinOpNode l o r ps pe
  | UnaryOpNode o n _ _ => UnaryOpNode o n ps pe
  | VarAccessNode v _ _ => VarAccessNode v ps pe
  | VarAssignNode v e _ _ => VarAssignNode v e ps pe
  | IfBlockNode c e _ _ => IfBlockNode c e ps pe
  | FuncDefNode nm ps' b _ _ => FuncDefNode nm ps' b ps pe
  | FuncCallNode c a _ _ => FuncCallNode c a ps pe
  end.

(** The [__init__] of each node class. *)
Definition NumberNode_init (tok : Token) : Node :=
  NumberNode tok (Some (tok_pos_start tok)) (Some (tok_pos_end tok)).

Definition LiteralNode_init (tok : Token) : Node :=
  LiteralNode tok (Some (tok_pos_start tok)) (Some (tok_pos_end tok)).

Definition BinOpNode_init (left : Node) (oper : Token) (right : Node) : Node :=
  BinOpNode left oper right (node_pos_start left) (node_pos_end right).

Definition UnaryOpNode_init (oper : Token) (node : Node) : Node :=
  UnaryOpNode oper node (Some (tok_pos_start oper)) (node_pos_end node).

Definition VarAccessNode_init (var_name : Token) : Node :=
  VarAccessNode var_name (Some (tok_pos_start var_name))
    (Some (tok_pos_end var_name)).

Definition VarAssignNode_init (var_name : Token) (value : Node) : Node :=
  VarAssignNode var_name value (Some (tok_pos_start var_name))
    (node_pos_end value).

(** Only [pos_start] is assigned: [pos_end] keeps the class default. *)
Definition IfBlockNode_init (case : Node * Node) (else_expr : Node) : Node :=
  IfBlockNode case else_expr (node_pos_start (fst case)) None.

(** [self.name = name or '[lambda]'] *)
Definition FuncDefNode_init (name : string) (parameters : list Token)
    (body : Node) : Node :=
  FuncDefNode (if bool_decide (name = "") then "[lambda]" else name)
    parameters body None None.

Definition FuncCallNode_init (node_to_call : Node) (arguments : list Node) : Node :=
  FuncCallNode node_to_call arguments None None.

(** Modelled from the spec: [InvalidSyntaxError] comes from utils, which is
    not under src/; the spec gives an error a start position, an end
    position, a message and an error-kind tag. *)
Record InvalidSyntaxError := mkInvalidSyntaxError {
  ise_pos_start : Position;
  ise_pos_end : Position;
  ise_details : string;
  ise_ecode : option string
}.

Definition InvalidSyntaxError_init (ps pe : Position) (details : string) :=
  mkInvalidSyntaxError ps pe details None.

Definition set_ecode (e : InvalidSyntaxError) (code : string) :=
  mkInvalidSyntaxError (ise_pos_start e) (ise_pos_end e) (ise_details e)
    (Some code).

(** ** ParseResult *)

Record ParseResult := mkParseResult {
  error : option InvalidSyntaxError;
  node : option Node;
  advancements : nat
}.

Definition ParseResult_init : ParseResult := mkParseResult None None 0.

Definition register_adv (self : ParseResult) : ParseResult :=
  mkParseResult (error self) (node self) (advancements self + 1)%nat.

(** [register] returns [res.node]; the updated [self] comes with it. *)
Definition register (self res : ParseResult) : ParseResult * option Node :=
  (mkParseResult
     (match error res with Some _ => error res | None => error self end)
     (node self)
     (advancements self + advancements res)%nat,
   node res).

Definition success (self : ParseResult) (n : option Node) : ParseResult :=
  mkParseResult (error self) n (advancements self).

(** [if error is not None or self.advancements == 0: self.error = error] *)
Definition failure (self : ParseResult) (err : option InvalidSyntaxError)
    : ParseResult :=
  match err with
  | Some _ => mkParseResult err (node self) (advancements self)
  | None =>
      if Nat.eqb (advancements self) 0
      then mkParseResult err (node self) (advancements self)
      else self
  end.

(** [if res.error:] *)
Definition has_error (res : ParseResult) : bool :=
  match error res with Some _ => true | None => false end.

(* ===================================================================== *)
(** * ast_parser.py: the parser *)
(* ===================================================================== *)

Record Parser := mkParser {
  tokens : list Token;
  cur_index : Z;
  cur_tok : option Token
}.

(** [advance]: the index always moves; the current token only while the
    index is inside the token list. *)
Definition advance (self : Parser) : Parser :=
  let i := cur_index self + 1 in
  mkParser (tokens self) i
    (if i <? Z.of_nat (length (tokens self))
     then tokens self !! Z.to_nat i
     else cur_tok self).

Definition Parser_init (toks : list Token) : Parser :=
  advance (mkParser toks (-1) None).

Definition next_tok (self : Parser) : option Token :=
  if cur_index self + 1 <? Z.of_nat (length (tokens self))
  then tokens self !! Z.to_nat (cur_index self + 1)
  else None.

(** Reading [self.cur_tok] to call a method on it. *)
Definition cur (self : Parser) : Outcome Token :=
  match cur_tok self with
  | Some tok => Done tok
  | None => Raised (AttributeError "'NoneType' object has no attribute 'is_type'")
  end.

(** Reading an attribute of a node held in a variable that may be [None]. *)
Definition need (n : option Node) : Outcome Node :=
  match n with
  | Some n => Done n
  | None => Raised (AttributeError "'NoneType' object has no attribute 'pos_end'")
  end.

(** The grammar's productions: the bound methods [self.expr], ... that
    [bin_oper] receives and that the productions call on each other. *)
Inductive Production :=
| P_expr | P_call | P_atom | P_factor | P_term | P_power
| P_arith_expr | P_comp_expr | P_if_expr | P_func_def.

(** An entry of an [operators] tuple: a type tag, or a (tag, value) pair. *)
Inductive Operator :=
| OpTag (ty : t.tag)
| OpPair (ty : t.tag) (v : string).

(** [cur_tok.is_type( *operators) or (cur_tok.type_, cur_tok.value) in operators] *)
Definition is_operator (tok : Token) (operators : list Operator) : bool :=
  existsb (fun o => match o with
                    | OpTag ty => bool_decide (type_ tok = ty)
                    | OpPair ty v => is_equals tok ty v
                    end) operators.

Abbreviation ParseM := (Outcome (ParseResult * Parser)).

Definition syntax_error_at (tok : Token) (details : string) : InvalidSyntaxError :=
  InvalidSyntaxError_init (tok_pos_start tok) (tok_pos_end tok) details.

Section Productions.
(** [self]: a call of one of the parser's own methods, one level deeper. *)
Variable self : Production -> Parser -> ParseM.

(** The [while] loop of [bin_oper]; [k] bounds its iterations. *)
Fixpoint bin_oper_loop (k : nat) (func_right : Production)
    (operators : list Operator) (res : ParseResult) (left_ : Node)
    (p : Parser) : ParseM :=
  match k with
  | O => OutOfFuel
  | S k' =>
      tok ← cur p;
      if is_operator tok operators then
        let op_tok := tok in
        let res := register_adv res in
        let p := advance p in
        '(r, p) ← self func_right p;
        let '(res, right_) := register res r in
        if has_error res then Done (res, p) else
        right_ ← need right_;
        bin_oper_loop k' func_right operators res
          (BinOpNode_init left_ op_tok right_) p
      else Done (success res (Some left_), p)
  end.

Definition bin_oper (k : nat) (func_left : Production)
    (operators : list Operator) (func_right : option Production)
    (p : Parser) : ParseM :=
  let func_right := default func_left func_right in
  let res := ParseResult_init in
  '(r, p) ← self func_left p;
  let '(res, left_) := register res r in
  if has_error res then Done (res, p) else
  left_ ← need left_;
  bin_oper_loop k func_right operators res left_ p.

Definition expr (k : nat) (p : Parser) : ParseM :=
  let res := ParseResult_init in
  tok ← cur p;
  if is_equals tok t.KW "let" then
    let res := register_adv res in
    let p := advance p in
    tok ← cur p;
    if negb (is_type tok [t.IDENTIFIER]) then
      Done (failure res (Some (syntax_error_at tok "Expected identifier")), p)
    else
    let var_name := tok in
    let res := register_adv res in
    let p := advance p in
    tok ← cur p;
    if negb (is_type tok [t.EQ]) then
      Done (failure res (Some (syntax_error_at tok "Expected '='")), p)
    else
    let res := register_adv res in
    let p := advance p in
    '(r, p) ← self P_expr p;
    let '(res, e) := register res r in
    if has_error res then Done (res, p) else
    e ← need e;
    Done (success res (Some (VarAssignNode_init var_name e)), p)
  else
    '(r, p) ← bin_oper k P_comp_expr [OpPair t.KW "and"; OpPair t.KW "or"] None p;
    let '(res, n) := register res r in
    if has_error res then Done (res, p) else
    Done (success res n, p).

(** The [while] loop over the further arguments of a call.  [inl] is an
    early [return res]; [inr] falls out of the loop. *)
Fixpoint call_args_loop (k : nat) (res : ParseResult) (args : list Node)
    (p : Parser) : Outcome ((ParseResult * Parser) + (ParseResult * list Node * Parser)) :=
  match k with
  | O => OutOfFuel
  | S k' =>
      tok ← cur p;
      if is_type tok [t.COMMA] then
        let res := register_adv res in
        let p := advance p in
        '(r, p) ← self P_expr p;
        let '(res, arg) := register res r in
        if has_error res then Done (inl (res, p)) else
        arg ← need arg;
        let args := args ++ [arg] in
        tok ← cur p;
        if is_type tok [t.R_PAREN] then Done (inr (res, args, p))
        else if negb (is_type tok [t.COMMA]) then
          Done (inl (failure res (Some (syntax_error_at tok "Expected ',' or ')'")), p))
        else call_args_loop k' res args p
      else Done (inr (res, args, p))
  end.

(** The tail of [call] from [pos_end = self.cur_tok.pos_end.copy()] on. *)
Definition call_finish (res : ParseResult) (atom : Node) (args : list Node)
    (p : Parser) : ParseM :=
  tok ← cur p;
  let pos_end := tok_pos_end tok in
  let res := register_adv res in
  let p := advance p in
  Done (success res
          (Some (node_set_pos (FuncCallNode_init atom args)
                   (node_pos_start atom) (Some pos_end))), p).

Definition call (k : nat) (p : Parser) : ParseM :=
  let res := ParseResult_init in
  '(r, p) ← self P_atom p;
  let '(res, atom) := register res r in
  if has_error res then Done (res, p) else
  tok ← cur p;
  if is_type tok [t.L_PAREN] then
    let args := [] in
    let res := register_adv res in
    let p := advance p in
    tok ← cur p;
    if negb (is_type tok [t.R_PAREN]) then
      '(r, p) ← self P_expr p;
      let '(res, arg) := register res r in
      if has_error res then Done (res, p) else
      arg ← need arg;
      let args := args ++ [arg] in
      lp ← call_args_loop k res args p;
      match lp with
      | inl ret => Done ret
      | inr (res, args, p) =>
          tok ← cur p;
          if negb (is_type tok [t.R_PAREN]) then
            Done (failure res (Some (syntax_error_at tok "Expected ')'")), p)
          else
          atom ← need atom;
          call_finish res atom args p
      end
    else
      atom ← need atom;
      call_finish res atom args p
  else Done (success res atom, p).

Definition atom (p : Parser) : ParseM :=
  let res := ParseResult_init in
  tok ← cur p;
  if is_type tok [t.INT; t.FLOAT] then
    let res := register_adv res in
    let p := advance p in
    Done (success res (Some (NumberNode_init tok)), p)
  else if is_type tok [t.LITERAL] then
    let res := register_adv res in
    let p := advance p in
    Done (success res (Some (LiteralNode_init tok)), p)
  else if is_type tok [t.L_PAREN] then
    let res := register_adv res in
    let p := advance p in
    '(r, p) ← self P_expr p;
    let '(res, e) := register res r in
    if has_error res then Done (res, p) else
    tok' ← cur p;
    if is_type tok' [t.R_PAREN] then
      let res := register_adv res in
      let p := advance p in
      Done (success res e, p)
    else Done (failure res (Some (syntax_error_at tok' "Expected ')'")), p)
  else if is_type tok [t.IDENTIFIER] then
    let res := register_adv res in
    let p := advance p in
    Done (success res (Some (VarAccessNode_init tok)), p)
  else if is_equals tok t.KW "if" then
    '(r, p) ← self P_if_expr p;
    let '(res, n) := register res r in
    Done (success res n, p)
  else if is_equals tok t.KW "fun" then
    '(r, p) ← self P_func_def p;
    let '(res, n) := register res r in
    Done (success res n, p)
  else
    Done (failure res
            (Some (syntax_error_at tok
                     "Expected Value: identifier, int, float, '+', '-' or '('")), p).

Definition factor (p : Parser) : ParseM :=
  let res := ParseResult_init in
  tok ← cur p;
  if is_type tok [t.PLUS; t.MINUS] then
    let res := register_adv res in
    let p := advance p in
    '(r, p) ← self P_factor p;
    let '(res, f) := register res r in
    if has_error res then Done (res, p) else
    f ← need f;
    Done (success res (Some (UnaryOpNode_init tok f)), p)
  else self P_power p.

Definition term (k : nat) (p : Parser) : ParseM :=
  bin_oper k P_factor [OpTag t.MUL; OpTag t.DIV] None p.

Definition power (k : nat) (p : Parser) : ParseM :=
  bin_oper k P_call [OpTag t.POW] (Some P_factor) p.

Definition arith_expr (k : nat) (p : Parser) : ParseM :=
  bin_oper k P_term [OpTag t.PLUS; OpTag t.MINUS] None p.

Definition comp_expr (k : nat) (p : Parser) : ParseM :=
  let res := ParseResult_init in
  tok ← cur p;
  if is_equals tok t.KW "not" then
    let op_tok := tok in
    let res := register_adv res in
    let p := advance p in
    '(r, p) ← self P_comp_expr p;
    let '(res, n) := register res r in
    if has_error res then Done (res, p) else
    n ← need n;
    Done (success res (Some (UnaryOpNode_init op_tok n)), p)
  else
    '(r, p) ← bin_oper k P_arith_expr
                [OpTag t.EE; OpTag t.NE; OpTag t.LT; OpTag t.GT; OpTag t.LTE;
                 OpTag t.GTE] None p;
    let '(res, n) := register res r in
    if has_error res then Done (res, p) else
    Done (success res n, p).

Definition if_expr (p : Parser) : ParseM :=
  let res := ParseResult_init in
  let res := register_adv res in
  let p := advance p in
  '(r, p) ← self P_comp_expr p;
  let '(res, cond) := register res r in
  if has_error res then Done (res, p) else
  tok ← cur p;
  if negb (is_equals tok t.KW "then") then
    Done (failure res (Some (syntax_error_at tok "Expected 'then'")), p)
  else
  let res := register_adv res in
  let p := advance p in
  '(r, p) ← self P_expr p;
  let '(res, e) := register res r in
  if has_error res then Done (res, p) else
  tok ← cur p;
  if negb (is_equals tok t.KW "else") then
    Done (failure res (Some (syntax_error_at tok "Expected 'else'")), p)
  else
  let res := register_adv res in
  let p := advance p in
  '(r, p) ← self P_expr p;
  let '(res, else_expr) := register res r in
  if has_error res then Done (res, p) else
  cond ← need cond;
  e ← need e;
  else_expr ← need else_expr;
  Done (success res (Some (IfBlockNode_init (cond, e) else_expr)), p).

(** The [while] loop over the further parameters of a definition. *)
Fixpoint func_def_params_loop (k : nat) (res : ParseResult)
    (parameters : list Token) (p : Parser)
    : Outcome ((ParseResult * Parser) + (ParseResult * list Token * Parser)) :=
  match k with
  | O => OutOfFuel
  | S k' =>
      tok ← cur p;
      if is_type tok [t.COMMA] then
        let res := register_adv res in
        let p := advance p in
        tok ← cur p;
        if is_type tok [t.IDENTIFIER] then
          let parameters := parameters ++ [tok] in
          let res := register_adv res in
          let p := advance p in
          func_def_params_loop k' res parameters p
        else if is_type tok [t.R_PAREN] then Done (inr (res, parameters, p))
        else
          Done (inl (failure res (Some (syntax_error_at tok "Expected ',' or ')'")), p))
      else Done (inr (res, parameters, p))
  end.

(** [func_def] from [if not self.cur_tok.is_type(t.R_PAREN)] on. *)
Definition func_def_finish (res : ParseResult) (name : string)
    (pos_start : Position) (parameters : list Token) (p : Parser) : ParseM :=
  tok ← cur p;
  if negb (is_type tok [t.R_PAREN]) then
    Done (failure res (Some (set_ecode (syntax_error_at tok "Invalid Syntax") "fd")), p)
  else
  let res := register_adv res in
  let p := advance p in
  tok ← cur p;
  if negb (is_type tok [t.COLON]) then
    Done (failure res (Some (syntax_error_at tok "Expected ':'")), p)
  else
  let res := register_adv res in
  let p := advance p in
  '(r, p) ← self P_expr p;
  let '(res, e) := register res r in
  if has_error res then Done (res, p) else
  e ← need e;
  Done (success res
          (Some (node_set_pos (FuncDefNode_init name parameters e)
                   (Some pos_start) (node_pos_end e))), p).

Definition func_def (k : nat) (p : Parser) : ParseM :=
  let res := ParseResult_init in
  let res := register_adv res in
  let name := "" in
  tok ← cur p;
  let pos_start := tok_pos_start tok in
  let res := register_adv res in
  let p := advance p in
  tok ← cur p;
  let '(name, res, p) :=
    if is_type tok [t.IDENTIFIER]
    then (tok_name tok, register_adv res, advance p)
    else (name, res, p) in
  tok ← cur p;
  if negb (is_type tok [t.L_PAREN]) then
    Done (failure res
            (Some (syntax_error_at tok
                     (if bool_decide (name = "") then "Expected Identifier or '('"
                      else "Expected '('"))), p)
  else
  let res := register_adv res in
  let p := advance p in
  let parameters := [] in
  tok ← cur p;
  if is_type tok [t.IDENTIFIER] then
    let parameters := parameters ++ [tok] in
    let res := register_adv res in
    let p := advance p in
    lp ← func_def_params_loop k res parameters p;
    match lp with
    | inl ret => Done ret
    | inr (res, parameters, p) => func_def_finish res name pos_start parameters p
    end
  else func_def_finish res name pos_start parameters p.

End Productions.

(** Each call of a production spends one unit of [fuel] (the recursion
    budget of the run); the loops inside a production are bounded by what
    is left of it. *)
Fixpoint parse_production (fuel : nat) (prod : Production) (p : Parser)
    {struct fuel} : ParseM :=
  match fuel with
  | O => OutOfFuel
  | S n =>
      match prod with
      | P_expr => expr (parse_production n) n p
      | P_call => call (parse_production n) n p
      | P_atom => atom (parse_production n) p
      | P_factor => factor (parse_production n) p
      | P_term => term (parse_production n) n p
      | P_power => power (parse_production n) n p
      | P_arith_expr => arith_expr (parse_production n) n p
      | P_comp_expr => comp_expr (parse_production n) n p
      | P_if_expr => if_expr (parse_production n) p
      | P_func_def => func_def (parse_production n) n p
      end
  end.

(** [Parser.parse] *)
Definition parse (fuel : nat) (p : Parser) : ParseM :=
  '(res, p) ← parse_production fuel P_expr p;
  tok ← cur p;
  if negb (has_error res) && negb (is_type tok [t.EOF; t.NEWLINE]) then
    Done (failure res (Some (set_ecode (syntax_error_at tok "Invalid Syntax") "p")), p)
  else Done (res, p).

(** [make_ast(tokens)]: the pair [(res.node, res.error)]. *)
Definition make_ast (fuel : nat) (toks : list Token)
    : Outcome (option Node * option InvalidSyntaxError) :=
  let parser := Parser_init toks in
  '(res, _) ← parse fuel parser;
  Done (node res, error res).

(* ===================================================================== *)
(** * interpreter.py: runtime values *)
(* ===================================================================== *)

(** A reference to a [SymbolMap] object: its index in the heap. *)
Abbreviation ScopeRef := nat.

(** [Context]: its fields are never reassigned, so a context is a value;
    the scope it points to is shared through the heap. *)
Inductive Context :=
| mkContext (display_name : string) (parent : option Context)
    (parent_entry_pos : option Position) (symbol_map : ScopeRef).

Definition display_name (c : Context) : string :=
  let 'mkContext n _ _ _ := c in n.
Definition ctx_parent (c : Context) : option Context :=
  let 'mkContext _ p _ _ := c in p.
Definition parent_entry_pos (c : Context) : option Position :=
  let 'mkContext _ _ e _ := c in e.
Definition ctx_symbol_map (c : Context) : ScopeRef :=
  let 'mkContext _ _ _ m := c in m.

(** The three classes of runtime objects.  [pos_start], [pos_end] and
    [context] start as [None] and are set by [set_pos]/[set_context].
    After that the only attribute of a runtime object that is assigned
    again is its position, and an object read back from a scope is copied
    and re-stamped before anything looks at its position
    ([value.copy().set_pos(...)]).  So a runtime object is a value here,
    [set_pos] returns the re-stamped value and [copy] is the identity. *)
Inductive Value :=
| Number (value : num) (pos_start pos_end : option Position)
    (context : option Context)
| Bool (value : bool) (pos_start pos_end : option Position)
    (context : option Context)
| Function (name : string) (parameters : list Token) (body : Node)
    (pos_start pos_end : option Position) (context : option Context).

Definition type_name (v : Value) : string :=
  match v with
  | Number _ _ _ _ => "Number"
  | Bool _ _ _ _ => "Bool"
  | Function _ _ _ _ _ _ => "Function"
  end.

Definition value_pos_start (v : Value) : option Position :=
  match v with
  | Number _ ps _ _ | Bool _ ps _ _ | Function _ _ _ ps _ _ => ps
  end.

Definition value_pos_end (v : Value) : option Position :=
  match v with
  | Number _ _ pe _ | Bool _ _ pe _ | Function _ _ _ _ pe _ => pe
  end.

Definition value_context (v : Value) : option Context :=
  match v with
  | Number _ _ _ c | Bool _ _ _ c | Function _ _ _ _ _ c => c
  end.

(** [Object.set_pos] *)
Definition set_pos (v : Value) (ps pe : option Position) : Value :=
  match v with
  | Number x _ _ c => Number x ps pe c
  | Bool b _ _ c => Bool b ps pe c
  | Function n params body _ _ c => Function n params body ps pe c
  end.

(** [Object.set_context] *)
Definition set_context (v : Value) (c : option Context) : Value :=
  match v with
  | Number x ps pe _ => Number x ps pe c
  | Bool b ps pe _ => Bool b ps pe c
  | Function n params body ps pe _ => Function n params body ps pe c
  end.

(** [copy]: a new object with the same fields. *)
Definition copy (v : Value) : Value := v.

(** [Number(value)], [Bool(value)]: fresh objects. *)
Definition Number_init (x : num) : Value := Number x None None None.
Definition Bool_init (b : bool) : Value := Bool b None None None.

(** Python's truth test of an object ([if v:], [not v]): [Number] and
    [Bool] define [__bool__]; a [Function] is true as every plain object. *)
Definition truth (v : Value) : bool :=
  match v with
  | Number x _ _ _ => py_bool x
  | Bool b _ _ _ => b
  | Function _ _ _ _ _ _ => true
  end.

(** [is_truthy]: [Object]'s answers [Bool(True)]. *)
Definition is_truthy (v : Value) : Value :=
  match v with
  | Number x _ _ _ => Bool_init (py_bool x)
  | Bool b _ _ _ => Bool_init b
  | Function _ _ _ _ _ _ => Bool_init true
  end.

(** Modelled from the spec: [RTError] comes from utils, which is not under
    src/; the spec gives a runtime error a start and an end position, a
    message and the originating context.  [set_pos] re-stamps the span. *)
Record RTError := mkRTError {
  rt_pos_start : option Position;
  rt_pos_end : option Position;
  rt_details : string;
  rt_context : option Context
}.

Definition RTError_set_pos (e : RTError) (ps pe : option Position) : RTError :=
  mkRTError ps pe (rt_details e) (rt_context e).

(** The [(result, error)] pair an operator method returns. *)
Abbreviation OpResult := (option Value * option RTError)%type.

(** ** class Object *)

Definition not_supported (self : Value) (what_is_not_supported : string)
    (other : Value) : RTError :=
  mkRTError (value_pos_start self) (value_pos_end self)
    (type_name self ++ " does not support " ++ what_is_not_supported
       ++ " with " ++ type_name other)
    (value_context self).

Definition Object_operate_plus (self other : Value) : OpResult :=
  (None, Some (not_supported self "+ operator" other)).
Definition Object_operate_minus (self other : Value) : OpResult :=
  (None, Some (not_supported self "- operator" other)).
Definition Object_operate_mul (self other : Value) : OpResult :=
  (None, Some (not_supported self "* operator" other)).
Definition Object_operate_div (self other : Value) : OpResult :=
  (None, Some (not_supported self "/ operator" other)).
Definition Object_operate_pow (self other : Value) : OpResult :=
  (None, Some (not_supported self "^ operator" other)).
Definition Object_compare_eq (self other : Value) : OpResult :=
  (None, Some (not_supported self "== operator" other)).
Definition Object_compare_ne (self other : Value) : OpResult :=
  (None, Some (not_supported self "!= operator" other)).
Definition Object_compare_gt (self other : Value) : OpResult :=
  (None, Some (not_supported self "> operator" other)).
Definition Object_compare_lt (self other : Value) : OpResult :=
  (None, Some (not_supported self "< operator" other)).
Definition Object_compare_gte (self other : Value) : OpResult :=
  (None, Some (not_supported self ">= operator" other)).
Definition Object_compare_lte (self other : Value) : OpResult :=
  (None, Some (not_supported self "<= operator" other)).
Definition Object_logic_and (self other : Value) : OpResult :=
  (None, Some (not_supported self "'and' logic" other)).
Definition Object_logic_or (self other : Value) : OpResult :=
  (None, Some (not_supported self "'or' logic" other)).
Definition Object_logic_not (self : Value) : OpResult :=
  (None, Some (not_supported self "'not' logic" self)).

(** ** class Number and class Bool: the overriding methods

    Each definition dispatches on the class of [self] as the method
    lookup does: [Number] overrides every operator, [Bool] the three
    logical ones, [Function] none. *)

(** A [Number] method of the shape
    [if isinstance(other, Number): return Number(op).set_context(..), None
     else: return Object.method(self, other)]. *)
Definition number_method (op : num -> num -> Outcome Value)
    (fallback : Value -> Value -> OpResult) (self other : Value)
    : Outcome OpResult :=
  match self, other with
  | Number x _ _ c, Number y _ _ _ =>
      r ← op x y; Done (Some (set_context r c), None)
  | _, _ => Done (fallback self other)
  end.

Definition arith (f : num -> num -> Outcome num) (x y : num) : Outcome Value :=
  r ← f x y; Done (Number_init r).

Definition compare (op : CmpOp) (x y : num) : Outcome Value :=
  b ← py_compare op x y; Done (Bool_init b).

Definition operate_plus := number_method (arith py_add) Object_operate_plus.
Definition operate_minus := number_method (arith py_sub) Object_operate_minus.
Definition operate_mul := number_method (arith py_mul) Object_operate_mul.
Definition operate_pow := number_method (arith py_pow) Object_operate_pow.

Definition operate_div (self other : Value) : Outcome OpResult :=
  match self, other with
  | Number x _ _ c, Number y ps pe _ =>
      if py_is_zero y then
        Done (None, Some (mkRTError ps pe "Division by Zero" c))
      else
        r ← py_truediv x y;
        Done (Some (set_context (Number_init r) c), None)
  | _, _ => Done (Object_operate_div self other)
  end.

Definition compare_eq := number_method (compare CmpEq) Object_compare_eq.
Definition compare_ne := number_method (compare CmpNe) Object_compare_ne.
Definition compare_gt := number_method (compare CmpGt) Object_compare_gt.
Definition compare_lt := number_method (compare CmpLt) Object_compare_lt.
Definition compare_gte := number_method (compare CmpGe) Object_compare_gte.
Definition compare_lte := number_method (compare CmpLe) Object_compare_lte.

(** [other.value] read by a [Bool] method, passed to [Bool(...)], which
    keeps [bool(value)]: a [Function] has no attribute [value]. *)
Definition other_value_bool (other : Value) : Outcome bool :=
  match other with
  | Number y _ _ _ => Done (py_bool y)
  | Bool b _ _ _ => Done b
  | Function _ _ _ _ _ _ =>
      Raised (AttributeError "'Function' object has no attribute 'value'")
  end.

(** [Bool(int(v))] for a number [v] *)
Definition bool_of_int_of (v : num) : Outcome Value :=
  z ← py_int v; Done (Bool_init (negb (z =? 0))).

Definition logic_and (self other : Value) : Outcome OpResult :=
  match self with
  | Bool b _ _ c =>
      (* [self.value and other.value] reads [other.value] only if
         [self.value] is true *)
      r ← (if b then other_value_bool other else Done false);
      Done (Some (set_context (Bool_init r) c), None)
  | Number x _ _ c =>
      match other with
      | Number y _ _ _ =>
          r ← bool_of_int_of (if py_bool x then y else x);
          Done (Some (set_context r c), None)
      | _ => Done (Object_logic_and self other)
      end
  | Function _ _ _ _ _ _ => Done (Object_logic_and self other)
  end.

Definition logic_or (self other : Value) : Outcome OpResult :=
  match self with
  | Bool b _ _ c =>
      r ← (if b then Done true else other_value_bool other);
      Done (Some (set_context (Bool_init r) c), None)
  | Number x _ _ c =>
      match other with
      | Number y _ _ _ =>
          r ← bool_of_int_of (if py_bool x then x else y);
          Done (Some (set_context r c), None)
      | _ => Done (Object_logic_or self other)
      end
  | Function _ _ _ _ _ _ => Done (Object_logic_or self other)
  end.

(** What [logic_not] hands back: [Number] and [Object] return a pair,
    [Bool.logic_not] returns the bare [Bool]. *)
Inductive LogicNotResult :=
| PairResult (r : OpResult)
| BareResult (v : Value).

Definition logic_not (self : Value) : LogicNotResult :=
  match self with
  | Bool b _ _ c => BareResult (set_context (Bool_init (negb b)) c)
  | Number x _ _ c =>
      (* [Bool(int(not self.value))] *)
      PairResult (Some (set_context (Bool_init (negb (py_bool x))) c), None)
  | Function _ _ _ _ _ _ => PairResult (Object_logic_not self)
  end.

(** [number, error = number.logic_not()] *)
Definition unpack_pair (r : LogicNotResult) : Outcome OpResult :=
  match r with
  | PairResult p => Done p
  | BareResult _ => Raised (TypeError "cannot unpack non-iterable Bool object")
  end.

(* ===================================================================== *)
(** * interpreter.py: scopes, results and the interpreter *)
(* ===================================================================== *)

(** [SymbolMap]: the dictionary and the reference to the parent scope. *)
Record SymbolMap := mkSymbolMap {
  sm_symbol_map : gmap string Value;
  sm_parent : option ScopeRef
}.

(** The [SymbolMap] objects alive, by reference.  A new one gets the next
    index; none is ever freed (closures may still point to it). *)
Abbreviation Heap := (list SymbolMap).

(** [SymbolMap(parent)]: the new heap and the reference to the new scope. *)
Definition SymbolMap_init (h : Heap) (parent : option ScopeRef) : Heap * ScopeRef :=
  (h ++ [mkSymbolMap ∅ parent], length h).

(** [SymbolMap.get]: [n] bounds the walk up the parents. *)
Fixpoint SymbolMap_get_from (n : nat) (h : Heap) (self : ScopeRef)
    (var_name : string) : option Value :=
  match n with
  | O => None
  | S n' =>
      match h !! self with
      | None => None
      | Some m =>
          match sm_symbol_map m !! var_name with
          | Some value => Some value
          | None =>
              match sm_parent m with
              | Some parent => SymbolMap_get_from n' h parent var_name
              | None => None
              end
          end
      end
  end.

(** A parent is created before its children, so a walk from any scope is
    shorter than the heap. *)
Definition SymbolMap_get (h : Heap) (self : ScopeRef) (var_name : string)
    : option Value :=
  SymbolMap_get_from (length h) h self var_name.

(** What object creation guarantees: the parent of a scope is older than
    the scope. *)
Definition parents_older (h : Heap) : Prop :=
  forall i m p, h !! i = Some m -> sm_parent m = Some p -> (p < i)%nat.

(** [SymbolMap.set] on the scope a context holds; a context without a
    scope ([symbol_map=None]) is a reference outside the heap. *)
Definition SymbolMap_set (h : Heap) (self : ScopeRef) (var_name : string)
    (value : Value) : Outcome Heap :=
  match h !! self with
  | Some m =>
      Done (<[self := mkSymbolMap (<[var_name := value]> (sm_symbol_map m))
                        (sm_parent m)]> h)
  | None => Raised (AttributeError "'NoneType' object has no attribute 'set'")
  end.

(** [SymbolMap.remove]: [del self.symbol_map[var_name]]. *)
Definition SymbolMap_remove (h : Heap) (self : ScopeRef) (var_name : string)
    : Outcome Heap :=
  match h !! self with
  | Some m =>
      match sm_symbol_map m !! var_name with
      | Some _ =>
          Done (<[self := mkSymbolMap (delete var_name (sm_symbol_map m))
                            (sm_parent m)]> h)
      | None => Raised (KeyError var_name)
      end
  | None => Raised (AttributeError "'NoneType' object has no attribute 'remove'")
  end.

(** [RTResult]: every result the interpreter returns has either its value
    or its error set; [register] followed by [if res.error: return res] is
    the match on the two cases. *)
Inductive RTResult :=
| Success (value : Value)
| Failure (error : RTError).

(** What a visit hands back: the result and the heap it leaves. *)
Abbreviation EvalM := (Outcome (RTResult * Heap)).

Definition string_of_nat (n : nat) : string :=
  NilEmpty.string_of_uint (Nat.to_uint n).

(** The loop of [execute] that binds the parameters:
    [context.symbol_map.set(parameters[i].value, args[i])]. *)
Fixpoint bind_parameters (h : Heap) (scope : ScopeRef)
    (parameters : list Token) (args : list Value) : Outcome Heap :=
  match parameters, args with
  | parameter :: parameters', arg :: args' =>
      h ← SymbolMap_set h scope (tok_name parameter) arg;
      bind_parameters h scope parameters' args'
  | _, _ => Done h
  end.

Section Visit.
(** [visit]: [Interpreter.visit], one level deeper. *)
Variable visit : Node -> Context -> Heap -> EvalM.

(** [Function.execute]; a [Number] or a [Bool] has no such method. *)
Definition execute (self : Value) (args : list Value) (h : Heap) : EvalM :=
  match self with
  | Function name parameters body pos_start pos_end context =>
      match context with
      | None =>
          Raised (AttributeError "'NoneType' object has no attribute 'symbol_map'")
      | Some self_context =>
          let '(h, scope) := SymbolMap_init h (Some (ctx_symbol_map self_context)) in
          let context := mkContext name (Some self_context) pos_start scope in
          let n_parameters := length parameters in
          if negb (Nat.eqb n_parameters (length args)) then
            Done (Failure
                    (mkRTError pos_start pos_end
                       ((if Nat.ltb n_parameters (length args)
                         then "Too many" else "Not enough")
                          ++ " arguments given into " ++ name ++ ", takes "
                          ++ string_of_nat (length parameters))
                       (Some context)), h)
          else
            h ← bind_parameters h scope parameters args;
            '(r, h) ← visit body context h;
            match r with
            | Failure e => Done (Failure e, h)
            | Success value => Done (Success value, h)
            end
      end
  | _ =>
      Raised (AttributeError
                ("'" ++ type_name self ++ "' object has no attribute 'execute'"))
  end.

(** Each [visit_X] receives the fields of the node it is dispatched on:
    the token or the children, then [node.pos_start] and [node.pos_end]. *)

(** [Number(node.tok.value)]: an INT or FLOAT token carries a number (the
    tokenizer's contract); any other token is no input of this method. *)
Definition visit_NumberNode (tok : Token) (ps pe : option Position)
    (context : Context) (h : Heap) : EvalM :=
  match tok_value tok with
  | TNum x =>
      Done (Success (set_context (set_pos (Number_init x) ps pe) (Some context)), h)
  | _ => Raised (TypeError "number token without a number")
  end.

(** A literal that is neither [true] nor [false] makes the method return
    [None]; whoever receives it reads [.error] from it next. *)
Definition visit_LiteralNode (tok : Token) (ps pe : option Position)
    (context : Context) (h : Heap) : EvalM :=
  if value_is (tok_value tok) "true" then
    Done (Success (set_context (set_pos (Bool_init true) ps pe) (Some context)), h)
  else if value_is (tok_value tok) "false" then
    Done (Success (set_context (set_pos (Bool_init false) ps pe) (Some context)), h)
  else Raised (AttributeError "'NoneType' object has no attribute 'error'").

(** Calling a method on a variable that may hold [None]. *)
Definition need_value (v : option Value) : Outcome Value :=
  match v with
  | Some v => Done v
  | None => Raised (AttributeError "'NoneType' object has no attribute 'set_pos'")
  end.

(** [if not value:] on what [get] returned: [None], or an object whose
    truth test fails. *)
Definition not_value (value : option Value) : bool :=
  match value with
  | None => true
  | Some v => negb (truth v)
  end.

Definition visit_VarAccessNode (var_name_tok : Token) (ps pe : option Position)
    (context : Context) (h : Heap) : EvalM :=
  let var_name := tok_name var_name_tok in
  let value := SymbolMap_get h (ctx_symbol_map context) var_name in
  if not_value value then
    Done (Failure (mkRTError ps pe ("'" ++ var_name ++ "' not defined")
                     (Some context)), h)
  else
    value ← need_value value;
    Done (Success (set_pos (copy value) ps pe), h).

Definition visit_VarAssignNode (var_name_tok : Token) (value_node : Node)
    (context : Context) (h : Heap) : EvalM :=
  let var_name := tok_name var_name_tok in
  '(r, h) ← visit value_node context h;
  match r with
  | Failure e => Done (Failure e, h)
  | Success value =>
      h ← SymbolMap_set h (ctx_symbol_map context) var_name value;
      Done (Success value, h)
  end.

(** The [if]/[elif] chain of [visit_BinOpNode] over the operator token;
    when no branch matches, [error] was never assigned. *)
Definition binop_dispatch (oper : Token) (left_ right_ : Value) : Outcome OpResult :=
  if is_type oper [t.PLUS] then operate_plus left_ right_
  else if is_type oper [t.MINUS] then operate_minus left_ right_
  else if is_type oper [t.MUL] then operate_mul left_ right_
  else if is_type oper [t.DIV] then operate_div left_ right_
  else if is_type oper [t.POW] then operate_pow left_ right_
  else if is_type oper [t.EE] then compare_eq left_ right_
  else if is_type oper [t.NE] then compare_ne left_ right_
  else if is_type oper [t.LT] then compare_lt left_ right_
  else if is_type oper [t.GT] then compare_gt left_ right_
  else if is_type oper [t.LTE] then compare_lte left_ right_
  else if is_type oper [t.GTE] then compare_gte left_ right_
  else if is_equals oper t.KW "and" then logic_and left_ right_
  else if is_equals oper t.KW "or" then logic_or left_ right_
  else Raised (UnboundLocalError "local variable 'error' referenced before assignment").

Definition visit_BinOpNode (left_node : Node) (oper : Token) (right_node : Node)
    (ps pe : option Position) (context : Context) (h : Heap) : EvalM :=
  '(r, h) ← visit left_node context h;
  match r with
  | Failure e => Done (Failure e, h)
  | Success left_ =>
      '(r, h) ← visit right_node context h;
      match r with
      | Failure e => Done (Failure e, h)
      | Success right_ =>
          '(result, error) ← binop_dispatch oper left_ right_;
          match error with
          | Some error => Done (Failure (RTError_set_pos error ps pe), h)
          | None =>
              result ← need_value result;
              Done (Success (set_pos result ps pe), h)
          end
      end
  end.

Definition visit_UnaryOpNode (oper : Token) (operand : Node)
    (ps pe : option Position) (context : Context) (h : Heap) : EvalM :=
  '(r, h) ← visit operand context h;
  match r with
  | Failure e => Done (Failure e, h)
  | Success number =>
      '(number, error) ←
        (if is_type oper [t.MINUS] then
           operate_mul number (Number_init (PInt (-1)))
         else if is_equals oper t.KW "not" then
           unpack_pair (logic_not number)
         else Done (Some number, None));
      match error with
      | Some error => Done (Failure error, h)
      | None =>
          number ← need_value number;
          Done (Success (set_pos number ps pe), h)
      end
  end.

Definition visit_IfBlockNode (case : Node * Node) (else_expr : Node)
    (context : Context) (h : Heap) : EvalM :=
  '(r, h) ← visit (fst case) context h;
  match r with
  | Failure e => Done (Failure e, h)
  | Success cond =>
      '(r, h) ←
        (if truth (is_truthy cond) then visit (snd case) context h
         else visit else_expr context h);
      match r with
      | Failure e => Done (Failure e, h)
      | Success value => Done (Success value, h)
      end
  end.

Definition visit_FuncDefNode (name : string) (parameters : list Token)
    (body : Node) (ps pe : option Position) (context : Context) (h : Heap)
    : EvalM :=
  let func :=
    set_context (set_pos (Function name parameters body None None None) ps pe)
      (Some context) in
  h ← SymbolMap_set h (ctx_symbol_map context) name func;
  Done (Success func, h).

(** The [for] loop of [visit_FuncCallNode]: the arguments in order; the
    first error ends it ([inl]). *)
Fixpoint visit_arguments (arguments : list Node) (args : list Value)
    (context : Context) (h : Heap) : Outcome ((RTError + list Value) * Heap) :=
  match arguments with
  | [] => Done (inr args, h)
  | arg_node :: rest =>
      '(r, h) ← visit arg_node context h;
      match r with
      | Failure e => Done (inl e, h)
      | Success v => visit_arguments rest (args ++ [v]) context h
      end
  end.

Definition visit_FuncCallNode (node_to_call : Node) (arguments : list Node)
    (ps pe : option Position) (context : Context) (h : Heap) : EvalM :=
  '(r, h) ← visit node_to_call context h;
  match r with
  | Failure e => Done (Failure e, h)
  | Success value_to_call =>
      let value_to_call := set_pos (copy value_to_call) ps pe in
      '(a, h) ← visit_arguments arguments [] context h;
      match a with
      | inl e => Done (Failure e, h)
      | inr args =>
          '(r, h) ← execute value_to_call args h;
          match r with
          | Failure e => Done (Failure (RTError_set_pos e ps pe), h)
          | Success return_value => Done (Success return_value, h)
          end
      end
  end.

End Visit.

(** [Interpreter.visit]: the dispatch on the class of the node.  Each
    visit spends one unit of [fuel], the recursion budget of the run. *)
Fixpoint visit (fuel : nat) (node : Node) (context : Context) (h : Heap)
    {struct fuel} : EvalM :=
  match fuel with
  | O => OutOfFuel
  | S n =>
      match node with
      | NumberNode tok ps pe => visit_NumberNode tok ps pe context h
      | LiteralNode tok ps pe => visit_LiteralNode tok ps pe context h
      | VarAccessNode var_name ps pe => visit_VarAccessNode var_name ps pe context h
      | VarAssignNode var_name value _ _ =>
          visit_VarAssignNode (visit n) var_name value context h
      | BinOpNode left_ oper right_ ps pe =>
          visit_BinOpNode (visit n) left_ oper right_ ps pe context h
      | UnaryOpNode oper operand ps pe =>
          visit_UnaryOpNode (visit n) oper operand ps pe context h
      | IfBlockNode case else_expr _ _ =>
          visit_IfBlockNode (visit n) case else_expr context h
      | FuncDefNode name parameters body ps pe =>
          visit_FuncDefNode name parameters body ps pe context h
      | FuncCallNode node_to_call arguments ps pe =>
          visit_FuncCallNode (visit n) node_to_call arguments ps pe context h
      end
  end.

(** [interpret(node, context)] *)
Definition interpret (fuel : nat) (node : Node) (context : Context) (h : Heap)
    : EvalM :=
  visit fuel node context h.

(** [GLOBAL_SYMBOL_MAP = SymbolMap()]: the first scope of the heap. *)
Definition GLOBAL_SYMBOL_MAP : ScopeRef := 0%nat.
Definition initial_heap : Heap := [mkSymbolMap ∅ None].

(** What [run] returns: [(value, None)] or [(None, error)], the error
    being the parser's or the interpreter's. *)
Inductive RunResult :=
| RunValue (value : Value)
| RunSyntaxError (error : InvalidSyntaxError)
| RunRTError (error : RTError).

(** [run], from the token list on (the tokenizer is external). *)
Definition run (fuel : nat) (toks : list Token) (h : Heap)
    : Outcome (RunResult * Heap) :=
  '(node, parse_error) ← make_ast fuel toks;
  match parse_error with
  | Some e => Done (RunSyntaxError e, h)
  | None =>
      node ← need node;
      let context := mkContext "<module>" None None GLOBAL_SYMBOL_MAP in
      '(r, h) ← interpret fuel node context h;
      match r with
      | Failure e => Done (RunRTError e, h)
      | Success v => Done (RunValue v, h)
      end
  end.

(* ===================================================================== *)
(** * Programs for the examples *)
(* ===================================================================== *)

(** The tokenizer is external; the examples are written as the token list
    it hands over, each token one column wide, closed by EOF. *)
Definition tok_at (ty : t.tag) (v : TokValue) (i : nat) : Token :=
  mkToken ty v (mkPosition i 0 i) (mkPosition (S i) 0 (S i)).

Definition INT_ (z : Z) : nat -> Token := tok_at t.INT (TNum (PInt z)).
Definition ID (s : string) : nat -> Token := tok_at t.IDENTIFIER (TStr s).
Definition KEY (s : string) : nat -> Token := tok_at t.KW (TStr s).
Definition LIT (s : string) : nat -> Token := tok_at t.LITERAL (TStr s).
Definition SYM (ty : t.tag) : nat -> Token := tok_at ty TNone.

Fixpoint place (i : nat) (l : list (nat -> Token)) : list Token :=
  match l with
  | [] => []
  | f :: rest => f i :: place (S i) rest
  end.

Definition source (l : list (nat -> Token)) : list Token :=
  place 0 (l ++ [SYM t.EOF]).

(** The heap a run leaves. *)
Definition heap_after (r : Outcome (RunResult * Heap)) : Heap :=
  match r with
  | Done (_, h) => h
  | _ => []
  end.

(** [let x = 0] and [x] *)
Definition src_let_x_0 := source [KEY "let"; ID "x"; SYM t.EQ; INT_ 0].
Definition src_x := source [ID "x"].

(** [if 1 then 2 else 3] *)
Definition src_if_1_2_3 :=
  source [KEY "if"; INT_ 1; KEY "then"; INT_ 2; KEY "else"; INT_ 3].

(** [1 / 0] *)
Definition src_1_div_0 := source [INT_ 1; SYM t.DIV; INT_ 0].

(** [if 1 < 2 then 10 else 20] and [if 1 < 2 then 10 else y] *)
Definition src_if_lt_10_20 :=
  source [KEY "if"; INT_ 1; SYM t.LT; INT_ 2; KEY "then"; INT_ 10; KEY "else"; INT_ 20].
Definition src_if_lt_10_y :=
  source [KEY "if"; INT_ 1; SYM t.LT; INT_ 2; KEY "then"; INT_ 10; KEY "else"; ID "y"].
Definition src_y := source [ID "y"].

(** [if fun f(): 1 then 10 else 20] *)
Definition src_if_fun :=
  source [KEY "if"; KEY "fun"; ID "f"; SYM t.L_PAREN; SYM t.R_PAREN; SYM t.COLON;
          INT_ 1; KEY "then"; INT_ 10; KEY "else"; INT_ 20].

(** [fun (x): x] *)
Definition src_lambda :=
  source [KEY "fun"; SYM t.L_PAREN; ID "x"; SYM t.R_PAREN; SYM t.COLON; ID "x"].

(** [5(0)] *)
Definition src_5_of_0 := source [INT_ 5; SYM t.L_PAREN; INT_ 0; SYM t.R_PAREN].

(** [not true], [1 and true] and [true and 1] *)
Definition src_not_true := source [KEY "not"; LIT "true"].
Definition src_1_and_true := source [INT_ 1; KEY "and"; LIT "true"].
Definition src_true_and_1 := source [LIT "true"; KEY "and"; INT_ 1].

(** The module-level context of [run]. *)
Definition module_context : Context := mkContext "<module>" None None GLOBAL_SYMBOL_MAP.

(** The bindings of a scope of the heap (none for a dangling reference). *)
Definition bindings (h : Heap) (scope : ScopeRef) : gmap string Value :=
  match h !! scope with
  | Some m => sm_symbol_map m
  | None => ∅
  end.

(** ** Function calls: what a call does, step by step *)

(** The argument nodes evaluate one after the other, each in the heap the
    previous one left, all to a value. *)
Inductive eval_args (visit : Node -> Context -> Heap -> EvalM) (ctx : Context)
    : Heap -> list Node -> list Value -> Heap -> Prop :=
| eval_args_nil h : eval_args visit ctx h [] [] h
| eval_args_cons h arg_node v h1 rest vs h2 :
    visit arg_node ctx h = Done (Success v, h1) ->
    eval_args visit ctx h1 rest vs h2 ->
    eval_args visit ctx h (arg_node :: rest) (v :: vs) h2.

(** The dictionary of a scope after binding the parameters, in order, to
    the arguments. *)
Definition bind_all (parameters : list Token) (args : list Value)
    (m : gmap string Value) : gmap string Value :=
  foldl (fun m pv => <[tok_name (fst pv) := snd pv]> m) m (zip parameters args).

(** The scope of a call: the bound parameters, and as parent the scope of
    the context the function was defined in. *)
Definition call_scope (fctx : Context) (parameters : list Token)
    (args : list Value) : SymbolMap :=
  mkSymbolMap (bind_all parameters args ∅) (Some (ctx_symbol_map fctx)).

(** An error that leaves [execute] is re-stamped with the span of the call. *)
Definition restamp (ps pe : option Position) (m : EvalM) : EvalM :=
  '(r, h) ← m;
  match r with
  | Failure e => Done (Failure (RTError_set_pos e ps pe), h)
  | Success v => Done (Success v, h)
  end.

(** [fun add(a, b): a + b], then [add(2, 3)], [add(2)], [add(2, 3, 4)] *)
Definition src_def_add :=
  source [KEY "fun"; ID "add"; SYM t.L_PAREN; ID "a"; SYM t.COMMA; ID "b";
          SYM t.R_PAREN; SYM t.COLON; ID "a"; SYM t.PLUS; ID "b"].
Definition src_add_2_3 :=
  source [ID "add"; SYM t.L_PAREN; INT_ 2; SYM t.COMMA; INT_ 3; SYM t.R_PAREN].
Definition src_add_2 :=
  source [ID "add"; SYM t.L_PAREN; INT_ 2; SYM t.R_PAREN].
Definition src_add_2_3_4 :=
  source [ID "add"; SYM t.L_PAREN; INT_ 2; SYM t.COMMA; INT_ 3; SYM t.COMMA;
          INT_ 4; SYM t.R_PAREN].

(** [fun make(x): fun(y): x + y], [let f = make(10)], [let x = 1], [f(5)] *)
Definition src_def_make :=
  source [KEY "fun"; ID "make"; SYM t.L_PAREN; ID "x"; SYM t.R_PAREN; SYM t.COLON;
          KEY "fun"; SYM t.L_PAREN; ID "y"; SYM t.R_PAREN; SYM t.COLON;
          ID "x"; SYM t.PLUS; ID "y"].
Definition src_let_f_make_10 :=
  source [KEY "let"; ID "f"; SYM t.EQ; ID "make"; SYM t.L_PAREN; INT_ 10; SYM t.R_PAREN].
Definition src_let_x_1 := source [KEY "let"; ID "x"; SYM t.EQ; INT_ 1].
Definition src_f_5 := source [ID "f"; SYM t.L_PAREN; INT_ 5; SYM t.R_PAREN].

(** The heap after running the given programs one after the other,
    as a REPL session does. *)
Definition session (fuel : nat) (programs : list (list Token)) : Heap :=
  foldl (fun h toks => heap_after (run fuel toks h)) initial_heap programs.

(** The node of [make(10)(5)]: the call of the value of a call (the
    grammar has no such phrase: [call] takes one argument list). *)
Definition node_make_10_5 : Node :=
  FuncCallNode
    (FuncCallNode (VarAccessNode_init (ID "make" 0%nat)) [NumberNode_init (INT_ 10 2%nat)]
       None None)
    [NumberNode_init (INT_ 5 5%nat)] None None.

(** ** Arithmetic expressions: the grammar and its standard reading *)

(** The phrases of the arithmetic fragment, by binding power, as the
    usual precedence grammar has them: a sum is a left-nested chain of
    products, a product a left-nested chain of signed factors, a power has
    an atom as base and, after [^], a signed factor as exponent (so [^]
    nests to the right and binds tighter than a sign before its base). *)
Abbreviation Span := (Position * Position)%type.

Inductive AddOp := Plus | Minus.
Inductive MulOp := Times | Divide.

Inductive ASum :=
| SumTerm (tm : ATerm)
| SumOp (e : ASum) (op : AddOp) (at_ : Span) (tm : ATerm)
with ATerm :=
| TermFactor (f : AFactor)
| TermOp (tm : ATerm) (op : MulOp) (at_ : Span) (f : AFactor)
with AFactor :=
| FactorSign (op : AddOp) (at_ : Span) (f : AFactor)
| FactorPower (p : APower)
with APower :=
| PowerAtom (a : AAtom)
| PowerOp (a : AAtom) (at_ : Span) (f : AFactor)
with AAtom :=
| AtomNumber (n : num) (at_ : Span)
| AtomParen (lparen : Span) (e : ASum) (rparen : Span).

Scheme ASum_mut := Induction for ASum Sort Prop
with ATerm_mut := Induction for ATerm Sort Prop
with AFactor_mut := Induction for AFactor Sort Prop
with APower_mut := Induction for APower Sort Prop
with AAtom_mut := Induction for AAtom Sort Prop.

Combined Scheme arith_mutind from
  ASum_mut, ATerm_mut, AFactor_mut, APower_mut, AAtom_mut.

(** The tokens of a phrase, as the tokenizer writes them. *)
Definition sym (ty : t.tag) (at_ : Span) : Token :=
  mkToken ty TNone (fst at_) (snd at_).

Definition number_token (n : num) (at_ : Span) : Token :=
  mkToken (match n with PInt _ => t.INT | PFloat _ => t.FLOAT end)
    (TNum n) (fst at_) (snd at_).

Definition add_token (op : AddOp) : Span -> Token :=
  sym (match op with Plus => t.PLUS | Minus => t.MINUS end).

Definition mul_token (op : MulOp) : Span -> Token :=
  sym (match op with Times => t.MUL | Divide => t.DIV end).

Fixpoint sum_tokens (e : ASum) : list Token :=
  match e with
  | SumTerm tm => term_tokens tm
  | SumOp e op at_ tm => sum_tokens e ++ add_token op at_ :: term_tokens tm
  end
with term_tokens (tm : ATerm) : list Token :=
  match tm with
  | TermFactor f => factor_tokens f
  | TermOp tm op at_ f => term_tokens tm ++ mul_token op at_ :: factor_tokens f
  end
with factor_tokens (f : AFactor) : list Token :=
  match f with
  | FactorSign op at_ f => add_token op at_ :: factor_tokens f
  | FactorPower p => power_tokens p
  end
with power_tokens (p : APower) : list Token :=
  match p with
  | PowerAtom a => atom_tokens a
  | PowerOp a at_ f => atom_tokens a ++ sym t.POW at_ :: factor_tokens f
  end
with atom_tokens (a : AAtom) : list Token :=
  match a with
  | AtomNumber n at_ => [number_token n at_]
  | AtomParen l e r => sym t.L_PAREN l :: sum_tokens e ++ [sym t.R_PAREN r]
  end.

(** The tree each phrase stands for: a chain nests to the left, a power to
    the right, parentheses leave no node. *)
Fixpoint sum_node (e : ASum) : Node :=
  match e with
  | SumTerm tm => term_node tm
  | SumOp e op at_ tm => BinOpNode_init (sum_node e) (add_token op at_) (term_node tm)
  end
with term_node (tm : ATerm) : Node :=
  match tm with
  | TermFactor f => factor_node f
  | TermOp tm op at_ f => BinOpNode_init (term_node tm) (mul_token op at_) (factor_node f)
  end
with factor_node (f : AFactor) : Node :=
  match f with
  | FactorSign op at_ f => UnaryOpNode_init (add_token op at_) (factor_node f)
  | FactorPower p => power_node p
  end
with power_node (p : APower) : Node :=
  match p with
  | PowerAtom a => atom_node a
  | PowerOp a at_ f => BinOpNode_init (atom_node a) (sym t.POW at_) (factor_node f)
  end
with atom_node (a : AAtom) : Node :=
  match a with
  | AtomNumber n at_ => NumberNode_init (number_token n at_)
  | AtomParen _ e _ => sum_node e
  end.

(** The value of a phrase in ordinary arithmetic over Python's numbers,
    operands left to right.  A division by zero has no value. *)
Inductive ArithResult :=
| AValue (v : num)
| ADivisionByZero.

Definition abind (a : Outcome ArithResult) (k : num -> Outcome ArithResult)
    : Outcome ArithResult :=
  r ← a;
  match r with
  | AValue v => k v
  | ADivisionByZero => Done ADivisionByZero
  end.

Definition aop (f : num -> num -> Outcome num) (x y : num) : Outcome ArithResult :=
  r ← f x y; Done (AValue r).

Definition adiv (x y : num) : Outcome ArithResult :=
  if py_is_zero y then Done ADivisionByZero else aop py_truediv x y.

Definition add_op (op : AddOp) (x y : num) : Outcome ArithResult :=
  match op with
  | Plus => aop py_add x y
  | Minus => aop py_sub x y
  end.

Definition mul_op (op : MulOp) (x y : num) : Outcome ArithResult :=
  match op with
  | Times => aop py_mul x y
  | Divide => adiv x y
  end.

(** A sign: [+x] is [x], [-x] is [x * (-1)]. *)
Definition sign_op (op : AddOp) (x : num) : Outcome ArithResult :=
  match op with
  | Plus => Done (AValue x)
  | Minus => aop py_mul x (PInt (-1))
  end.

Fixpoint sum_value (e : ASum) : Outcome ArithResult :=
  match e with
  | SumTerm tm => term_value tm
  | SumOp e op _ tm =>
      abind (sum_value e) (fun x => abind (term_value tm) (fun y => add_op op x y))
  end
with term_value (tm : ATerm) : Outcome ArithResult :=
  match tm with
  | TermFactor f => factor_value f
  | TermOp tm op _ f =>
      abind (term_value tm) (fun x => abind (factor_value f) (fun y => mul_op op x y))
  end
with factor_value (f : AFactor) : Outcome ArithResult :=
  match f with
  | FactorSign op _ f => abind (factor_value f) (sign_op op)
  | FactorPower p => power_value p
  end
with power_value (p : APower) : Outcome ArithResult :=
  match p with
  | PowerAtom a => atom_value a
  | PowerOp a _ f =>
      abind (atom_value a) (fun x => abind (factor_value f) (fun y => aop py_pow x y))
  end
with atom_value (a : AAtom) : Outcome ArithResult :=
  match a with
  | AtomNumber n _ => Done (AValue n)
  | AtomParen _ e _ => sum_value e
  end.

(** A run agrees with the arithmetic value: the Number with that value,
    stamped with the span of the node; the error [Division by Zero]; or
    the exception the host's arithmetic raised. *)
Definition agrees (a : Outcome ArithResult) (n : Node) (ctx : Context)
    (h : Heap) (r : EvalM) : Prop :=
  match a with
  | Done (AValue v) =>
      r = Done (Success (Number v (node_pos_start n) (node_pos_end n) (Some ctx)), h)
  | Done ADivisionByZero =>
      exists ps pe,
        r = Done (Failure (mkRTError ps pe "Division by Zero" (Some ctx)), h)
  | Raised x => r = Raised x
  | OutOfFuel => r = OutOfFuel
  end.

(** The same for [run]. *)
Definition run_agrees (a : Outcome ArithResult) (n : Node) (h : Heap)
    (r : Outcome (RunResult * Heap)) : Prop :=
  match a with
  | Done (AValue v) =>
      r = Done (RunValue (Number v (node_pos_start n) (node_pos_end n)
                            (Some module_context)), h)
  | Done ADivisionByZero =>
      exists ps pe,
        r = Done (RunRTError (mkRTError ps pe "Division by Zero" (Some module_context)), h)
  | Raised x => r = Raised x
  | OutOfFuel => r = OutOfFuel
  end.

(** [2 + 3 * 4] and [2 ^ 3 ^ 2] *)
Definition src_2_plus_3_times_4 :=
  source [INT_ 2; SYM t.PLUS; INT_ 3; SYM t.MUL; INT_ 4].
Definition src_2_pow_3_pow_2 :=
  source [INT_ 2; SYM t.POW; INT_ 3; SYM t.POW; INT_ 2].

Definition span_at (i : nat) : Span := (mkPosition i 0 i, mkPosition (S i) 0 (S i)).
Definition lit (z : Z) (i : nat) : AAtom := AtomNumber (PInt z) (span_at i).

(** [2 + 3 * 4] as a sum of [2] and the product [3 * 4]. *)
Definition sum_2_plus_3_times_4 : ASum :=
  SumOp (SumTerm (TermFactor (FactorPower (PowerAtom (lit 2 0))))) Plus (span_at 1)
    (TermOp (TermFactor (FactorPower (PowerAtom (lit 3 2)))) Times (span_at 3)
       (FactorPower (PowerAtom (lit 4 4)))).

(** [2 ^ 3 ^ 2] as the power of [2] to the power [3 ^ 2]. *)
Definition sum_2_pow_3_pow_2 : ASum :=
  SumTerm (TermFactor (FactorPower
    (PowerOp (lit 2 0) (span_at 1)
       (FactorPower (PowerOp (lit 3 2) (span_at 3)
          (FactorPower (PowerAtom (lit 2 4)))))))).

(** ** Reading an arithmetic phrase: the state of the parser

    The statements below follow the parser through the token list: it
    stands at index [i], what is left to read is [drop i toks]. *)
Definition parser_at (toks : list Token) (i : nat) : Parser :=
  mkParser toks (Z.of_nat i) (toks !! i).

Definition next_is_not (bad : list t.tag) (rest : list Token) : Prop :=
  match rest with
  | r0 :: _ => is_type r0 bad = false
  | [] => False
  end.

Definition starts_with (tags : list t.tag) (s : list Token) : Prop :=
  match s with
  | hd :: _ => is_type hd tags = true
  | [] => False
  end.

Definition stop_power : list t.tag := [t.L_PAREN; t.POW].
Definition stop_term : list t.tag := [t.L_PAREN; t.POW; t.MUL; t.DIV].
Definition stop_sum : list t.tag := [t.L_PAREN; t.POW; t.MUL; t.DIV; t.PLUS; t.MINUS].
Definition stop_expr : list t.tag :=
  [t.L_PAREN; t.POW; t.MUL; t.DIV; t.PLUS; t.MINUS;
   t.EE; t.NE; t.LT; t.GT; t.LTE; t.GTE; t.KW].

(** What a production returns after it has read the tokens [s] at
    position [i] and built the node [n]. *)
Definition parsed (toks : list Token) (i : nat) (s : list Token) (n : Node) : ParseM :=
  Done (mkParseResult None (Some n) (length s), parser_at toks (i + length s)).

(** Two results that differ only in how a count or an index is written. *)
Ltac same_up_to_arith := solve [repeat first [lia | reflexivity | progress f_equal]].

Fixpoint sum_ops (e : ASum) : nat :=
  match e with
  | SumTerm _ => 0
  | SumOp e _ _ _ => S (sum_ops e)
  end.

Fixpoint term_ops (tm : ATerm) : nat :=
  match tm with
  | TermFactor _ => 0
  | TermOp tm _ _ _ => S (term_ops tm)
  end.

Definition first_of_atom : list t.tag := [t.INT; t.FLOAT; t.L_PAREN].
Definition first_of_factor : list t.tag := [t.INT; t.FLOAT; t.L_PAREN; t.PLUS; t.MINUS].

Abbreviation pp := parse_production.

(** The loop of a chain, entered after its first operand, reads the whole
    chain; the production that owns the loop then returns the chain's node. *)
Definition term_chain_ok (tm : ATerm) : Prop :=
  forall n k toks i rest,
    (8 * length (term_tokens tm) + 3 <= n)%nat ->
    drop i toks = term_tokens tm ++ rest ->
    next_is_not stop_power rest ->
    bin_oper (pp n) k P_factor [OpTag t.MUL; OpTag t.DIV] None (parser_at toks i) =
    bin_oper_loop (pp n) (k - term_ops tm) P_factor [OpTag t.MUL; OpTag t.DIV]
      (mkParseResult None None (length (term_tokens tm))) (term_node tm)
      (parser_at toks (i + length (term_tokens tm))).

Definition sum_chain_ok (e : ASum) : Prop :=
  forall n k toks i rest,
    (8 * length (sum_tokens e) + 4 <= n)%nat ->
    drop i toks = sum_tokens e ++ rest ->
    next_is_not stop_term rest ->
    bin_oper (pp n) k P_term [OpTag t.PLUS; OpTag t.MINUS] None (parser_at toks i) =
    bin_oper_loop (pp n) (k - sum_ops e) P_term [OpTag t.PLUS; OpTag t.MINUS]
      (mkParseResult None None (length (sum_tokens e))) (sum_node e)
      (parser_at toks (i + length (sum_tokens e))).

Definition production_ok (prod : Production) (margin : nat) (stop : list t.tag)
    (s : list Token) (nd : Node) : Prop :=
  forall n toks i rest,
    (8 * length s + margin <= n)%nat ->
    drop i toks = s ++ rest ->
    next_is_not stop rest ->
    pp n prod (parser_at toks i) = parsed toks i s nd.

(** The operator method a token selects computes the arithmetic operation
    [f] on the values of two Numbers. *)
Definition dispatch_agrees (oper : Token) (f : num -> num -> Outcome ArithResult) : Prop :=
  forall x y p1 p2 q1 q2 ctx,
    match f x y with
    | Done (AValue v) =>
        binop_dispatch oper (Number x p1 p2 (Some ctx)) (Number y q1 q2 (Some ctx))
          = Done (Some (Number v None None (Some ctx)), None)
    | Done ADivisionByZero =>
        exists ps pe,
          binop_dispatch oper (Number x p1 p2 (Some ctx)) (Number y q1 q2 (Some ctx))
            = Done (None, Some (mkRTError ps pe "Division by Zero" (Some ctx)))
    | Raised ex =>
        binop_dispatch oper (Number x p1 p2 (Some ctx)) (Number y q1 q2 (Some ctx))
          = Raised ex
    | OutOfFuel =>
        binop_dispatch oper (Number x p1 p2 (Some ctx)) (Number y q1 q2 (Some ctx))
          = OutOfFuel
    end.

(* ===================================================================== *)
(** * What the interpreter does to the scopes *)
(* ===================================================================== *)

(** A scope keeps its parent and loses no binding ([SymbolMap.remove] is
    never called by the interpreter). *)
Definition scope_kept (m m' : SymbolMap) : Prop :=
  sm_parent m' = sm_parent m /\
  forall x, is_Some (sm_symbol_map m !! x) -> is_Some (sm_symbol_map m' !! x).

(** From [h] to [h'] no scope was freed, every scope other than [scope]
    is as it was, and [scope] was kept. *)
Definition writes_only (scope : ScopeRef) (h h' : Heap) : Prop :=
  (length h <= length h')%nat /\
  (forall i, (i < length h)%nat -> i <> scope -> h' !! i = h !! i) /\
  (forall m, h !! scope = Some m ->
     exists m', h' !! scope = Some m' /\ scope_kept m m').

(** The scope a Function closes over is one of the first [n] scopes. *)
Definition closure_ok (n : nat) (v : Value) : Prop :=
  match v with
  | Function _ _ _ _ _ (Some c) => (ctx_symbol_map c < n)%nat
  | _ => True
  end.

(** Every parent is older than its scope and every stored Function closes
    over a scope of the heap. *)
Definition heap_ok (h : Heap) : Prop :=
  parents_older h /\
  forall i m x v, h !! i = Some m -> sm_symbol_map m !! x = Some v ->
    closure_ok (length h) v.

Definition result_ok (h : Heap) (r : RTResult) : Prop :=
  match r with
  | Success v => closure_ok (length h) v
  | Failure _ => True
  end.

(** A Number or a Bool. *)
Definition plain (v : Value) : Prop :=
  match v with
  | Function _ _ _ _ _ _ => False
  | _ => True
  end.

Definition is_number (v : Value) : bool :=
  match v with
  | Number _ _ _ _ => true
  | _ => false
  end.

(** What [class Object] calls the operator of each arithmetic and
    comparison token in its not-supported message. *)
Definition operator_text (ty : t.tag) : option string :=
  match ty with
  | t.PLUS => Some "+ operator"
  | t.MINUS => Some "- operator"
  | t.MUL => Some "* operator"
  | t.DIV => Some "/ operator"
  | t.POW => Some "^ operator"
  | t.EE => Some "== operator"
  | t.NE => Some "!= operator"
  | t.LT => Some "< operator"
  | t.GT => Some "> operator"
  | t.LTE => Some "<= operator"
  | t.GTE => Some ">= operator"
  | _ => None
  end.

(** The order relation each comparison stands for on the integers. *)
Definition int_relation (op : CmpOp) (x y : Z) : Prop :=
  match op with
  | CmpEq => x = y
  | CmpNe => x <> y
  | CmpLt => x < y
  | CmpGt => x > y
  | CmpLe => x <= y
  | CmpGe => x >= y
  end.

(* ===================================================================== *)
(** * The parser on any token list *)
(* ===================================================================== *)

(** How far a production is from the ones that read a token before they
    call anything: [atom] calls [if_expr] and [func_def] at the token it
    stands on, [call] calls [atom] there, and so on up to [expr]. *)
Definition level (prod : Production) : nat :=
  match prod with
  | P_if_expr | P_func_def => 0
  | P_atom => 1
  | P_call => 2
  | P_power => 3
  | P_factor => 4
  | P_term => 5
  | P_arith_expr => 6
  | P_comp_expr => 7
  | P_expr => 8
  end.

(** The tokenizer's contract: the last token is EOF. *)
Definition ends_with_eof (toks : list Token) : Prop :=
  match last toks with
  | Some eof => type_ eof = t.EOF
  | None => False
  end.

(** A production called at position [i] returns, at a position [j] of the
    token list that is not before [i]; when it reports no error it has a
    node and has read at least one token. *)
Definition returns (toks : list Token) (i : nat) (m : ParseM) : Prop :=
  exists res j,
    m = Done (res, parser_at toks j) /\
    (i <= j < length toks)%nat /\
    (error res = None -> is_Some (node res) /\ (i < j)%nat).

(** [self] returns from every position its budget [n] covers; [if_expr]
    and [func_def] are entered on their keyword, never on EOF. *)
Definition returns_from (toks : list Token) (n : nat)
    (self : Production -> Parser -> ParseM) : Prop :=
  forall prod i tok,
    toks !! i = Some tok ->
    (10 * (length toks - i) + level prod <= n)%nat ->
    (level prod = 0%nat -> type_ tok <> t.EOF) ->
    returns toks i (self prod (parser_at toks i)).

(** A parser over signs only, standing on one of them. *)
Definition is_sign (tok : Token) : bool := is_type tok [t.PLUS; t.MINUS].

Definition signs_only (p : Parser) : Prop :=
  Forall (fun tok => is_sign tok = true) (tokens p) /\
  0 <= cur_index p /\
  exists tok, cur_tok p = Some tok /\ is_sign tok = true.

(** The productions that reach [factor] without reading a token. *)
Definition above_factor (prod : Production) : bool :=
  match prod with
  | P_expr | P_comp_expr | P_arith_expr | P_term | P_factor => true
  | _ => false
  end.

(* ===================================================================== *)
(** * The phrases of the language and their trees *)
(* ===================================================================== *)

(** The grammar the parser's productions spell out, as a precedence
    grammar: an expression is a [let], an [if], a [fun] or a chain of
    comparisons joined by [and]/[or]; a comparison is a [not] or a chain of
    sums; below that the arithmetic levels; a call is an atom, possibly
    followed by one argument list; an atom is a number, a literal, an
    identifier or an expression in parentheses.  Each phrase carries the
    spans of its tokens.  [if] and [fun] stand where an expression starts
    (also inside parentheses, as an argument, as a branch or as a body). *)
Inductive LogicOp := LAnd | LOr.

(** The parameter list of a definition: the names, the commas between
    them, and the comma that may follow the last name. *)
Inductive GParams :=
| ParamsNone
| ParamsSome (first : string * Span) (more : list (Span * (string * Span)))
    (trailing_comma : option Span).

Inductive GExpr :=
| XLet (let_ : Span) (name : string) (name_at : Span) (eq_ : Span) (value : GExpr)
| XIf (if_ : Span) (cond : GComp) (then_ : Span) (e1 : GExpr) (else_ : Span) (e2 : GExpr)
| XFun (fun_ : Span) (name : option (string * Span)) (lparen : Span)
    (params : GParams) (rparen colon : Span) (body : GExpr)
| XLogic (l : GLogic)
with GLogic :=
| LogicOne (c : GComp)
| LogicMore (l : GLogic) (op : LogicOp) (at_ : Span) (c : GComp)
with GComp :=
| CompNot (at_ : Span) (c : GComp)
| CompChain (k : GCmp)
with GCmp :=
| CmpOne (s : GSum)
| CmpMore (k : GCmp) (op : CmpOp) (at_ : Span) (s : GSum)
with GSum :=
| GSumOne (tm : GTerm)
| GSumMore (s : GSum) (op : AddOp) (at_ : Span) (tm : GTerm)
with GTerm :=
| GTermOne (f : GFactor)
| GTermMore (tm : GTerm) (op : MulOp) (at_ : Span) (f : GFactor)
with GFactor :=
| GSigned (op : AddOp) (at_ : Span) (f : GFactor)
| GUnsigned (p : GPower)
with GPower :=
| GPowerOne (c : GCall)
| GPowerOp (c : GCall) (at_ : Span) (f : GFactor)
with GCall :=
| CallNone (a : GAtom)
| CallEmpty (a : GAtom) (lparen rparen : Span)
| CallArgs (a : GAtom) (lparen : Span) (first : GExpr) (more : GMore) (rparen : Span)
with GMore :=
| MoreNil
| MoreCons (comma : Span) (e : GExpr) (more : GMore)
with GAtom :=
| GNumber (n : num) (at_ : Span)
| GLiteral (s : string) (at_ : Span)
| GIdent (s : string) (at_ : Span)
| GParen (lparen : Span) (e : GExpr) (rparen : Span).

Scheme GExpr_mut := Induction for GExpr Sort Prop
with GLogic_mut := Induction for GLogic Sort Prop
with GComp_mut := Induction for GComp Sort Prop
with GCmp_mut := Induction for GCmp Sort Prop
with GSum_mut := Induction for GSum Sort Prop
with GTerm_mut := Induction for GTerm Sort Prop
with GFactor_mut := Induction for GFactor Sort Prop
with GPower_mut := Induction for GPower Sort Prop
with GCall_mut := Induction for GCall Sort Prop
with GMore_mut := Induction for GMore Sort Prop
with GAtom_mut := Induction for GAtom Sort Prop.

Combined Scheme grammar_mutind from
  GExpr_mut, GLogic_mut, GComp_mut, GCmp_mut, GSum_mut, GTerm_mut, GFactor_mut,
  GPower_mut, GCall_mut, GMore_mut, GAtom_mut.

(** The tokens of keywords, identifiers and literals. *)
Definition kw (s : string) (at_ : Span) : Token :=
  mkToken t.KW (TStr s) (fst at_) (snd at_).
Definition ident (s : string) (at_ : Span) : Token :=
  mkToken t.IDENTIFIER (TStr s) (fst at_) (snd at_).
Definition literal (s : string) (at_ : Span) : Token :=
  mkToken t.LITERAL (TStr s) (fst at_) (snd at_).

Definition logic_token (op : LogicOp) : Span -> Token :=
  kw (match op with LAnd => "and" | LOr => "or" end).

Definition cmp_token (op : CmpOp) : Span -> Token :=
  sym (match op with
       | CmpEq => t.EE | CmpNe => t.NE | CmpLt => t.LT
       | CmpGt => t.GT | CmpLe => t.LTE | CmpGe => t.GTE
       end).

Definition param_token (p : string * Span) : Token := ident (fst p) (snd p).

Definition more_params_tokens (more : list (Span * (string * Span))) : list Token :=
  flat_map (fun cp => [sym t.COMMA (fst cp); param_token (snd cp)]) more.

Definition trailing_tokens (trailing : option Span) : list Token :=
  match trailing with
  | Some c => [sym t.COMMA c]
  | None => []
  end.

Definition params_tokens (ps : GParams) : list Token :=
  match ps with
  | ParamsNone => []
  | ParamsSome first more trailing =>
      param_token first :: more_params_tokens more ++ trailing_tokens trailing
  end.

(** The parameters the definition's node holds. *)
Definition params_list (ps : GParams) : list Token :=
  match ps with
  | ParamsNone => []
  | ParamsSome first more _ => param_token first :: map (fun cp => param_token (snd cp)) more
  end.

Definition name_tokens (name : option (string * Span)) : list Token :=
  match name with
  | Some p => [param_token p]
  | None => []
  end.

Definition name_string (name : option (string * Span)) : string :=
  match name with
  | Some p => fst p
  | None => ""
  end.

(** The tokens of a phrase, as the tokenizer writes them. *)
Fixpoint expr_tokens (e : GExpr) : list Token :=
  match e with
  | XLet l x xs eq v => kw "let" l :: ident x xs :: sym t.EQ eq :: expr_tokens v
  | XIf i c th e1 el e2 =>
      kw "if" i :: comp_tokens c ++ kw "then" th :: expr_tokens e1
        ++ kw "else" el :: expr_tokens e2
  | XFun f name lp ps rp co body =>
      kw "fun" f :: name_tokens name ++ sym t.L_PAREN lp :: params_tokens ps
        ++ sym t.R_PAREN rp :: sym t.COLON co :: expr_tokens body
  | XLogic l => logic_tokens l
  end
with logic_tokens (l : GLogic) : list Token :=
  match l with
  | LogicOne c => comp_tokens c
  | LogicMore l op at_ c => logic_tokens l ++ logic_token op at_ :: comp_tokens c
  end
with comp_tokens (c : GComp) : list Token :=
  match c with
  | CompNot at_ c => kw "not" at_ :: comp_tokens c
  | CompChain k => cmp_tokens k
  end
with cmp_tokens (k : GCmp) : list Token :=
  match k with
  | CmpOne s => gsum_tokens s
  | CmpMore k op at_ s => cmp_tokens k ++ cmp_token op at_ :: gsum_tokens s
  end
with gsum_tokens (s : GSum) : list Token :=
  match s with
  | GSumOne tm => gterm_tokens tm
  | GSumMore s op at_ tm => gsum_tokens s ++ add_token op at_ :: gterm_tokens tm
  end
with gterm_tokens (tm : GTerm) : list Token :=
  match tm with
  | GTermOne f => gfactor_tokens f
  | GTermMore tm op at_ f => gterm_tokens tm ++ mul_token op at_ :: gfactor_tokens f
  end
with gfactor_tokens (f : GFactor) : list Token :=
  match f with
  | GSigned op at_ f => add_token op at_ :: gfactor_tokens f
  | GUnsigned p => gpower_tokens p
  end
with gpower_tokens (p : GPower) : list Token :=
  match p with
  | GPowerOne c => call_tokens c
  | GPowerOp c at_ f => call_tokens c ++ sym t.POW at_ :: gfactor_tokens f
  end
with call_tokens (c : GCall) : list Token :=
  match c with
  | CallNone a => gatom_tokens a
  | CallEmpty a lp rp => gatom_tokens a ++ [sym t.L_PAREN lp; sym t.R_PAREN rp]
  | CallArgs a lp first more rp =>
      gatom_tokens a ++ sym t.L_PAREN lp :: expr_tokens first ++ more_tokens more
        ++ [sym t.R_PAREN rp]
  end
with more_tokens (m : GMore) : list Token :=
  match m with
  | MoreNil => []
  | MoreCons comma e more => sym t.COMMA comma :: expr_tokens e ++ more_tokens more
  end
with gatom_tokens (a : GAtom) : list Token :=
  match a with
  | GNumber n at_ => [number_token n at_]
  | GLiteral s at_ => [literal s at_]
  | GIdent s at_ => [ident s at_]
  | GParen lp e rp => sym t.L_PAREN lp :: expr_tokens e ++ [sym t.R_PAREN rp]
  end.

(** The tree each phrase stands for.  A chain nests to the left, a power
    to the right; parentheses leave no node; a definition and a call take
    their span from the [fun] keyword and the closing parenthesis. *)
Fixpoint expr_node (e : GExpr) : Node :=
  match e with
  | XLet _ x xs _ v => VarAssignNode_init (ident x xs) (expr_node v)
  | XIf _ c _ e1 _ e2 => IfBlockNode_init (comp_node c, expr_node e1) (expr_node e2)
  | XFun f name _ ps _ _ body =>
      node_set_pos (FuncDefNode_init (name_string name) (params_list ps) (expr_node body))
        (Some (fst f)) (node_pos_end (expr_node body))
  | XLogic l => logic_node l
  end
with logic_node (l : GLogic) : Node :=
  match l with
  | LogicOne c => comp_node c
  | LogicMore l op at_ c => BinOpNode_init (logic_node l) (logic_token op at_) (comp_node c)
  end
with comp_node (c : GComp) : Node :=
  match c with
  | CompNot at_ c => UnaryOpNode_init (kw "not" at_) (comp_node c)
  | CompChain k => cmp_node k
  end
with cmp_node (k : GCmp) : Node :=
  match k with
  | CmpOne s => gsum_node s
  | CmpMore k op at_ s => BinOpNode_init (cmp_node k) (cmp_token op at_) (gsum_node s)
  end
with gsum_node (s : GSum) : Node :=
  match s with
  | GSumOne tm => gterm_node tm
  | GSumMore s op at_ tm => BinOpNode_init (gsum_node s) (add_token op at_) (gterm_node tm)
  end
with gterm_node (tm : GTerm) : Node :=
  match tm with
  | GTermOne f => gfactor_node f
  | GTermMore tm op at_ f => BinOpNode_init (gterm_node tm) (mul_token op at_) (gfactor_node f)
  end
with gfactor_node (f : GFactor) : Node :=
  match f with
  | GSigned op at_ f => UnaryOpNode_init (add_token op at_) (gfactor_node f)
  | GUnsigned p => gpower_node p
  end
with gpower_node (p : GPower) : Node :=
  match p with
  | GPowerOne c => call_node c
  | GPowerOp c at_ f => BinOpNode_init (call_node c) (sym t.POW at_) (gfactor_node f)
  end
with call_node (c : GCall) : Node :=
  match c with
  | CallNone a => gatom_node a
  | CallEmpty a _ rp =>
      node_set_pos (FuncCallNode_init (gatom_node a) [])
        (node_pos_start (gatom_node a)) (Some (snd rp))
  | CallArgs a _ first more rp =>
      node_set_pos (FuncCallNode_init (gatom_node a) (expr_node first :: more_nodes more))
        (node_pos_start (gatom_node a)) (Some (snd rp))
  end
with more_nodes (m : GMore) : list Node :=
  match m with
  | MoreNil => []
  | MoreCons _ e more => expr_node e :: more_nodes more
  end
with gatom_node (a : GAtom) : Node :=
  match a with
  | GNumber n at_ => NumberNode_init (number_token n at_)
  | GLiteral s at_ => LiteralNode_init (literal s at_)
  | GIdent s at_ => VarAccessNode_init (ident s at_)
  | GParen _ e _ => expr_node e
  end.

(** ** Reading a phrase: what may follow it and how it begins *)

(** The token after a phrase passes the test [ok]. *)
Definition follows (ok : Token -> bool) (rest : list Token) : Prop :=
  match rest with
  | r0 :: _ => ok r0 = true
  | [] => False
  end.

(** The first token of a phrase passes the test [ok]. *)
Definition begins (ok : Token -> bool) (s : list Token) : Prop :=
  match s with
  | hd :: _ => ok hd = true
  | [] => False
  end.

Definition stop_cmp : list t.tag :=
  [t.L_PAREN; t.POW; t.MUL; t.DIV; t.PLUS; t.MINUS; t.EE; t.NE; t.LT; t.GT; t.LTE; t.GTE].

Definition cmp_operators : list Operator :=
  [OpTag t.EE; OpTag t.NE; OpTag t.LT; OpTag t.GT; OpTag t.LTE; OpTag t.GTE].
Definition logic_operators : list Operator := [OpPair t.KW "and"; OpPair t.KW "or"].

(** A phrase ends where the next token cannot continue it: no argument
    list, and no operator of its own level or of a tighter one. *)
Definition after_atom (tok : Token) : bool := true.
Definition after_call (tok : Token) : bool := negb (is_type tok [t.L_PAREN]).
Definition after_power (tok : Token) : bool := negb (is_type tok stop_power).
Definition after_term (tok : Token) : bool := negb (is_type tok stop_term).
Definition after_sum (tok : Token) : bool := negb (is_type tok stop_sum).
Definition after_comp (tok : Token) : bool := negb (is_type tok stop_cmp).
Definition after_expr (tok : Token) : bool :=
  negb (is_type tok stop_cmp) && negb (is_operator tok logic_operators).

Definition after (prod : Production) : Token -> bool :=
  match prod with
  | P_atom => after_atom
  | P_call => after_call
  | P_power | P_factor => after_power
  | P_term => after_term
  | P_arith_expr => after_sum
  | P_comp_expr => after_comp
  | P_expr | P_if_expr | P_func_def => after_expr
  end.

Definition first_atom (tok : Token) : bool :=
  is_type tok [t.INT; t.FLOAT; t.LITERAL; t.L_PAREN; t.IDENTIFIER].
Definition first_factor (tok : Token) : bool :=
  is_type tok [t.INT; t.FLOAT; t.LITERAL; t.L_PAREN; t.IDENTIFIER; t.PLUS; t.MINUS].
Definition first_comp (tok : Token) : bool :=
  first_factor tok || is_equals tok t.KW "not".
Definition first_expr (tok : Token) : bool :=
  is_type tok [t.INT; t.FLOAT; t.LITERAL; t.L_PAREN; t.IDENTIFIER; t.PLUS; t.MINUS; t.KW].

Definition not_sign (tok : Token) : bool := negb (is_type tok [t.PLUS; t.MINUS]).
Definition not_kw (v : string) (tok : Token) : bool := negb (is_equals tok t.KW v).
Definition keyword_if_fun (tok : Token) : bool :=
  is_equals tok t.KW "if" || is_equals tok t.KW "fun".

(** A token that [expr], [comp_expr] and [factor] pass down to [atom]. *)
Definition passed_down (tok : Token) : bool :=
  not_sign tok && not_kw "not" tok && not_kw "let" tok.

(** A token an expression can start with. *)
Definition starts_value (tok : Token) : bool :=
  first_factor tok || is_equals tok t.KW "let" || is_equals tok t.KW "not"
  || is_equals tok t.KW "if" || is_equals tok t.KW "fun".

(** A call phrase that has an argument list. *)
Definition has_arguments (c : GCall) : bool :=
  match c with
  | CallNone _ => false
  | _ => true
  end.

(** [func_def] from [if not self.cur_tok.is_type(t.L_PAREN)] on: [res],
    [name] and the parser are as the lines before left them. *)
Definition func_def_from_paren (self : Production -> Parser -> ParseM) (k : nat)
    (res : ParseResult) (name : string) (pos_start : Position) (p : Parser) : ParseM :=
  tok ← cur p;
  if negb (is_type tok [t.L_PAREN]) then
    Done (failure res
            (Some (syntax_error_at tok
                     (if bool_decide (name = "") then "Expected Identifier or '('"
                      else "Expected '('"))), p)
  else
  let res := register_adv res in
  let p := advance p in
  let parameters := [] in
  tok ← cur p;
  if is_type tok [t.IDENTIFIER] then
    let parameters := parameters ++ [tok] in
    let res := register_adv res in
    let p := advance p in
    lp ← func_def_params_loop k res parameters p;
    match lp with
    | inl ret => Done ret
    | inr (res, parameters, p) => func_def_finish self res name pos_start parameters p
    end
  else func_def_finish self res name pos_start parameters p.

(** A token that [func_def] does not take for a name or a parameter. *)
Definition no_identifier (tok : Token) : bool := negb (is_type tok [t.IDENTIFIER]).

(** [m] read the tokens [s] from position [i], built the node [nd] and
    stands behind them. *)
Definition read_as (toks : list Token) (i : nat) (s : list Token) (nd : Node)
    (m : ParseM) : Prop :=
  exists a, m = Done (mkParseResult None (Some nd) a, parser_at toks (i + length s)).

(** The production [prod] reads [s] as [nd] wherever [s] stands in a token
    list, followed by a token that passes [ok], given a recursion budget
    of eight per token. *)
Definition reads_with (prod : Production) (ok : Token -> bool) (s : list Token)
    (nd : Node) : Prop :=
  forall n toks i rest,
    (8 * length s + level prod <= n)%nat ->
    drop i toks = s ++ rest ->
    follows ok rest ->
    read_as toks i s nd (pp n prod (parser_at toks i)).

Definition reads (prod : Production) (s : list Token) (nd : Node) : Prop :=
  reads_with prod (after prod) s nd.

(** [bin_oper] over [operand] reads [s] as [nd]. *)
Definition bin_reads (operand : Production) (ops : list Operator) (ok : Token -> bool)
    (s : list Token) (nd : Node) : Prop :=
  forall n k toks i rest,
    (8 * length s + level operand <= n)%nat ->
    (length s < k)%nat ->
    drop i toks = s ++ rest ->
    follows ok rest ->
    read_as toks i s nd (bin_oper (pp n) k operand ops None (parser_at toks i)).

(** The loop of [bin_oper], entered after the first operand, has read the
    chain [s] with its [count] operators and holds its node. *)
Definition chain_reads (operand : Production) (ops : list Operator) (count : nat)
    (s : list Token) (nd : Node) : Prop :=
  forall n k toks i rest,
    (8 * length s + level operand <= n)%nat ->
    drop i toks = s ++ rest ->
    follows (after operand) rest ->
    exists a,
      bin_oper (pp n) k operand ops None (parser_at toks i) =
      bin_oper_loop (pp n) (k - count) operand ops (mkParseResult None None a) nd
        (parser_at toks (i + length s)).

Fixpoint logic_count (l : GLogic) : nat :=
  match l with
  | LogicOne _ => 0
  | LogicMore l _ _ _ => S (logic_count l)
  end.
Fixpoint cmp_count (k : GCmp) : nat :=
  match k with
  | CmpOne _ => 0
  | CmpMore k _ _ _ => S (cmp_count k)
  end.
Fixpoint gsum_count (s : GSum) : nat :=
  match s with
  | GSumOne _ => 0
  | GSumMore s _ _ _ => S (gsum_count s)
  end.
Fixpoint gterm_count (tm : GTerm) : nat :=
  match tm with
  | GTermOne _ => 0
  | GTermMore tm _ _ _ => S (gterm_count tm)
  end.

(** The loop over the further arguments of a call reads them up to the
    closing parenthesis. *)
Definition more_reads (m : GMore) : Prop :=
  forall n k toks i rp rest res args,
    (8 * length (more_tokens m) + 8 <= n)%nat ->
    (length (more_tokens m) < k)%nat ->
    drop i toks = more_tokens m ++ sym t.R_PAREN rp :: rest ->
    error res = None ->
    exists a,
      call_args_loop (pp n) k res args (parser_at toks i) =
        Done (inr (mkParseResult None (node res) a, args ++ more_nodes m,
                   parser_at toks (i + length (more_tokens m)))).

(** ** Phrases, nodes and heaps for the examples *)

(** An atom standing as a sum, and a sum standing as an expression. *)
Definition atom_sum (a : GAtom) : GSum :=
  GSumOne (GTermOne (GUnsigned (GPowerOne (CallNone a)))).
Definition sum_expr (s : GSum) : GExpr := XLogic (LogicOne (CompChain (CmpOne s))).
Definition atom_expr (a : GAtom) : GExpr := sum_expr (atom_sum a).

Definition factor_expr (f : GFactor) : GExpr := sum_expr (GSumOne (GTermOne f)).

(** [2 ^ 1024 / 1]: a quotient outside the float range. *)
Definition src_big_div_1 := source [INT_ (2 ^ 1024); SYM t.DIV; INT_ 1].

(** [2 ^ y] and [g(x, - 2 ^ y)] *)
Definition phrase_power : GFactor :=
  GUnsigned
    (GPowerOp (CallNone (GNumber (PInt 2) (span_at 22))) (span_at 23)
       (GUnsigned (GPowerOne (CallNone (GIdent "y" (span_at 24)))))).

Definition phrase_call : GExpr :=
  factor_expr
    (GUnsigned (GPowerOne
       (CallArgs (GIdent "g" (span_at 17)) (span_at 18)
          (atom_expr (GIdent "x" (span_at 19)))
          (MoreCons (span_at 20) (factor_expr (GSigned Minus (span_at 21) phrase_power))
             MoreNil)
          (span_at 25)))).

(** [let f = fun (x, y,): if not x < 1 then g(x, - 2 ^ y) else true] *)
Definition phrase_let_fun : GExpr :=
  XLet (span_at 0) "f" (span_at 1) (span_at 2)
    (XFun (span_at 3) None (span_at 4)
       (ParamsSome ("x", span_at 5) [(span_at 6, ("y", span_at 7))] (Some (span_at 8)))
       (span_at 9) (span_at 10)
       (XIf (span_at 11)
          (CompNot (span_at 12)
             (CompChain
                (CmpMore (CmpOne (atom_sum (GIdent "x" (span_at 13)))) CmpLt (span_at 14)
                   (atom_sum (GNumber (PInt 1) (span_at 15))))))
          (span_at 16) phrase_call (span_at 26)
          (atom_expr (GLiteral "true" (span_at 27))))).

(** The nodes of [let x = 1], [x], [true == true], [- 5], [5(0)] and
    [1 < 2]. *)
Definition node_let_x_1 : Node :=
  VarAssignNode_init (ID "x" 1%nat) (NumberNode_init (INT_ 1 3%nat)).
Definition node_x : Node := VarAccessNode_init (ID "x" 0%nat).
Definition node_true_eq_true : Node :=
  BinOpNode_init (LiteralNode_init (LIT "true" 0%nat)) (SYM t.EE 1%nat)
    (LiteralNode_init (LIT "true" 2%nat)).
Definition node_5 : Node := NumberNode_init (INT_ 5 1%nat).
Definition node_minus_5 : Node := UnaryOpNode_init (SYM t.MINUS 0%nat) node_5.
Definition node_5_of_0 : Node :=
  FuncCallNode (NumberNode_init (INT_ 5 0%nat)) [NumberNode_init (INT_ 0 2%nat)] None None.
Definition node_1_lt_2 : Node :=
  BinOpNode_init (NumberNode_init (INT_ 1 0%nat)) (cmp_token CmpLt (span_at 1))
    (NumberNode_init (INT_ 2 2%nat)).

(** The function [fun id(x): x], defined at module level. *)
Definition function_id : Value :=
  Function "id" [ID "x" 0%nat] node_x None None (Some module_context).

(** A global scope that binds [x] to 1, and a scope inside it. *)
Definition two_scopes : Heap :=
  [mkSymbolMap {[ "x" := Number_init (PInt 1) ]} None; mkSymbolMap ∅ (Some 0%nat)].

(* ===================================================================== *)
(** * Properties *)
(* ===================================================================== *)

(** ** The parse result *)

Lemma failure_some (res : ParseResult) (e : InvalidSyntaxError) :
  error (failure res (Some e)) = Some e.
Proof. reflexivity. Qed.

Lemma failure_none_committed (res : ParseResult) :
  advancements res <> 0%nat -> failure res None = res.
Proof.
  intros Hadv. unfold failure.
  destruct (Nat.eqb_spec (advancements res) 0); [contradiction | reflexivity].
Qed.

Lemma register_keeps_error (self res : ParseResult) (e : InvalidSyntaxError) :
  error res = Some e -> error (fst (register self res)) = Some e.
Proof. intros He. unfold register; simpl. now rewrite He. Qed.

(** C8: after one token has been advanced and a first error [e1] has been
    recorded, a second call of [failure] with another error [e2] replaces
    [e1]: the guard of [failure] tests the new error, not the recorded one,
    so the first error does not win. *)
Theorem failure_replaces_committed_error (e1 e2 : InvalidSyntaxError) :
  let res := failure (register_adv ParseResult_init) (Some e1) in
  advancements res = 1%nat /\
  error res = Some e1 /\
  error (failure res (Some e2)) = Some e2.
Proof. repeat split. Qed.

(** ** Spans of the nodes *)

(** C9: [IfBlockNode.__init__] assigns [pos_start] only, so the node the
    parser builds for [if 1 then 2 else 3] has no [pos_end], although each
    of its three children has one. *)
Theorem if_node_has_no_pos_end :
  (forall case else_expr, node_pos_end (IfBlockNode_init case else_expr) = None) /\
  exists c t e ps,
    make_ast 20 src_if_1_2_3 = Done (Some (IfBlockNode (c, t) e ps None), None) /\
    node_pos_end c <> None /\ node_pos_end t <> None /\ node_pos_end e <> None.
Proof.
  split; [reflexivity |].
  vm_compute. do 4 eexists. split; [reflexivity |].
  repeat split; discriminate.
Qed.

(** ** Variable access *)

(** The bound of [SymbolMap_get] is never reached: where parents are older
    than their children, any bound above the index of the scope gives the
    same answer. *)
Lemma SymbolMap_get_from_enough (h : Heap) (var_name : string) :
  parents_older h ->
  forall n n' self, (self < n)%nat -> (self < n')%nat ->
    SymbolMap_get_from n h self var_name = SymbolMap_get_from n' h self var_name.
Proof.
  intros Hwf. induction n as [| n IH]; intros n' self Hn Hn'; [lia |].
  destruct n' as [| n']; [lia |]. cbn.
  destruct (h !! self) as [m |] eqn:Hm; [| reflexivity].
  destruct (sm_symbol_map m !! var_name); [reflexivity |].
  destruct (sm_parent m) as [p |] eqn:Hp; [| reflexivity].
  pose proof (Hwf _ _ _ Hm Hp). apply IH; lia.
Qed.

Lemma visit_VarAccessNode_unbound tok ps pe ctx h :
  SymbolMap_get h (ctx_symbol_map ctx) (tok_name tok) = None ->
  visit_VarAccessNode tok ps pe ctx h =
    Done (Failure (mkRTError ps pe ("'" ++ tok_name tok ++ "' not defined") (Some ctx)), h).
Proof. intros Hget. unfold visit_VarAccessNode. now rewrite Hget. Qed.

Lemma visit_VarAccessNode_truthy tok ps pe ctx h v :
  SymbolMap_get h (ctx_symbol_map ctx) (tok_name tok) = Some v ->
  truth v = true ->
  visit_VarAccessNode tok ps pe ctx h = Done (Success (set_pos v ps pe), h).
Proof.
  intros Hget Ht. unfold visit_VarAccessNode. rewrite Hget. simpl. now rewrite Ht.
Qed.

Lemma visit_VarAccessNode_falsy tok ps pe ctx h v :
  SymbolMap_get h (ctx_symbol_map ctx) (tok_name tok) = Some v ->
  truth v = false ->
  visit_VarAccessNode tok ps pe ctx h =
    Done (Failure (mkRTError ps pe ("'" ++ tok_name tok ++ "' not defined") (Some ctx)), h).
Proof.
  intros Hget Ht. unfold visit_VarAccessNode. rewrite Hget. simpl. now rewrite Ht.
Qed.

(** C4: after [let x = 0] the global scope binds [x] to the Number 0, and
    the access [x] is answered with the error ['x' not defined]: the test
    [if not value] takes the stored falsy value for a missing one. *)
Theorem falsy_binding_reported_undefined :
  exists ps pe c h1 e,
    let zero := Number (PInt 0) ps pe c in
    run 10 src_let_x_0 initial_heap = Done (RunValue zero, h1) /\
    SymbolMap_get h1 GLOBAL_SYMBOL_MAP "x" = Some zero /\
    run 10 src_x h1 = Done (RunRTError e, h1) /\
    rt_details e = "'x' not defined".
Proof. vm_compute. do 5 eexists. repeat split. Qed.

(** ** Division *)

(** C5, as the code has it: dividing a Number by a Number whose value is
    zero gives the error [Division by Zero], which is not the message of
    the generic not-supported error; with a nonzero divisor the result is
    what Python's [/] does on the two values: the Number that holds the
    quotient where [/] returns one, and the exception of [/] where it
    raises.  [1 / 0] runs to the error. *)
Theorem operate_div_zero_or_quotient x y ps pe c ps' pe' c' :
  let a := Number x ps pe c in
  let b := Number y ps' pe' c' in
  (py_is_zero y = true ->
   operate_div a b = Done (None, Some (mkRTError ps' pe' "Division by Zero" c))) /\
  (py_is_zero y = false ->
   (forall q, py_truediv x y = Done q ->
      operate_div a b = Done (Some (Number q None None c), None)) /\
   (forall e, py_truediv x y = Raised e -> operate_div a b = Raised e)) /\
  rt_details (not_supported a "/ operator" b) <> "Division by Zero" /\
  exists e h,
    run 10 src_1_div_0 initial_heap = Done (RunRTError e, h) /\
    rt_details e = "Division by Zero".
Proof.
  cbn zeta. split; [| split; [| split]].
  - intros Hz. unfold operate_div. now rewrite Hz.
  - intros Hz. unfold operate_div. rewrite Hz.
    split; [intros q Hq | intros e He]; now rewrite ?Hq, ?He.
  - discriminate.
  - vm_compute. do 2 eexists. split; reflexivity.
Qed.

(** ** Logical operators *)

(** C6, as the code has it: [and]/[or] on a Number succeed only with a
    Number on the right (on ints: the conjunction or disjunction of the two
    truth values) and give the generic not-supported error with a Bool or
    a Function on the right; on a Bool they succeed with a Number or a
    Bool on the right; [not] on a Number is the negation of its truth
    value; a Function on the left gives the not-supported error for all
    three. *)
Theorem logic_operators_by_operand_class :
  (forall x y z ps pe c ps' pe' c',
     py_int (if py_bool x then y else x) = Done z ->
     logic_and (Number x ps pe c) (Number y ps' pe' c') =
       Done (Some (Bool (negb (z =? 0)) None None c), None)) /\
  (forall x y z ps pe c ps' pe' c',
     py_int (if py_bool x then x else y) = Done z ->
     logic_or (Number x ps pe c) (Number y ps' pe' c') =
       Done (Some (Bool (negb (z =? 0)) None None c), None)) /\
  (forall x y ps pe c ps' pe' c',
     logic_and (Number (PInt x) ps pe c) (Number (PInt y) ps' pe' c') =
       Done (Some (Bool (negb (x =? 0) && negb (y =? 0)) None None c), None) /\
     logic_or (Number (PInt x) ps pe c) (Number (PInt y) ps' pe' c') =
       Done (Some (Bool (negb (x =? 0) || negb (y =? 0)) None None c), None)) /\
  (forall x ps pe c other,
     type_name other <> "Number" ->
     logic_and (Number x ps pe c) other =
       Done (None, Some (not_supported (Number x ps pe c) "'and' logic" other)) /\
     logic_or (Number x ps pe c) other =
       Done (None, Some (not_supported (Number x ps pe c) "'or' logic" other))) /\
  (forall b ps pe c other,
     type_name other <> "Function" ->
     logic_and (Bool b ps pe c) other =
       Done (Some (Bool (b && truth other) None None c), None) /\
     logic_or (Bool b ps pe c) other =
       Done (Some (Bool (b || truth other) None None c), None)) /\
  (forall x ps pe c,
     unpack_pair (logic_not (Number x ps pe c)) =
       Done (Some (Bool (negb (truth (Number x ps pe c))) None None c), None)) /\
  (forall f other,
     type_name f = "Function" ->
     logic_and f other = Done (None, Some (not_supported f "'and' logic" other)) /\
     logic_or f other = Done (None, Some (not_supported f "'or' logic" other)) /\
     unpack_pair (logic_not f) = Done (None, Some (not_supported f "'not' logic" f))).
Proof.
  repeat apply conj.
  - intros x y z ps pe c ps' pe' c' Hz. cbn. unfold bool_of_int_of.
    rewrite Hz. reflexivity.
  - intros x y z ps pe c ps' pe' c' Hz. cbn. unfold bool_of_int_of.
    rewrite Hz. reflexivity.
  - intros x y ps pe c ps' pe' c'. cbn. unfold py_bool; cbn.
    split; destruct (x =? 0) eqn:Hx; cbn; try rewrite Hx; reflexivity.
  - intros x ps pe c [] Hne; cbn in *; try congruence; split; reflexivity.
  - intros b ps pe c [] Hne; cbn in *; try congruence;
      split; destruct b; reflexivity.
  - reflexivity.
  - intros [] other Hf; cbn in Hf; try discriminate. repeat split.
Qed.

(** What the three programs run to: [Bool.logic_not] returns a bare Bool
    where the caller unpacks a pair. *)
Example logic_programs :
  run 40 src_not_true initial_heap
    = Raised (TypeError "cannot unpack non-iterable Bool object") /\
  (exists e h, run 40 src_1_and_true initial_heap = Done (RunRTError e, h) /\
     rt_details e = "Number does not support 'and' logic with Bool") /\
  (exists ps pe c h,
     run 40 src_true_and_1 initial_heap = Done (RunValue (Bool true ps pe c), h)).
Proof.
  vm_compute. split; [reflexivity |]. split.
  - do 2 eexists. split; reflexivity.
  - do 4 eexists. reflexivity.
Qed.

(** ** Function definitions *)

(** C7, as the code has it: a function definition is always registered in
    the current scope, under the name of its node: the function's own name,
    or [[lambda]], the name the parser gives a definition without one.
    That binding is the only change to the heap. *)
Theorem func_def_registers_under_node_name
    fuel name parameters body ps pe ctx h m :
  h !! ctx_symbol_map ctx = Some m ->
  let func := Function name parameters body ps pe (Some ctx) in
  exists h',
    visit (S fuel) (FuncDefNode name parameters body ps pe) ctx h =
      Done (Success func, h') /\
    bindings h' (ctx_symbol_map ctx) = <[name := func]> (bindings h (ctx_symbol_map ctx)) /\
    (forall other, other <> name ->
       bindings h' (ctx_symbol_map ctx) !! other = bindings h (ctx_symbol_map ctx) !! other) /\
    (forall scope, scope <> ctx_symbol_map ctx -> h' !! scope = h !! scope) /\
    (forall nm ps' b,
       FuncDefNode_init nm ps' b =
         FuncDefNode (if bool_decide (nm = "") then "[lambda]" else nm) ps' b None None).
Proof.
  intros Hm func.
  exists (<[ctx_symbol_map ctx :=
             mkSymbolMap (<[name := func]> (sm_symbol_map m)) (sm_parent m)]> h).
  assert (Hlt : (ctx_symbol_map ctx < length h)%nat)
    by (eapply lookup_lt_Some; eassumption).
  assert (Hb : bindings
                 (<[ctx_symbol_map ctx :=
                      mkSymbolMap (<[name := func]> (sm_symbol_map m)) (sm_parent m)]> h)
                 (ctx_symbol_map ctx)
               = <[name := func]> (bindings h (ctx_symbol_map ctx))).
  { unfold bindings. rewrite list_lookup_insert_eq by exact Hlt. now rewrite Hm. }
  split; [| split; [| split; [| split]]].
  - cbn. unfold visit_FuncDefNode, SymbolMap_set. rewrite Hm. reflexivity.
  - exact Hb.
  - intros other Hne. rewrite Hb. now apply lookup_insert_ne.
  - intros scope Hne. now apply list_lookup_insert_ne.
  - reflexivity.
Qed.

(** ** Conditionals *)

(** Returning [res] after [register] gives back what was registered. *)
Lemma rewrap_result (m : EvalM) :
  ('(r, h) ← m;
   match r with
   | Failure e => Done (Failure e, h)
   | Success value => Done (Success value, h)
   end) = m.
Proof. destruct m as [[[] ?] | |]; reflexivity. Qed.

Lemma visit_IfBlockNode_selected fuel cond then_ else_ ps pe ctx h v h1 :
  visit fuel cond ctx h = Done (Success v, h1) ->
  visit (S fuel) (IfBlockNode (cond, then_) else_ ps pe) ctx h =
    if truth (is_truthy v) then visit fuel then_ ctx h1 else visit fuel else_ ctx h1.
Proof.
  intros Hc. cbn. unfold visit_IfBlockNode. cbn. rewrite Hc. cbn.
  apply rewrap_result.
Qed.

(** C3: once the condition has evaluated to a value, the if-expression is
    the evaluation of the selected branch alone (in the heap the condition
    left): replacing the other branch by any node changes nothing.  An
    error of the condition is the result, and no branch is evaluated.
    [if 1 < 2 then 10 else 20] runs to 10, and so does
    [if 1 < 2 then 10 else y] although [y] alone is an error. *)
Theorem if_evaluates_only_selected_branch :
  (forall fuel cond then_ else_ ps pe ctx h v h1,
     visit fuel cond ctx h = Done (Success v, h1) ->
     visit (S fuel) (IfBlockNode (cond, then_) else_ ps pe) ctx h =
       (if truth (is_truthy v) then visit fuel then_ ctx h1
        else visit fuel else_ ctx h1) /\
     (truth (is_truthy v) = true ->
      forall other ps' pe',
        visit (S fuel) (IfBlockNode (cond, then_) other ps' pe') ctx h =
        visit (S fuel) (IfBlockNode (cond, then_) else_ ps pe) ctx h) /\
     (truth (is_truthy v) = false ->
      forall other ps' pe',
        visit (S fuel) (IfBlockNode (cond, other) else_ ps' pe') ctx h =
        visit (S fuel) (IfBlockNode (cond, then_) else_ ps pe) ctx h)) /\
  (forall fuel cond then_ else_ ps pe ctx h e h1,
     visit fuel cond ctx h = Done (Failure e, h1) ->
     visit (S fuel) (IfBlockNode (cond, then_) else_ ps pe) ctx h = Done (Failure e, h1)) /\
  (exists ps pe c h,
     run 40 src_if_lt_10_20 initial_heap = Done (RunValue (Number (PInt 10) ps pe c), h)) /\
  (exists ps pe c h e h',
     run 40 src_if_lt_10_y initial_heap = Done (RunValue (Number (PInt 10) ps pe c), h) /\
     run 40 src_y initial_heap = Done (RunRTError e, h') /\
     rt_details e = "'y' not defined").
Proof.
  split; [| split; [| split]].
  - intros fuel cond then_ else_ ps pe ctx h v h1 Hc. split; [| split].
    + now apply visit_IfBlockNode_selected.
    + intros Ht other ps' pe'.
      rewrite !(visit_IfBlockNode_selected _ _ _ _ _ _ _ _ _ _ Hc), Ht. reflexivity.
    + intros Ht other ps' pe'.
      rewrite !(visit_IfBlockNode_selected _ _ _ _ _ _ _ _ _ _ Hc), Ht. reflexivity.
  - intros fuel cond then_ else_ ps pe ctx h e h1 Hc.
    cbn. unfold visit_IfBlockNode. cbn. now rewrite Hc.
  - vm_compute. do 4 eexists. reflexivity.
  - vm_compute. do 6 eexists. repeat split.
Qed.

(** C10: a Function used as the condition is truthy ([Object.is_truthy]
    answers [Bool(True)]): the if-expression is then the evaluation of its
    then-branch, and [if fun f(): 1 then 10 else 20] runs to 10. *)
Theorem function_condition_takes_then_branch :
  (forall fuel cond then_ else_ ps pe ctx h name params body fps fpe fctx h1,
     visit fuel cond ctx h = Done (Success (Function name params body fps fpe fctx), h1) ->
     is_truthy (Function name params body fps fpe fctx) = Bool true None None None /\
     visit (S fuel) (IfBlockNode (cond, then_) else_ ps pe) ctx h =
       visit fuel then_ ctx h1) /\
  (exists ps pe c h,
     run 40 src_if_fun initial_heap = Done (RunValue (Number (PInt 10) ps pe c), h)).
Proof.
  split.
  - intros fuel cond then_ else_ ps pe ctx h name params body fps fpe fctx h1 Hc.
    split; [reflexivity |].
    now rewrite (visit_IfBlockNode_selected _ _ _ _ _ _ _ _ _ _ Hc).
  - vm_compute. do 4 eexists. reflexivity.
Qed.

(** ** Function calls *)

Lemma visit_arguments_all (V : Node -> Context -> Heap -> EvalM) ctx h arguments vs h2 :
  eval_args V ctx h arguments vs h2 ->
  forall acc, visit_arguments V arguments acc ctx h = Done (inr (acc ++ vs), h2).
Proof.
  induction 1 as [h | h a v h1 rest vs h2 Ha _ IH]; intros acc; cbn.
  - now rewrite app_nil_r.
  - rewrite Ha. cbn. rewrite IH, <- app_assoc. reflexivity.
Qed.

Lemma visit_arguments_first_error (V : Node -> Context -> Heap -> EvalM)
    ctx h pre vs h2 a e h3 post :
  eval_args V ctx h pre vs h2 ->
  V a ctx h2 = Done (Failure e, h3) ->
  forall acc, visit_arguments V (pre ++ a :: post) acc ctx h = Done (inl e, h3).
Proof.
  induction 1 as [h | h a' v h1 rest vs h2 Ha _ IH]; intros Hfail acc; cbn.
  - now rewrite Hfail.
  - rewrite Ha. cbn. now apply IH.
Qed.

Lemma eval_args_length (V : Node -> Context -> Heap -> EvalM) ctx h arguments vs h2 :
  eval_args V ctx h arguments vs h2 -> length vs = length arguments.
Proof. induction 1; cbn; congruence. Qed.

Lemma bind_parameters_new_scope parameters :
  forall args (h : Heap) m parent,
    bind_parameters (h ++ [mkSymbolMap m parent]) (length h) parameters args =
      Done (h ++ [mkSymbolMap (bind_all parameters args m) parent]).
Proof.
  induction parameters as [| p parameters IH]; intros [| a args] h m parent;
    try reflexivity.
  cbn. unfold SymbolMap_set.
  rewrite list_lookup_middle by reflexivity. cbn.
  rewrite insert_app_r_alt by reflexivity.
  rewrite Nat.sub_diag. cbn. apply IH.
Qed.

Lemma execute_arity_mismatch (V : Node -> Context -> Heap -> EvalM)
    name parameters body ps pe fctx args h :
  length args <> length parameters ->
  execute V (Function name parameters body ps pe (Some fctx)) args h =
    Done (Failure
            (mkRTError ps pe
               ((if Nat.ltb (length parameters) (length args)
                 then "Too many" else "Not enough")
                  ++ " arguments given into " ++ name ++ ", takes "
                  ++ string_of_nat (length parameters))
               (Some (mkContext name (Some fctx) ps (length h)))),
          h ++ [mkSymbolMap ∅ (Some (ctx_symbol_map fctx))]).
Proof.
  intros Hne. cbn.
  destruct (Nat.eqb_spec (length parameters) (length args)); [congruence |].
  reflexivity.
Qed.

Lemma execute_arity_match (V : Node -> Context -> Heap -> EvalM)
    name parameters body ps pe fctx args h :
  length args = length parameters ->
  execute V (Function name parameters body ps pe (Some fctx)) args h =
    V body (mkContext name (Some fctx) ps (length h))
      (h ++ [call_scope fctx parameters args]).
Proof.
  intros Heq. cbn. rewrite <- Heq, Nat.eqb_refl. cbn.
  rewrite bind_parameters_new_scope. cbn. apply rewrap_result.
Qed.

(** C1: a call whose callee evaluates to a Function evaluates its
    arguments in order and stops at the first error; with too few or too
    many arguments it fails with [Not enough ...] or [Too many ...]; with
    as many as parameters it evaluates the body in a new scope that binds
    the parameters to the arguments and whose parent is the scope of the
    context the function was defined in, and returns the body's result
    (an error re-stamped with the span of the call).  [add(2, 3)] is 5, and
    the closure made by [make(10)], applied to 5, is 15, also after the
    caller's scope got an [x] of its own. *)
Theorem call_semantics :
  (forall fuel callee arguments ps pe ctx h name params body fps fpe fctx h1,
     visit fuel callee ctx h =
       Done (Success (Function name params body fps fpe (Some fctx)), h1) ->
     let call := FuncCallNode callee arguments ps pe in
     (forall pre a post vs h2 e h3,
        arguments = pre ++ a :: post ->
        eval_args (visit fuel) ctx h1 pre vs h2 ->
        visit fuel a ctx h2 = Done (Failure e, h3) ->
        visit (S fuel) call ctx h = Done (Failure e, h3)) /\
     (forall vs h2,
        eval_args (visit fuel) ctx h1 arguments vs h2 ->
        let new_context := mkContext name (Some fctx) ps (length h2) in
        let arity_error (what : string) :=
          Done (Failure
                  (mkRTError ps pe
                     (what ++ " arguments given into " ++ name ++ ", takes "
                        ++ string_of_nat (length params))
                     (Some new_context)),
                h2 ++ [mkSymbolMap ∅ (Some (ctx_symbol_map fctx))]) in
        ((length vs < length params)%nat ->
         visit (S fuel) call ctx h = arity_error "Not enough") /\
        ((length vs > length params)%nat ->
         visit (S fuel) call ctx h = arity_error "Too many") /\
        (length vs = length params ->
         visit (S fuel) call ctx h =
           restamp ps pe
             (visit fuel body new_context (h2 ++ [call_scope fctx params vs]))))) /\
  (let h := session 40 [src_def_add] in
   (exists ps pe c h', run 40 src_add_2_3 h = Done (RunValue (Number (PInt 5) ps pe c), h')) /\
   (exists e h', run 40 src_add_2 h = Done (RunRTError e, h') /\
      rt_details e = "Not enough arguments given into add, takes 2") /\
   (exists e h', run 40 src_add_2_3_4 h = Done (RunRTError e, h') /\
      rt_details e = "Too many arguments given into add, takes 2")) /\
  (let h := session 40 [src_def_make; src_let_f_make_10; src_let_x_1] in
   SymbolMap_get h GLOBAL_SYMBOL_MAP "x"
     = Some (Number (PInt 1) (Some (mkPosition 3 0 3)) (Some (mkPosition 4 0 4))
               (Some module_context)) /\
   (exists ps pe c h', run 40 src_f_5 h = Done (RunValue (Number (PInt 15) ps pe c), h'))) /\
  (exists ps pe c h',
     visit 10 node_make_10_5 module_context (session 40 [src_def_make])
       = Done (Success (Number (PInt 15) ps pe c), h')).
Proof.
  split; [| split; [| split]].
  - intros fuel callee arguments ps pe ctx h name params body fps fpe fctx h1 Hc call.
    split.
    + intros pre a post vs h2 e h3 -> Hpre Hfail.
      cbn. unfold visit_FuncCallNode. rewrite Hc. cbn.
      rewrite (visit_arguments_first_error _ _ _ _ _ _ _ _ _ _ Hpre Hfail).
      reflexivity.
    + intros vs h2 Hargs new_context arity_error.
      assert (Hcall : visit (S fuel) call ctx h =
                restamp ps pe
                  (execute (visit fuel) (Function name params body ps pe (Some fctx)) vs h2)).
      { cbn. unfold visit_FuncCallNode. rewrite Hc. cbn.
        rewrite (visit_arguments_all _ _ _ _ _ _ Hargs). reflexivity. }
      rewrite Hcall. split; [| split]; intros Hlen.
      * rewrite execute_arity_mismatch by lia.
        destruct (Nat.ltb_spec (length params) (length vs)); [lia |]. reflexivity.
      * rewrite execute_arity_mismatch by lia.
        destruct (Nat.ltb_spec (length params) (length vs)); [| lia]. reflexivity.
      * now rewrite execute_arity_match.
  - vm_compute. repeat split; repeat eexists.
  - vm_compute. repeat split; repeat eexists.
  - vm_compute. repeat eexists.
Qed.

(** A callee that is no Function: [execute] is looked up on a Number. *)
Example number_callee_raises :
  run 40 src_5_of_0 initial_heap
    = Raised (AttributeError "'Number' object has no attribute 'execute'").
Proof. reflexivity. Qed.

(** ** Arithmetic: the parser *)

Lemma Parser_init_at toks : Parser_init toks = parser_at toks 0.
Proof.
  unfold Parser_init, advance, parser_at. cbn.
  destruct toks; reflexivity.
Qed.

Lemma drop_lookup {A} (l : list A) i x rest : drop i l = x :: rest -> l !! i = Some x.
Proof.
  intros H. rewrite <- (Nat.add_0_r i), <- lookup_drop, H. reflexivity.
Qed.

Lemma drop_S_tail {A} (l : list A) i x rest : drop i l = x :: rest -> drop (S i) l = rest.
Proof.
  intros H. replace (S i) with (i + 1)%nat by lia.
  rewrite <- drop_drop, H. reflexivity.
Qed.

Lemma drop_after {A} (l : list A) i s rest :
  drop i l = s ++ rest -> drop (i + length s) l = rest.
Proof.
  intros H. rewrite <- drop_drop, H. apply drop_app_length.
Qed.

Lemma cur_at toks i tok rest :
  drop i toks = tok :: rest -> cur (parser_at toks i) = Done tok.
Proof. intros H. unfold cur, parser_at; cbn. now rewrite (drop_lookup _ _ _ _ H). Qed.

Lemma advance_at toks i tok rest :
  drop i toks = tok :: rest -> rest <> [] ->
  advance (parser_at toks i) = parser_at toks (S i).
Proof.
  intros H Hne. unfold advance, parser_at; cbn.
  assert (Hlen : (S i < length toks)%nat).
  { destruct rest as [| r rest]; [congruence |].
    apply (lookup_lt_Some _ _ r). eapply drop_lookup. eapply drop_S_tail. eassumption. }
  replace (Z.of_nat i + 1) with (Z.of_nat (S i)) by lia.
  destruct (Z.ltb_spec (Z.of_nat (S i)) (Z.of_nat (length toks))); [| lia].
  now rewrite Nat2Z.id.
Qed.

Lemma next_is_not_nonempty bad rest : next_is_not bad rest -> rest <> [].
Proof. destruct rest; [contradiction | discriminate]. Qed.

Lemma is_equals_false tok ty v : type_ tok <> ty -> is_equals tok ty v = false.
Proof. intros Hne. unfold is_equals. now rewrite (bool_decide_eq_false_2 _ Hne). Qed.

Lemma is_type_number n sp : is_type (number_token n sp) [t.INT; t.FLOAT] = true.
Proof. destruct n; reflexivity. Qed.

Section Steps.
Variable self : Production -> Parser -> ParseM.

Lemma bin_oper_loop_stop k fr ops res left_ toks i r0 rest :
  drop i toks = r0 :: rest ->
  is_operator r0 ops = false ->
  bin_oper_loop self (S k) fr ops res left_ (parser_at toks i) =
    Done (success res (Some left_), parser_at toks i).
Proof.
  intros Hd Hop. cbn. rewrite (cur_at _ _ _ _ Hd). cbn. now rewrite Hop.
Qed.

Lemma bin_oper_loop_step k fr ops a left_ toks i op s right_ rest :
  drop i toks = op :: s ++ rest ->
  rest <> [] ->
  is_operator op ops = true ->
  self fr (parser_at toks (S i)) = parsed toks (S i) s right_ ->
  bin_oper_loop self (S k) fr ops (mkParseResult None None a) left_ (parser_at toks i) =
    bin_oper_loop self k fr ops (mkParseResult None None (a + S (length s)))
      (BinOpNode_init left_ op right_) (parser_at toks (i + S (length s))).
Proof.
  intros Hd Hne Hop Hright. cbn. rewrite (cur_at _ _ _ _ Hd). cbn. rewrite Hop.
  rewrite (advance_at _ _ _ _ Hd) by (destruct s; [exact Hne | discriminate]).
  rewrite Hright. unfold parsed. cbn.
  same_up_to_arith.
Qed.

Lemma bin_oper_first k fl ops fr toks i s left_ :
  self fl (parser_at toks i) = parsed toks i s left_ ->
  bin_oper self k fl ops fr (parser_at toks i) =
    bin_oper_loop self k (default fl fr) ops (mkParseResult None None (length s))
      left_ (parser_at toks (i + length s)).
Proof. intros Hl. unfold bin_oper. rewrite Hl. reflexivity. Qed.

Lemma atom_number toks i n sp rest :
  drop i toks = number_token n sp :: rest -> rest <> [] ->
  atom self (parser_at toks i) =
    parsed toks i [number_token n sp] (NumberNode_init (number_token n sp)).
Proof.
  intros Hd Hne. unfold atom. rewrite (cur_at _ _ _ _ Hd). cbn.
  rewrite is_type_number. rewrite (advance_at _ _ _ _ Hd Hne).
  unfold parsed. cbn. same_up_to_arith.
Qed.

Lemma atom_paren toks i l s e r rest :
  drop i toks = sym t.L_PAREN l :: s ++ sym t.R_PAREN r :: rest -> rest <> [] ->
  self P_expr (parser_at toks (S i)) = parsed toks (S i) s e ->
  atom self (parser_at toks i) =
    parsed toks i (sym t.L_PAREN l :: s ++ [sym t.R_PAREN r]) e.
Proof.
  intros Hd Hne He. unfold atom. rewrite (cur_at _ _ _ _ Hd). cbn.
  rewrite (advance_at _ _ _ _ Hd) by (destruct s; discriminate).
  rewrite He. unfold parsed. cbn.
  assert (Hd' : drop (S (i + length s)) toks = sym t.R_PAREN r :: rest).
  { apply (drop_after _ (S i)). apply (drop_S_tail _ _ _ _ Hd). }
  rewrite (cur_at _ _ _ _ Hd'). cbn.
  rewrite (advance_at _ _ _ _ Hd' Hne). cbn.
  rewrite length_app. cbn. same_up_to_arith.
Qed.

Lemma call_plain k toks i s a rest :
  drop i toks = s ++ rest ->
  next_is_not [t.L_PAREN] rest ->
  self P_atom (parser_at toks i) = parsed toks i s a ->
  call self k (parser_at toks i) = parsed toks i s a.
Proof.
  intros Hd Hnext Ha. unfold call. rewrite Ha. unfold parsed. cbn.
  destruct rest as [| r0 rest]; [contradiction |].
  rewrite (cur_at _ _ _ _ (drop_after _ _ _ _ Hd)). cbn.
  cbn in Hnext. rewrite Hnext. reflexivity.
Qed.

Lemma factor_sign toks i op sp s f rest :
  drop i toks = add_token op sp :: s ++ rest -> rest <> [] ->
  self P_factor (parser_at toks (S i)) = parsed toks (S i) s f ->
  factor self (parser_at toks i) =
    parsed toks i (add_token op sp :: s) (UnaryOpNode_init (add_token op sp) f).
Proof.
  intros Hd Hne Hf. unfold factor. rewrite (cur_at _ _ _ _ Hd). cbn.
  replace (is_type (add_token op sp) [t.PLUS; t.MINUS]) with true
    by (destruct op; reflexivity).
  rewrite (advance_at _ _ _ _ Hd) by (destruct s; [exact Hne | discriminate]).
  rewrite Hf. unfold parsed. cbn. same_up_to_arith.
Qed.

Lemma factor_power toks i :
  starts_with [t.INT; t.FLOAT; t.L_PAREN] (drop i toks) ->
  factor self (parser_at toks i) = self P_power (parser_at toks i).
Proof.
  intros Hs. destruct (drop i toks) as [| hd tl] eqn:Hd; [contradiction |].
  unfold factor. rewrite (cur_at _ _ _ _ Hd). cbn.
  replace (is_type hd [t.PLUS; t.MINUS]) with false; [reflexivity |].
  clear Hd. destruct hd as [[] ? ? ?]; revert Hs; vm_compute; congruence.
Qed.
End Steps.

Lemma sum_ops_le e : (sum_ops e <= length (sum_tokens e))%nat.
Proof. induction e; cbn; [lia |]. rewrite length_app. cbn. lia. Qed.

Lemma term_ops_le tm : (term_ops tm <= length (term_tokens tm))%nat.
Proof. induction tm; cbn; [lia |]. rewrite length_app. cbn. lia. Qed.

Lemma starts_with_app tags s s' : starts_with tags s -> starts_with tags (s ++ s').
Proof. destruct s; [contradiction | exact id]. Qed.

Lemma starts_with_atom_factor s :
  starts_with first_of_atom s -> starts_with first_of_factor s.
Proof.
  destruct s as [| hd tl]; [contradiction |]. cbn. unfold is_type.
  destruct (type_ hd); vm_compute; congruence.
Qed.

Lemma first_tokens :
  (forall e, starts_with first_of_factor (sum_tokens e)) /\
  (forall tm, starts_with first_of_factor (term_tokens tm)) /\
  (forall f, starts_with first_of_factor (factor_tokens f)) /\
  (forall p, starts_with first_of_atom (power_tokens p)) /\
  (forall a, starts_with first_of_atom (atom_tokens a)).
Proof.
  apply arith_mutind; cbn [sum_tokens term_tokens factor_tokens power_tokens atom_tokens];
    intros; try assumption; try (now apply starts_with_app).
  - destruct op; reflexivity.
  - now apply starts_with_atom_factor.
  - destruct n; reflexivity.
  - reflexivity.
Qed.

(** Facts about the token after a phrase. *)
Lemma stop_facts r0 :
  is_type r0 stop_power = false ->
  is_type r0 [t.L_PAREN] = false /\ is_operator r0 [OpTag t.POW] = false.
Proof. destruct r0 as [[] ? ? ?]; vm_compute; intuition congruence. Qed.

Lemma stop_term_facts r0 :
  is_type r0 stop_term = false ->
  is_type r0 stop_power = false /\
  is_operator r0 [OpTag t.MUL; OpTag t.DIV] = false.
Proof. destruct r0 as [[] ? ? ?]; vm_compute; intuition congruence. Qed.

Lemma stop_sum_facts r0 :
  is_type r0 stop_sum = false ->
  is_type r0 stop_term = false /\
  is_operator r0 [OpTag t.PLUS; OpTag t.MINUS] = false.
Proof. destruct r0 as [[] ? ? ?]; vm_compute; intuition congruence. Qed.

Lemma stop_expr_facts r0 :
  is_type r0 stop_expr = false ->
  is_type r0 stop_sum = false /\
  is_operator r0 [OpTag t.EE; OpTag t.NE; OpTag t.LT; OpTag t.GT; OpTag t.LTE;
                  OpTag t.GTE] = false /\
  is_operator r0 [OpPair t.KW "and"; OpPair t.KW "or"] = false.
Proof. destruct r0 as [[] ? ? ?]; vm_compute; intuition congruence. Qed.

Lemma first_not_keyword hd v :
  is_type hd first_of_factor = true -> is_equals hd t.KW v = false.
Proof.
  intros H. apply is_equals_false. destruct hd as [[] ? ? ?]; revert H; vm_compute; congruence.
Qed.

Lemma term_of_chain tm :
  term_chain_ok tm -> production_ok P_term 4 stop_term (term_tokens tm) (term_node tm).
Proof.
  intros Hchain n toks i rest Hn Hd Hnext.
  destruct n as [| m]; [lia |]. cbn [parse_production]. unfold term.
  destruct rest as [| r0 rest]; [contradiction |]. cbn in Hnext.
  destruct (stop_term_facts _ Hnext) as [Hp Hop].
  rewrite (Hchain m m toks i (r0 :: rest)) by (first [lia | assumption]).
  pose proof (term_ops_le tm).
  destruct (m - term_ops tm)%nat as [| k] eqn:Hk; [lia |].
  rewrite (bin_oper_loop_stop _ _ _ _ _ _ _ _ _ _ (drop_after _ _ _ _ Hd) Hop).
  reflexivity.
Qed.

Lemma sum_of_chain e :
  sum_chain_ok e -> production_ok P_arith_expr 5 stop_sum (sum_tokens e) (sum_node e).
Proof.
  intros Hchain n toks i rest Hn Hd Hnext.
  destruct n as [| m]; [lia |]. cbn [parse_production]. unfold arith_expr.
  destruct rest as [| r0 rest]; [contradiction |]. cbn in Hnext.
  destruct (stop_sum_facts _ Hnext) as [Hp Hop].
  rewrite (Hchain m m toks i (r0 :: rest)) by (first [lia | assumption]).
  pose proof (sum_ops_le e).
  destruct (m - sum_ops e)%nat as [| k] eqn:Hk; [lia |].
  rewrite (bin_oper_loop_stop _ _ _ _ _ _ _ _ _ _ (drop_after _ _ _ _ Hd) Hop).
  reflexivity.
Qed.

Lemma comp_of_sum e :
  production_ok P_arith_expr 5 stop_sum (sum_tokens e) (sum_node e) ->
  production_ok P_comp_expr 6 stop_expr (sum_tokens e) (sum_node e).
Proof.
  intros Hsum n toks i rest Hn Hd Hnext.
  destruct n as [| m]; [lia |]. cbn [parse_production]. unfold comp_expr.
  pose proof (proj1 first_tokens e) as Hfirst.
  destruct (sum_tokens e) as [| hd tl] eqn:Htoks; [contradiction |].
  rewrite (cur_at _ _ _ _ Hd). cbn [mbind Outcome_bind].
  rewrite (first_not_keyword _ "not") by assumption.
  destruct rest as [| r0 rest]; [contradiction |]. cbn in Hnext.
  destruct (stop_expr_facts _ Hnext) as (Hs & Hcmp & _).
  rewrite <- Htoks in *.
  rewrite (bin_oper_first _ _ _ _ _ _ _ _ _ (Hsum m toks i (r0 :: rest) ltac:(lia) Hd Hs)).
  destruct m as [| k]; [lia |].
  rewrite (bin_oper_loop_stop _ _ _ _ _ _ _ _ _ _ (drop_after _ _ _ _ Hd) Hcmp).
  reflexivity.
Qed.

Lemma expr_of_comp e :
  production_ok P_comp_expr 6 stop_expr (sum_tokens e) (sum_node e) ->
  production_ok P_expr 7 stop_expr (sum_tokens e) (sum_node e).
Proof.
  intros Hcomp n toks i rest Hn Hd Hnext.
  destruct n as [| m]; [lia |]. cbn [parse_production]. unfold expr.
  pose proof (proj1 first_tokens e) as Hfirst.
  destruct (sum_tokens e) as [| hd tl] eqn:Htoks; [contradiction |].
  rewrite (cur_at _ _ _ _ Hd). cbn [mbind Outcome_bind].
  rewrite (first_not_keyword _ "let") by assumption.
  destruct rest as [| r0 rest]; [contradiction |]. cbn in Hnext.
  destruct (stop_expr_facts _ Hnext) as (_ & _ & Hlog).
  rewrite <- Htoks in *.
  rewrite (bin_oper_first _ _ _ _ _ _ _ _ _ (Hcomp m toks i (r0 :: rest) ltac:(lia) Hd Hnext)).
  destruct m as [| k]; [lia |].
  rewrite (bin_oper_loop_stop _ _ _ _ _ _ _ _ _ _ (drop_after _ _ _ _ Hd) Hlog).
  reflexivity.
Qed.

Lemma next_is_not_nil rest : rest <> [] -> next_is_not [] rest.
Proof. destruct rest; [congruence | reflexivity]. Qed.

Lemma call_of_atom a :
  production_ok P_atom 0 [] (atom_tokens a) (atom_node a) ->
  production_ok P_call 1 [t.L_PAREN] (atom_tokens a) (atom_node a).
Proof.
  intros Hatom n toks i rest Hn Hd Hnext.
  destruct n as [| m]; [lia |]. cbn [parse_production].
  apply (call_plain _ _ _ _ _ _ _ Hd Hnext).
  apply (Hatom m toks i rest); [lia | exact Hd |].
  apply next_is_not_nil. eapply next_is_not_nonempty, Hnext.
Qed.

Lemma next_is_not_cons bad tok rest :
  is_type tok bad = false -> next_is_not bad (tok :: rest).
Proof. exact id. Qed.

Lemma parser_reads_arithmetic :
  (forall e, sum_chain_ok e) /\
  (forall tm, term_chain_ok tm) /\
  (forall f, production_ok P_factor 3 stop_power (factor_tokens f) (factor_node f)) /\
  (forall p, production_ok P_power 2 stop_power (power_tokens p) (power_node p)) /\
  (forall a, production_ok P_atom 0 [] (atom_tokens a) (atom_node a)).
Proof.
  apply arith_mutind.
  - (* a sum that is one term *)
    intros tm IHtm n k toks i rest Hn Hd Hnext.
    cbn [sum_tokens sum_node sum_ops] in *.
    rewrite (bin_oper_first _ _ _ _ _ _ _ _ _
               (term_of_chain tm IHtm n toks i rest ltac:(lia) Hd Hnext)).
    rewrite Nat.sub_0_r. reflexivity.
  - (* a sum, an operator and a term *)
    intros e IHe op sp tm IHtm n k toks i rest Hn Hd Hnext.
    cbn [sum_tokens sum_node sum_ops] in *.
    rewrite length_app in *. cbn [length] in *.
    rewrite <- app_assoc in Hd. cbn [app] in Hd.
    rewrite (IHe n k toks i _ ltac:(lia) Hd)
      by (apply next_is_not_cons; destruct op; reflexivity).
    destruct (k - sum_ops e)%nat as [| k'] eqn:Hk.
    + replace (k - S (sum_ops e))%nat with 0%nat by lia. reflexivity.
    + pose proof (drop_after _ _ _ _ Hd) as Hd'.
      rewrite (bin_oper_loop_step _ _ _ _ _ _ _ _ _ _ (term_node tm) _ Hd'
                 (next_is_not_nonempty _ _ Hnext)).
      * same_up_to_arith.
      * destruct op; reflexivity.
      * apply (term_of_chain tm IHtm n toks _ rest); [lia | | exact Hnext].
        apply (drop_S_tail _ _ _ _ Hd').
  - (* a term that is one factor *)
    intros f IHf n k toks i rest Hn Hd Hnext.
    cbn [term_tokens term_node term_ops] in *.
    rewrite (bin_oper_first _ _ _ _ _ _ _ _ _ (IHf n toks i rest ltac:(lia) Hd Hnext)).
    rewrite Nat.sub_0_r. reflexivity.
  - (* a term, an operator and a factor *)
    intros tm IHtm op sp f IHf n k toks i rest Hn Hd Hnext.
    cbn [term_tokens term_node term_ops] in *.
    rewrite length_app in *. cbn [length] in *.
    rewrite <- app_assoc in Hd. cbn [app] in Hd.
    rewrite (IHtm n k toks i _ ltac:(lia) Hd)
      by (apply next_is_not_cons; destruct op; reflexivity).
    destruct (k - term_ops tm)%nat as [| k'] eqn:Hk.
    + replace (k - S (term_ops tm))%nat with 0%nat by lia. reflexivity.
    + pose proof (drop_after _ _ _ _ Hd) as Hd'.
      rewrite (bin_oper_loop_step _ _ _ _ _ _ _ _ _ _ (factor_node f) _ Hd'
                 (next_is_not_nonempty _ _ Hnext)).
      * same_up_to_arith.
      * destruct op; reflexivity.
      * apply (IHf n toks _ rest); [lia | | exact Hnext].
        apply (drop_S_tail _ _ _ _ Hd').
  - (* a signed factor *)
    intros op sp f IHf n toks i rest Hn Hd Hnext.
    cbn [factor_tokens factor_node length] in *.
    destruct n as [| m]; [lia |]. cbn [parse_production].
    apply (factor_sign _ _ _ _ _ _ _ rest Hd (next_is_not_nonempty _ _ Hnext)).
    apply (IHf m toks _ rest); [lia | | exact Hnext].
    apply (drop_S_tail _ _ _ _ Hd).
  - (* a factor that is a power *)
    intros p IHp n toks i rest Hn Hd Hnext.
    cbn [factor_tokens factor_node] in *.
    destruct n as [| m]; [lia |]. cbn [parse_production].
    rewrite factor_power
      by (rewrite Hd; apply starts_with_app, (proj1 (proj2 (proj2 (proj2 first_tokens))))).
    apply (IHp m toks i rest); [lia | exact Hd | exact Hnext].
  - (* a power that is an atom *)
    intros a IHa n toks i rest Hn Hd Hnext.
    cbn [power_tokens power_node] in *.
    destruct n as [| m]; [lia |]. cbn [parse_production]. unfold power.
    destruct rest as [| r0 rest]; [contradiction |]. cbn in Hnext.
    destruct (stop_facts _ Hnext) as [Hparen Hpow].
    rewrite (bin_oper_first _ _ _ _ _ _ _ _ _
               (call_of_atom a IHa m toks i (r0 :: rest) ltac:(lia) Hd Hparen)).
    destruct m as [| k]; [lia |].
    rewrite (bin_oper_loop_stop _ _ _ _ _ _ _ _ _ _ (drop_after _ _ _ _ Hd) Hpow).
    reflexivity.
  - (* a base, [^] and the exponent *)
    intros a IHa sp f IHf n toks i rest Hn Hd Hnext.
    cbn [power_tokens power_node] in *.
    rewrite length_app in *. cbn [length] in *.
    rewrite <- app_assoc in Hd. cbn [app] in Hd.
    destruct n as [| m]; [lia |]. cbn [parse_production]. unfold power.
    rewrite (bin_oper_first _ _ _ _ _ _ _ _ _
               (call_of_atom a IHa m toks i _ ltac:(lia) Hd
                  (next_is_not_cons [t.L_PAREN] (sym t.POW sp) _ eq_refl))).
    pose proof (drop_after _ _ _ _ Hd) as Hd'.
    destruct m as [| k]; [lia |].
    rewrite (bin_oper_loop_step _ _ _ _ _ _ _ _ _ _ (factor_node f) _ Hd'
               (next_is_not_nonempty _ _ Hnext)).
    + destruct k as [| k]; [lia |].
      destruct rest as [| r0 rest]; [contradiction |]. cbn in Hnext.
      destruct (stop_facts _ Hnext) as [_ Hpow].
      assert (Hd'' : drop (i + length (atom_tokens a) + S (length (factor_tokens f))) toks
                     = r0 :: rest).
      { apply (drop_after _ _ (sym t.POW sp :: factor_tokens f)). exact Hd'. }
      rewrite (bin_oper_loop_stop _ _ _ _ _ _ _ _ _ _ Hd'' Hpow).
      unfold parsed, success. cbn. rewrite length_app. cbn. same_up_to_arith.
    + reflexivity.
    + apply (IHf (S k) toks _ rest); [lia | | exact Hnext].
      apply (drop_S_tail _ _ _ _ Hd').
  - (* a number *)
    intros n sp fuel toks i rest Hn Hd Hnext.
    cbn [atom_tokens atom_node length] in *.
    destruct fuel as [| m]; [lia |]. cbn [parse_production].
    apply (atom_number _ _ _ _ _ rest Hd (next_is_not_nonempty _ _ Hnext)).
  - (* a sum in parentheses *)
    intros l e IHe r n toks i rest Hn Hd Hnext.
    cbn [atom_tokens atom_node length] in *.
    rewrite length_app in *. cbn [length] in *.
    destruct n as [| m]; [lia |]. cbn [parse_production].
    cbn [app] in Hd. rewrite <- app_assoc in Hd. cbn [app] in Hd.
    apply (atom_paren _ _ _ _ _ _ _ rest Hd (next_is_not_nonempty _ _ Hnext)).
    apply (expr_of_comp e (comp_of_sum e (sum_of_chain e IHe)) m toks (S i)
             (sym t.R_PAREN r :: rest)); [lia | | reflexivity].
    apply (drop_S_tail _ _ _ _ Hd).
Qed.

Lemma make_ast_arithmetic e eof fuel :
  is_type eof [t.EOF; t.NEWLINE] = true ->
  (8 * length (sum_tokens e) + 7 <= fuel)%nat ->
  make_ast fuel (sum_tokens e ++ [eof]) = Done (Some (sum_node e), None).
Proof.
  intros Heof Hfuel. unfold make_ast, parse. rewrite Parser_init_at.
  assert (Hstop : next_is_not stop_expr [eof]).
  { cbn. destruct eof as [[] ? ? ?]; revert Heof; vm_compute; congruence. }
  rewrite (expr_of_comp e (comp_of_sum e (sum_of_chain e (proj1 parser_reads_arithmetic e)))
             fuel (sum_tokens e ++ [eof]) 0%nat [eof] Hfuel eq_refl Hstop).
  unfold parsed. cbn.
  rewrite (cur_at _ _ eof []) by apply drop_app_length.
  cbn. rewrite Heof. reflexivity.
Qed.

(** ** Evaluating the tree of an arithmetic phrase *)

Lemma binop_dispatch_arith sp l r :
  binop_dispatch (sym t.PLUS sp) l r = operate_plus l r /\
  binop_dispatch (sym t.MINUS sp) l r = operate_minus l r /\
  binop_dispatch (sym t.MUL sp) l r = operate_mul l r /\
  binop_dispatch (sym t.DIV sp) l r = operate_div l r /\
  binop_dispatch (sym t.POW sp) l r = operate_pow l r.
Proof. repeat split. Qed.

Lemma dispatch_add op sp : dispatch_agrees (add_token op sp) (add_op op).
Proof.
  intros x y p1 p2 q1 q2 ctx.
  destruct (binop_dispatch_arith sp (Number x p1 p2 (Some ctx)) (Number y q1 q2 (Some ctx)))
    as (Hplus & Hminus & _).
  destruct op; unfold add_token, add_op, aop; [rewrite Hplus | rewrite Hminus];
    unfold operate_plus, operate_minus, number_method, arith.
  - destruct (py_add x y); reflexivity.
  - destruct (py_sub x y); reflexivity.
Qed.

Lemma dispatch_mul op sp : dispatch_agrees (mul_token op sp) (mul_op op).
Proof.
  intros x y p1 p2 q1 q2 ctx.
  destruct (binop_dispatch_arith sp (Number x p1 p2 (Some ctx)) (Number y q1 q2 (Some ctx)))
    as (_ & _ & Hmul & Hdiv & _).
  destruct op; unfold mul_token, mul_op, adiv, aop; [rewrite Hmul | rewrite Hdiv];
    unfold operate_mul, operate_div, number_method, arith.
  - destruct (py_mul x y); reflexivity.
  - destruct (py_is_zero y); [do 2 eexists; reflexivity |].
    destruct (py_truediv x y); reflexivity.
Qed.

Lemma dispatch_pow sp : dispatch_agrees (sym t.POW sp) (aop py_pow).
Proof.
  intros x y p1 p2 q1 q2 ctx.
  destruct (binop_dispatch_arith sp (Number x p1 p2 (Some ctx)) (Number y q1 q2 (Some ctx)))
    as (_ & _ & _ & _ & Hpow).
  rewrite Hpow. unfold aop, operate_pow, number_method, arith.
  destruct (py_pow x y); reflexivity.
Qed.

Lemma binop_agrees n l oper r a b f ctx h :
  agrees a l ctx h (visit n l ctx h) ->
  agrees b r ctx h (visit n r ctx h) ->
  dispatch_agrees oper f ->
  agrees (abind a (fun x => abind b (fun y => f x y))) (BinOpNode_init l oper r) ctx h
    (visit (S n) (BinOpNode_init l oper r) ctx h).
Proof.
  intros Hl Hr Hf. cbn [visit BinOpNode_init]. unfold visit_BinOpNode.
  destruct a as [[x |] | ex |]; cbn in Hl |- *.
  - rewrite Hl. cbn.
    destruct b as [[y |] | ex |]; cbn in Hr |- *.
    + rewrite Hr. cbn. specialize (Hf x y (node_pos_start l) (node_pos_end l)
                                     (node_pos_start r) (node_pos_end r) ctx).
      destruct (f x y) as [[v |] | ex |]; cbn.
      * rewrite Hf. reflexivity.
      * destruct Hf as (ps & pe & ->). cbn. do 2 eexists. reflexivity.
      * rewrite Hf. reflexivity.
      * rewrite Hf. reflexivity.
    + destruct Hr as (ps & pe & ->). cbn. do 2 eexists. reflexivity.
    + rewrite Hr. reflexivity.
    + rewrite Hr. reflexivity.
  - destruct Hl as (ps & pe & ->). cbn. do 2 eexists. reflexivity.
  - rewrite Hl. reflexivity.
  - rewrite Hl. reflexivity.
Qed.

Lemma sign_agrees n op sp nd a ctx h :
  agrees a nd ctx h (visit n nd ctx h) ->
  agrees (abind a (sign_op op)) (UnaryOpNode_init (add_token op sp) nd) ctx h
    (visit (S n) (UnaryOpNode_init (add_token op sp) nd) ctx h).
Proof.
  intros Ha. cbn [visit UnaryOpNode_init]. unfold visit_UnaryOpNode.
  destruct a as [[x |] | ex |]; cbn in Ha |- *.
  - rewrite Ha. destruct op; cbn; [reflexivity |].
    unfold aop, arith. destruct (py_mul x (PInt (-1))); reflexivity.
  - destruct Ha as (ps & pe & ->). cbn. do 2 eexists. reflexivity.
  - rewrite Ha. reflexivity.
  - rewrite Ha. reflexivity.
Qed.

Lemma visit_arithmetic :
  (forall e fuel ctx h, (length (sum_tokens e) <= fuel)%nat ->
     agrees (sum_value e) (sum_node e) ctx h (visit fuel (sum_node e) ctx h)) /\
  (forall tm fuel ctx h, (length (term_tokens tm) <= fuel)%nat ->
     agrees (term_value tm) (term_node tm) ctx h (visit fuel (term_node tm) ctx h)) /\
  (forall f fuel ctx h, (length (factor_tokens f) <= fuel)%nat ->
     agrees (factor_value f) (factor_node f) ctx h (visit fuel (factor_node f) ctx h)) /\
  (forall p fuel ctx h, (length (power_tokens p) <= fuel)%nat ->
     agrees (power_value p) (power_node p) ctx h (visit fuel (power_node p) ctx h)) /\
  (forall a fuel ctx h, (length (atom_tokens a) <= fuel)%nat ->
     agrees (atom_value a) (atom_node a) ctx h (visit fuel (atom_node a) ctx h)).
Proof.
  apply arith_mutind.
  - intros tm IH fuel ctx h Hfuel. apply IH, Hfuel.
  - intros e IHe op sp tm IHtm fuel ctx h Hfuel.
    cbn [sum_tokens sum_node sum_value] in *. rewrite length_app in Hfuel. cbn in Hfuel.
    destruct fuel as [| n]; [lia |].
    apply binop_agrees; [apply IHe; lia | apply IHtm; lia | apply dispatch_add].
  - intros f IH fuel ctx h Hfuel. apply IH, Hfuel.
  - intros tm IHtm op sp f IHf fuel ctx h Hfuel.
    cbn [term_tokens term_node term_value] in *. rewrite length_app in Hfuel. cbn in Hfuel.
    destruct fuel as [| n]; [lia |].
    apply binop_agrees; [apply IHtm; lia | apply IHf; lia | apply dispatch_mul].
  - intros op sp f IHf fuel ctx h Hfuel.
    cbn [factor_tokens factor_node factor_value length] in *.
    destruct fuel as [| n]; [lia |].
    apply sign_agrees, IHf. lia.
  - intros p IH fuel ctx h Hfuel. apply IH, Hfuel.
  - intros a IH fuel ctx h Hfuel. apply IH, Hfuel.
  - intros a IHa sp f IHf fuel ctx h Hfuel.
    cbn [power_tokens power_node power_value] in *. rewrite length_app in Hfuel. cbn in Hfuel.
    destruct fuel as [| n]; [lia |].
    apply binop_agrees; [apply IHa; lia | apply IHf; lia | apply dispatch_pow].
  - intros n sp fuel ctx h Hfuel. cbn in Hfuel.
    destruct fuel as [| m]; [lia |]. reflexivity.
  - intros l e IHe r fuel ctx h Hfuel.
    cbn [atom_tokens atom_node atom_value length] in *. rewrite length_app in Hfuel.
    apply IHe. lia.
Qed.

Lemma run_arithmetic e eof fuel h :
  is_type eof [t.EOF; t.NEWLINE] = true ->
  (8 * length (sum_tokens e) + 7 <= fuel)%nat ->
  run_agrees (sum_value e) (sum_node e) h (run fuel (sum_tokens e ++ [eof]) h).
Proof.
  intros Heof Hfuel. unfold run. rewrite (make_ast_arithmetic e eof fuel Heof Hfuel).
  cbn. unfold interpret.
  pose proof (proj1 visit_arithmetic e fuel module_context h ltac:(lia)) as Hv.
  fold module_context.
  destruct (sum_value e) as [[v |] | ex |]; cbn in Hv |- *.
  - rewrite Hv. reflexivity.
  - destruct Hv as (ps & pe & ->). do 2 eexists. reflexivity.
  - rewrite Hv. reflexivity.
  - rewrite Hv. reflexivity.
Qed.


(** C2: for every arithmetic phrase [e] (number literals, [+ - * / ^],
    signs and parentheses), the parser turns its tokens into the tree
    [sum_node e], in which products are operands of sums, chains of
    [+ - * /] nest to the left and [^] nests to the right, and running the
    tokens gives the value of [e] in ordinary arithmetic.  [2 + 3 * 4]
    runs to 14 and [2 ^ 3 ^ 2] to 512. *)
Theorem arithmetic_respects_precedence :
  (forall (e : ASum) (eof : Span) (fuel : nat) (h : Heap),
     let toks := sum_tokens e ++ [sym t.EOF eof] in
     (8 * length toks <= fuel)%nat ->
     make_ast fuel toks = Done (Some (sum_node e), None) /\
     run_agrees (sum_value e) (sum_node e) h (run fuel toks h)) /\
  (sum_tokens sum_2_plus_3_times_4 ++ [sym t.EOF (span_at 5)] = src_2_plus_3_times_4 /\
   sum_value sum_2_plus_3_times_4 = Done (AValue (PInt 14)) /\
   exists ps pe c h,
     run 48 src_2_plus_3_times_4 initial_heap
       = Done (RunValue (Number (PInt 14) ps pe c), h)) /\
  (sum_tokens sum_2_pow_3_pow_2 ++ [sym t.EOF (span_at 5)] = src_2_pow_3_pow_2 /\
   sum_value sum_2_pow_3_pow_2 = Done (AValue (PInt 512)) /\
   exists ps pe c h,
     run 48 src_2_pow_3_pow_2 initial_heap
       = Done (RunValue (Number (PInt 512) ps pe c), h)).
Proof.
  split; [| split].
  - intros e eof fuel h toks Hfuel. subst toks.
    rewrite length_app in Hfuel. cbn in Hfuel. split.
    + apply make_ast_arithmetic; [reflexivity | lia].
    + apply run_arithmetic; [reflexivity | lia].
  - repeat split. vm_compute. do 4 eexists. reflexivity.
  - repeat split. vm_compute. do 4 eexists. reflexivity.
Qed.

(* ===================================================================== *)
(** * What a visit changes in the heap *)
(* ===================================================================== *)

Lemma writes_only_refl s h : writes_only s h h.
Proof.
  split; [lia |]. split; [reflexivity |].
  intros m Hm. exists m. split; [assumption |]. split; [reflexivity | auto].
Qed.

Lemma writes_only_trans s h1 h2 h3 :
  writes_only s h1 h2 -> writes_only s h2 h3 -> writes_only s h1 h3.
Proof.
  intros (L1 & O1 & S1) (L2 & O2 & S2). split; [lia |]. split.
  - intros i Hi Hne. rewrite O2 by (lia || assumption). now apply O1.
  - intros m Hm. destruct (S1 _ Hm) as (m2 & Hm2 & P2 & D2).
    destruct (S2 _ Hm2) as (m3 & Hm3 & P3 & D3).
    exists m3. split; [assumption |]. split; [congruence | auto].
Qed.

Lemma SymbolMap_set_writes h s x v h' :
  SymbolMap_set h s x v = Done h' -> writes_only s h h'.
Proof.
  unfold SymbolMap_set. destruct (h !! s) as [m |] eqn:Hm; [| discriminate].
  intros [= <-]. split; [now rewrite length_insert |]. split.
  - intros i _ Hne. now rewrite list_lookup_insert_ne.
  - intros m0 Hm0. rewrite Hm in Hm0. injection Hm0 as <-.
    eexists. split.
    + apply list_lookup_insert_eq. now apply lookup_lt_Some in Hm.
    + split; [reflexivity |]. cbn. intros y Hy.
      destruct (decide (x = y)) as [-> |].
      * rewrite lookup_insert_eq. eauto.
      * now rewrite lookup_insert_ne.
Qed.

Lemma prefix_writes s (h h' : Heap) :
  h `prefix_of` h' -> writes_only s h h'.
Proof.
  intros [k ->]. split; [rewrite length_app; lia |]. split.
  - intros i Hi _. now rewrite lookup_app_l.
  - intros m Hm. exists m. split.
    + rewrite lookup_app_l; [assumption | now apply lookup_lt_Some in Hm].
    + split; [reflexivity | auto].
Qed.

Lemma writes_new_prefix (h : Heap) m h' :
  writes_only (length h) (h ++ [m]) h' -> h `prefix_of` h'.
Proof.
  intros (L & O & _). rewrite length_app in L. cbn in L.
  exists (drop (length h) h').
  apply list_eq. intros i.
  destruct (decide (i < length h)%nat) as [Hi | Hi].
  - rewrite lookup_app_l by assumption.
    rewrite O; [| rewrite length_app; cbn; lia | lia].
    now rewrite lookup_app_l.
  - rewrite lookup_app_r by lia. rewrite lookup_drop.
    f_equal. lia.
Qed.

(** ** The frame of each method *)

Lemma visit_arguments_writes (V : Node -> Context -> Heap -> EvalM) ctx :
  (forall nd h r h', V nd ctx h = Done (r, h') -> writes_only (ctx_symbol_map ctx) h h') ->
  forall arguments acc h a h',
    visit_arguments V arguments acc ctx h = Done (a, h') ->
    writes_only (ctx_symbol_map ctx) h h'.
Proof.
  intros HV. induction arguments as [| nd rest IH]; intros acc h a h' H; cbn in H.
  - injection H as <- <-. apply writes_only_refl.
  - destruct (V nd ctx h) as [[r h1] | |] eqn:E; cbn in H; try discriminate.
    apply HV in E. destruct r.
    + eapply writes_only_trans; [exact E |]. eapply IH, H.
    + injection H as <- <-. exact E.
Qed.

Lemma bind_parameters_writes scope parameters : forall args h h',
  bind_parameters h scope parameters args = Done h' -> writes_only scope h h'.
Proof.
  induction parameters as [| p ps IH]; intros [| a args] h h' H; cbn in H;
    try (injection H as <-; apply writes_only_refl).
  destruct (SymbolMap_set h scope (tok_name p) a) as [h1 | |] eqn:E; cbn in H; try discriminate.
  eapply writes_only_trans; [eapply SymbolMap_set_writes, E | eapply IH, H].
Qed.

Lemma execute_appends (V : Node -> Context -> Heap -> EvalM) :
  (forall nd ctx h r h', V nd ctx h = Done (r, h') -> writes_only (ctx_symbol_map ctx) h h') ->
  forall f args h r h',
    execute V f args h = Done (r, h') -> h `prefix_of` h'.
Proof.
  intros HV f args h r h' H. destruct f as [| | name params body ps pe [fctx |]]; try discriminate.
  cbn in H.
  destruct (negb _) in H.
  - injection H as <- <-. now exists [mkSymbolMap ∅ (Some (ctx_symbol_map fctx))].
  - destruct (bind_parameters _ _ _ _) as [h1 | |] eqn:E1; cbn in H; try discriminate.
    apply bind_parameters_writes in E1.
    destruct (V body _ h1) as [[r2 h2] | |] eqn:E2; cbn in H; try discriminate.
    apply HV in E2. cbn in E2.
    assert (h' = h2) as -> by (destruct r2; now injection H).
    eapply writes_new_prefix. eapply writes_only_trans; eassumption.
Qed.

Lemma visit_writes fuel : forall nd ctx h r h',
  visit fuel nd ctx h = Done (r, h') -> writes_only (ctx_symbol_map ctx) h h'.
Proof.
  induction fuel as [| n IH]; intros nd ctx h r h' H; [discriminate |].
  destruct nd; cbn in H.
  - unfold visit_NumberNode in H. destruct (tok_value tok); try discriminate.
    injection H as <- <-. apply writes_only_refl.
  - unfold visit_LiteralNode in H.
    repeat (destruct (value_is _ _) in H; [injection H as <- <-; apply writes_only_refl |]).
    discriminate.
  - unfold visit_BinOpNode in H.
    destruct (visit n nd1 ctx h) as [[r1 h1] | |] eqn:E1; cbn in H; try discriminate.
    apply IH in E1. destruct r1 as [l | e]; [| injection H as <- <-; exact E1].
    destruct (visit n nd2 ctx h1) as [[r2 h2] | |] eqn:E2; cbn in H; try discriminate.
    apply IH in E2. pose proof (writes_only_trans _ _ _ _ E1 E2) as E.
    destruct r2 as [r_ | e]; [| injection H as <- <-; exact E].
    destruct (binop_dispatch oper l r_) as [[res err] | |]; cbn in H; try discriminate.
    destruct err; [injection H as <- <-; exact E |].
    destruct res; cbn in H; try discriminate. injection H as <- <-; exact E.
  - unfold visit_UnaryOpNode in H.
    destruct (visit n nd ctx h) as [[r1 h1] | |] eqn:E1; cbn in H; try discriminate.
    apply IH in E1. destruct r1 as [l | e]; [| injection H as <- <-; exact E1].
    match type of H with context [mbind _ ?m] => destruct m as [[res err] | |] end;
      cbn in H; try discriminate.
    destruct err; [injection H as <- <-; exact E1 |].
    destruct res; cbn in H; try discriminate. injection H as <- <-; exact E1.
  - unfold visit_VarAccessNode in H.
    destruct (not_value _) in H; [injection H as <- <-; apply writes_only_refl |].
    destruct (SymbolMap_get _ _ _); cbn in H; try discriminate.
    injection H as <- <-; apply writes_only_refl.
  - unfold visit_VarAssignNode in H.
    destruct (visit n nd ctx h) as [[r1 h1] | |] eqn:E1; cbn in H; try discriminate.
    apply IH in E1. destruct r1 as [v | e]; [| injection H as <- <-; exact E1].
    destruct (SymbolMap_set _ _ _ _) as [h2 | |] eqn:E2; cbn in H; try discriminate.
    injection H as <- <-. eapply writes_only_trans; [exact E1 | eapply SymbolMap_set_writes, E2].
  - unfold visit_IfBlockNode in H.
    destruct (visit n (fst case) ctx h) as [[r1 h1] | |] eqn:E1; cbn in H; try discriminate.
    apply IH in E1. destruct r1 as [v | e]; [| injection H as <- <-; exact E1].
    match type of H with context [mbind _ ?m] => destruct m as [[r2 h2] | |] eqn:E2 end;
      cbn in H; try discriminate.
    assert (writes_only (ctx_symbol_map ctx) h1 h2) as E
      by (destruct (truth _) in E2; eapply IH, E2).
    assert (h' = h2) as -> by (destruct r2; now injection H).
    eapply writes_only_trans; eassumption.
  - unfold visit_FuncDefNode in H.
    destruct (SymbolMap_set _ _ _ _) as [h2 | |] eqn:E2; cbn in H; try discriminate.
    injection H as <- <-. eapply SymbolMap_set_writes, E2.
  - unfold visit_FuncCallNode in H.
    destruct (visit n nd ctx h) as [[r1 h1] | |] eqn:E1; cbn in H; try discriminate.
    apply IH in E1. destruct r1 as [v | e]; [| injection H as <- <-; exact E1].
    destruct (visit_arguments _ _ _ _ _) as [[a h2] | |] eqn:E2; cbn in H; try discriminate.
    apply visit_arguments_writes in E2; [| intros; eapply IH; eassumption].
    pose proof (writes_only_trans _ _ _ _ E1 E2) as E.
    destruct a as [e | args]; [injection H as <- <-; exact E |].
    destruct (execute _ _ _ _) as [[r3 h3] | |] eqn:E3; cbn in H; try discriminate.
    apply execute_appends in E3; [| exact IH].
    assert (h' = h3) as -> by (destruct r3; now injection H).
    eapply writes_only_trans; [exact E |]. now apply prefix_writes.
Qed.

(** X1: evaluating a node never frees a scope and changes no scope that
    existed before other than the scope of the context it runs in; that
    scope keeps its parent and every name it bound.  So a [let] or a [fun]
    always writes to the current scope, and whatever a called function
    does stays in the scopes its calls create. *)
Theorem visit_writes_only_current_scope fuel nd ctx h r h' :
  visit fuel nd ctx h = Done (r, h') ->
  (length h <= length h')%nat /\
  (forall i, (i < length h)%nat -> i <> ctx_symbol_map ctx -> h' !! i = h !! i) /\
  (forall m, h !! ctx_symbol_map ctx = Some m ->
     exists m', h' !! ctx_symbol_map ctx = Some m' /\
       sm_parent m' = sm_parent m /\
       forall x, is_Some (sm_symbol_map m !! x) -> is_Some (sm_symbol_map m' !! x)).
Proof. intros H. exact (visit_writes _ _ _ _ _ _ H). Qed.

(** X2: [Function.execute] only adds scopes: the heap it leaves starts
    with the heap it was called in, unchanged.  A function body cannot
    rebind a variable of its caller or of the scope it was defined in. *)
Theorem execute_only_adds_scopes fuel f args h r h' :
  execute (visit fuel) f args h = Done (r, h') -> h `prefix_of` h'.
Proof.
  intros H. eapply execute_appends; [| exact H].
  intros nd ctx h0 r0 h0' H0. eapply visit_writes, H0.
Qed.

(** ** The scopes stay well-founded *)

Lemma closure_ok_mono n n' v : (n <= n')%nat -> closure_ok n v -> closure_ok n' v.
Proof. destruct v as [| | ? ? ? ? ? [c |]]; cbn; auto. lia. Qed.

Lemma plain_closure_ok n v : plain v -> closure_ok n v.
Proof. now destruct v. Qed.

Lemma closure_ok_set_pos n v ps pe : closure_ok n v -> closure_ok n (set_pos v ps pe).
Proof. now destruct v. Qed.

Lemma heap_ok_set h s x v h' :
  heap_ok h -> closure_ok (length h) v ->
  SymbolMap_set h s x v = Done h' -> heap_ok h'.
Proof.
  intros [Hp Hv] Hc. unfold SymbolMap_set.
  destruct (h !! s) as [m |] eqn:Hm; [| discriminate]. intros [= <-].
  pose proof (lookup_lt_Some _ _ _ Hm) as Hlt.
  split.
  - intros i m' p Hi Hpar. destruct (decide (i = s)) as [-> |].
    + rewrite list_lookup_insert_eq in Hi by assumption. injection Hi as <-.
      cbn in Hpar. eapply Hp; eassumption.
    + rewrite list_lookup_insert_ne in Hi by congruence. eapply Hp; eassumption.
  - rewrite length_insert. intros i m' y w Hi Hy. destruct (decide (i = s)) as [-> |].
    + rewrite list_lookup_insert_eq in Hi by assumption. injection Hi as <-.
      cbn in Hy. destruct (decide (x = y)) as [-> |].
      * rewrite lookup_insert_eq in Hy. now injection Hy as <-.
      * rewrite lookup_insert_ne in Hy by assumption. eapply Hv; eassumption.
    + rewrite list_lookup_insert_ne in Hi by congruence. eapply Hv; eassumption.
Qed.

Lemma heap_ok_new_scope h p :
  heap_ok h -> (p < length h)%nat -> heap_ok (h ++ [mkSymbolMap ∅ (Some p)]).
Proof.
  intros [Hp Hv] Hlt. split.
  - intros i m q Hi Hpar. apply lookup_app_Some in Hi as [Hi | [Hge Hi]].
    + eapply Hp; eassumption.
    + apply list_lookup_singleton_Some in Hi as [Hi <-]. cbn in Hpar.
      injection Hpar as <-. lia.
  - rewrite length_app. intros i m y w Hi Hy.
    apply lookup_app_Some in Hi as [Hi | [Hge Hi]].
    + eapply closure_ok_mono; [| eapply Hv; eassumption]. lia.
    + apply list_lookup_singleton_Some in Hi as [Hi <-]. cbn in Hy.
      now rewrite lookup_empty in Hy.
Qed.

Lemma SymbolMap_set_length h s x v h' :
  SymbolMap_set h s x v = Done h' -> length h' = length h.
Proof.
  unfold SymbolMap_set. destruct (h !! s); [| discriminate].
  intros [= <-]. apply length_insert.
Qed.

Lemma heap_ok_bind scope parameters : forall args h h',
  heap_ok h -> Forall (closure_ok (length h)) args ->
  bind_parameters h scope parameters args = Done h' ->
  heap_ok h' /\ length h' = length h.
Proof.
  induction parameters as [| p ps IH]; intros [| a args] h h' Hh Ha H; cbn in H;
    try (injection H as <-; now split).
  destruct (SymbolMap_set h scope (tok_name p) a) as [h1 | |] eqn:E; cbn in H; try discriminate.
  apply Forall_cons in Ha as [Ha Hargs].
  pose proof (SymbolMap_set_length _ _ _ _ _ E) as Hlen.
  destruct (IH args h1 h') as [Hk Hl]; try assumption.
  - eapply heap_ok_set; eassumption.
  - now rewrite Hlen.
  - split; [assumption | congruence].
Qed.

Lemma SymbolMap_get_from_stored n h x : forall s v,
  SymbolMap_get_from n h s x = Some v ->
  exists i m, h !! i = Some m /\ sm_symbol_map m !! x = Some v.
Proof.
  induction n as [| n IH]; intros s v H; [discriminate |]. cbn in H.
  destruct (h !! s) as [m |] eqn:Hm; [| discriminate].
  destruct (sm_symbol_map m !! x) as [w |] eqn:Hx.
  - injection H as <-. eauto.
  - destruct (sm_parent m); [| discriminate]. eapply IH, H.
Qed.

Lemma number_method_plain op fb l r_ v err :
  (forall x y w, op x y = Done w -> plain w) ->
  (forall a b, fst (fb a b) = None) ->
  number_method op fb l r_ = Done (Some v, err) -> plain v.
Proof.
  intros Hop Hfb H. unfold number_method in H.
  assert (Hno : fb l r_ = (Some v, err) -> plain v).
  { intros E. specialize (Hfb l r_). rewrite E in Hfb. discriminate. }
  destruct l as [x ps pe c | |]; try (injection H as H; now apply Hno).
  destruct r_ as [y ps' pe' c' | |]; try (injection H as H; now apply Hno).
  destruct (op x y) as [w | |] eqn:E; cbn in H; try discriminate.
  injection H as <- _. apply Hop in E. now destruct w.
Qed.

Lemma arith_plain f x y w : arith f x y = Done w -> plain w.
Proof. unfold arith. destruct (f x y); cbn; try discriminate. now intros [= <-]. Qed.

Lemma compare_plain op x y w : compare op x y = Done w -> plain w.
Proof. unfold compare. destruct (py_compare op x y); cbn; try discriminate. now intros [= <-]. Qed.

Lemma binop_dispatch_plain oper l r_ v err :
  binop_dispatch oper l r_ = Done (Some v, err) -> plain v.
Proof.
  unfold binop_dispatch.
  repeat match goal with
         | |- context [if ?b then _ else _] => destruct b
         end;
    try discriminate;
    try (apply number_method_plain;
         [first [apply arith_plain | apply compare_plain] | reflexivity]).
  - unfold operate_div. destruct l as [x ps pe c | |]; try discriminate.
    destruct r_ as [y ps' pe' c' | |]; try discriminate.
    destruct (py_is_zero y); try discriminate.
    destruct (py_truediv x y); cbn; try discriminate. now intros [= <- _].
  - unfold logic_and. destruct l as [x ps pe c | b ps pe c |]; try discriminate.
    + destruct r_ as [y ps' pe' c' | |]; try discriminate.
      unfold bool_of_int_of. destruct (py_int _); cbn; try discriminate. now intros [= <- _].
    + match goal with |- context [mbind _ ?m] => destruct m end; cbn; try discriminate.
      now intros [= <- _].
  - unfold logic_or. destruct l as [x ps pe c | b ps pe c |]; try discriminate.
    + destruct r_ as [y ps' pe' c' | |]; try discriminate.
      unfold bool_of_int_of. destruct (py_int _); cbn; try discriminate. now intros [= <- _].
    + match goal with |- context [mbind _ ?m] => destruct m end; cbn; try discriminate.
      now intros [= <- _].
Qed.

Lemma unary_dispatch_ok oper number n v err :
  closure_ok n number ->
  (if is_type oper [t.MINUS] then operate_mul number (Number_init (PInt (-1)))
   else if is_equals oper t.KW "not" then unpack_pair (logic_not number)
   else Done (Some number, None)) = Done (Some v, err) ->
  closure_ok n v.
Proof.
  intros Hn. destruct (is_type oper [t.MINUS]).
  - intros H. apply plain_closure_ok.
    eapply number_method_plain in H; [exact H | apply arith_plain | reflexivity].
  - destruct (is_equals oper t.KW "not").
    + destruct number; cbn; try discriminate. now intros [= <- _].
    + now intros [= <- _].
Qed.

Lemma visit_length fuel nd ctx h r h' :
  visit fuel nd ctx h = Done (r, h') -> (length h <= length h')%nat.
Proof. intros H. now apply visit_writes in H as [L _]. Qed.

Lemma visit_arguments_ok (V : Node -> Context -> Heap -> EvalM) ctx :
  (forall nd h r h', heap_ok h -> V nd ctx h = Done (r, h') ->
     heap_ok h' /\ result_ok h' r /\ (length h <= length h')%nat) ->
  forall arguments acc h a h',
    heap_ok h -> Forall (closure_ok (length h)) acc ->
    visit_arguments V arguments acc ctx h = Done (a, h') ->
    heap_ok h' /\ (length h <= length h')%nat /\ 
    (match a with
     | inl _ => True
     | inr args => Forall (closure_ok (length h')) args
     end).
Proof.
  intros HV. induction arguments as [| nd rest IH]; intros acc h a h' Hh Hacc H; cbn in H.
  - injection H as <- <-. auto.
  - destruct (V nd ctx h) as [[r h1] | |] eqn:E; cbn in H; try discriminate.
    apply HV in E as (Hh1 & Hr & Hl); [| assumption]. destruct r as [v | e].
    + apply IH in H as (? & ? & ?); [split; [assumption | split; [lia | assumption]] | assumption |].
      apply Forall_app. split.
      * eapply Forall_impl; [exact Hacc |]. intros w. now apply closure_ok_mono.
      * constructor; [exact Hr | constructor].
    + injection H as <- <-. auto.
Qed.

Lemma visit_ok fuel : forall nd ctx h r h',
  heap_ok h -> visit fuel nd ctx h = Done (r, h') -> heap_ok h' /\ result_ok h' r.
Proof.
  induction fuel as [| n IH]; intros nd ctx h r h' Hh H; [discriminate |].
  assert (IH' : forall nd ctx h r h', heap_ok h -> visit n nd ctx h = Done (r, h') ->
                  heap_ok h' /\ result_ok h' r /\ (length h <= length h')%nat).
  { intros ? ? ? ? ? ? E. destruct (IH _ _ _ _ _ H0 E).
    split; [assumption | split; [assumption | eapply visit_length, E]]. }
  clear IH.
  destruct nd as [tok ps pe | tok ps pe | l oper r_ ps pe | oper operand ps pe
                 | var ps pe | var value ps pe | case else_ ps pe
                 | name params body ps pe | callee arguments ps pe]; cbn in H.
  - unfold visit_NumberNode in H. destruct (tok_value tok); try discriminate.
    injection H as <- <-. now split.
  - unfold visit_LiteralNode in H.
    repeat (destruct (value_is _ _) in H; [injection H as <- <-; now split |]).
    discriminate.
  - unfold visit_BinOpNode in H.
    destruct (visit n l ctx h) as [[r1 h1] | |] eqn:E1; cbn in H; try discriminate.
    apply IH' in E1 as (H1 & R1 & L1); [| assumption].
    destruct r1 as [lv | e]; [| injection H as <- <-; now split].
    destruct (visit n r_ ctx h1) as [[r2 h2] | |] eqn:E2; cbn in H; try discriminate.
    apply IH' in E2 as (H2 & R2 & L2); [| assumption].
    destruct r2 as [rv | e]; [| injection H as <- <-; now split].
    destruct (binop_dispatch oper lv rv) as [[res err] | |] eqn:E3; cbn in H; try discriminate.
    destruct err; [injection H as <- <-; now split |].
    destruct res as [v |]; cbn in H; try discriminate. injection H as <- <-.
    split; [assumption |]. cbn. apply closure_ok_set_pos, plain_closure_ok.
    eapply binop_dispatch_plain, E3.
  - unfold visit_UnaryOpNode in H.
    destruct (visit n operand ctx h) as [[r1 h1] | |] eqn:E1; cbn in H; try discriminate.
    apply IH' in E1 as (H1 & R1 & L1); [| assumption].
    destruct r1 as [number | e]; [| injection H as <- <-; now split].
    match type of H with context [mbind _ ?m] => destruct m as [[res err] | |] eqn:E3 end;
      cbn in H; try discriminate.
    destruct err; [injection H as <- <-; now split |].
    destruct res as [v |]; cbn in H; try discriminate. injection H as <- <-.
    split; [assumption |]. cbn. apply closure_ok_set_pos.
    eapply unary_dispatch_ok; [exact R1 | exact E3].
  - unfold visit_VarAccessNode in H.
    destruct (not_value _) in H; [injection H as <- <-; now split |].
    destruct (SymbolMap_get _ _ _) as [v |] eqn:G; cbn in H; try discriminate.
    injection H as <- <-. split; [assumption |]. cbn. apply closure_ok_set_pos.
    apply SymbolMap_get_from_stored in G as (i & m & Hi & Hx).
    destruct Hh as [_ Hv]. eapply Hv; eassumption.
  - unfold visit_VarAssignNode in H.
    destruct (visit n value ctx h) as [[r1 h1] | |] eqn:E1; cbn in H; try discriminate.
    apply IH' in E1 as (H1 & R1 & L1); [| assumption].
    destruct r1 as [v | e]; [| injection H as <- <-; now split].
    destruct (SymbolMap_set _ _ _ _) as [h2 | |] eqn:E2; cbn in H; try discriminate.
    injection H as <- <-. split.
    + eapply heap_ok_set; eassumption.
    + cbn. rewrite (SymbolMap_set_length _ _ _ _ _ E2). exact R1.
  - unfold visit_IfBlockNode in H.
    destruct (visit n (fst case) ctx h) as [[r1 h1] | |] eqn:E1; cbn in H; try discriminate.
    apply IH' in E1 as (H1 & R1 & L1); [| assumption].
    destruct r1 as [v | e]; [| injection H as <- <-; now split].
    match type of H with context [mbind _ ?m] => destruct m as [[r2 h2] | |] eqn:E2 end;
      cbn in H; try discriminate.
    assert (heap_ok h2 /\ result_ok h2 r2) as [H2 R2].
    { destruct (truth _) in E2; apply IH' in E2 as (? & ? & ?); auto. }
    destruct r2; injection H as <- <-; now split.
  - unfold visit_FuncDefNode in H.
    destruct (SymbolMap_set _ _ _ _) as [h2 | |] eqn:E2; cbn in H; try discriminate.
    injection H as <- <-.
    assert (Hs : (ctx_symbol_map ctx < length h)%nat).
    { unfold SymbolMap_set in E2. destruct (h !! ctx_symbol_map ctx) eqn:Hm; [| discriminate].
      eapply lookup_lt_Some, Hm. }
    split.
    + eapply heap_ok_set; [exact Hh | | exact E2]. exact Hs.
    + cbn. now rewrite (SymbolMap_set_length _ _ _ _ _ E2).
  - unfold visit_FuncCallNode in H.
    destruct (visit n callee ctx h) as [[r1 h1] | |] eqn:E1; cbn in H; try discriminate.
    apply IH' in E1 as (H1 & R1 & L1); [| assumption].
    destruct r1 as [f | e]; [| injection H as <- <-; now split].
    destruct (visit_arguments _ _ _ _ _) as [[a h2] | |] eqn:E2; cbn in H; try discriminate.
    apply visit_arguments_ok in E2 as (H2 & L2 & A2); [| intros; eapply IH'; eassumption | assumption | constructor].
    destruct a as [e | args]; [injection H as <- <-; now split |].
    destruct (execute _ _ _ _) as [[r3 h3] | |] eqn:E3; cbn in H; try discriminate.
    assert (heap_ok h3 /\ result_ok h3 r3) as [H3 R3].
    { clear H. destruct f as [| | name params body fps fpe [fctx |]]; try discriminate.
      cbn in E3. cbn in R1.
      assert (Hnew : heap_ok (h2 ++ [mkSymbolMap ∅ (Some (ctx_symbol_map fctx))])).
      { apply heap_ok_new_scope; [assumption | lia]. }
      destruct (negb _) in E3.
      - injection E3 as <- <-. now split.
      - destruct (bind_parameters _ _ _ _) as [hb | |] eqn:Eb; cbn in E3; try discriminate.
        apply heap_ok_bind in Eb as [Hb Lb]; [| assumption |].
        + destruct (visit n body _ hb) as [[r4 h4] | |] eqn:E4; cbn in E3; try discriminate.
          apply IH' in E4 as (H4 & R4 & L4); [| assumption].
          destruct r4; injection E3 as <- <-; now split.
        + eapply Forall_impl; [exact A2 |]. intros w. apply closure_ok_mono.
          rewrite length_app. lia. }
    destruct r3; injection H as <- <-; now split.
Qed.

Lemma heap_ok_initial : heap_ok initial_heap.
Proof.
  split.
  - intros [| i] m p Hm Hp; [| discriminate]. injection Hm as <-. discriminate.
  - intros [| i] m x v Hm Hx; [| discriminate]. injection Hm as <-.
    cbn in Hx. now rewrite lookup_empty in Hx.
Qed.

Lemma parents_older_two_scopes : parents_older two_scopes.
Proof.
  intros [| [| i]] m p Hm Hp; try discriminate; injection Hm as <-;
    cbn in Hp; [discriminate | injection Hp as <-; lia].
Qed.

(** X3: the interpreter keeps the scopes well-founded: if every parent is
    older than its scope and every stored Function closes over a scope of
    the heap, the same holds after evaluating any node, and for the value
    it returns.  (So a lookup, which walks from a scope to its parents,
    ends, and the scope a call creates has a parent that exists.) *)
Theorem visit_keeps_scopes_well_founded fuel nd ctx h r h' :
  heap_ok h ->
  visit fuel nd ctx h = Done (r, h') ->
  heap_ok h' /\ result_ok h' r.
Proof. intros Hh H. exact (visit_ok _ _ _ _ _ _ Hh H). Qed.

(** X23: [run] keeps the scopes well-founded, frees no scope and changes
    no existing scope other than the global one; a program with a syntax
    error is not evaluated and leaves every scope as it was.  So the
    definitions of a session accumulate in the global scope. *)
Theorem run_keeps_scopes fuel toks h r h' :
  heap_ok h ->
  run fuel toks h = Done (r, h') ->
  heap_ok h' /\
  (length h <= length h')%nat /\
  (forall i, (0 < i < length h)%nat -> h' !! i = h !! i) /\
  (forall e, r = RunSyntaxError e -> h' = h).
Proof.
  intros Hh H. unfold run in H.
  destruct (make_ast fuel toks) as [[nd [e |]] | |]; cbn in H; try discriminate.
  - injection H as <- <-. split; [exact Hh |]. split; [lia |]. split; reflexivity.
  - destruct nd as [nd |]; cbn in H; try discriminate. unfold interpret in H.
    destruct (visit fuel nd _ h) as [[r0 h0] | |] eqn:E; cbn in H; try discriminate.
    assert (h' = h0) as -> by (destruct r0; now injection H).
    destruct (visit_writes _ _ _ _ _ _ E) as (L & O & _).
    destruct (visit_ok _ _ _ _ _ _ Hh E) as [Hh' _].
    split; [exact Hh' |]. split; [exact L |]. split.
    + intros i Hi. apply O; [lia |]. cbn. unfold GLOBAL_SYMBOL_MAP. lia.
    + intros e ->. destruct r0; discriminate.
Qed.

(* ===================================================================== *)
(** * SymbolMap: get, set and remove *)
(* ===================================================================== *)

Lemma SymbolMap_set_get h s x v h' :
  SymbolMap_set h s x v = Done h' -> SymbolMap_get h' s x = Some v.
Proof.
  intros H. unfold SymbolMap_get. rewrite (SymbolMap_set_length _ _ _ _ _ H).
  unfold SymbolMap_set in H. destruct (h !! s) as [m |] eqn:Hm; [| discriminate].
  injection H as <-. pose proof (lookup_lt_Some _ _ _ Hm) as Hlt.
  destruct (length h) as [| n] eqn:Hn; [lia |]. cbn.
  rewrite list_lookup_insert_eq by lia. cbn. now rewrite lookup_insert_eq.
Qed.

Lemma SymbolMap_get_from_other n h s x v h' y :
  SymbolMap_set h s x v = Done h' -> y <> x ->
  forall s', SymbolMap_get_from n h' s' y = SymbolMap_get_from n h s' y.
Proof.
  unfold SymbolMap_set. destruct (h !! s) as [m |] eqn:Hm; [| discriminate].
  intros [= <-] Hne. pose proof (lookup_lt_Some _ _ _ Hm) as Hlt.
  induction n as [| n IH]; intros s'; [reflexivity |]. cbn.
  destruct (decide (s' = s)) as [-> |].
  - rewrite list_lookup_insert_eq by assumption. rewrite Hm. cbn.
    rewrite lookup_insert_ne by congruence.
    destruct (sm_symbol_map m !! y); [reflexivity |].
    destruct (sm_parent m); [apply IH | reflexivity].
  - rewrite list_lookup_insert_ne by congruence.
    destruct (h !! s') as [m' |]; [| reflexivity].
    destruct (sm_symbol_map m' !! y); [reflexivity |].
    destruct (sm_parent m'); [apply IH | reflexivity].
Qed.

(** X4: after [set(x, v)] on a scope, [get(x)] on that scope is [v]; the
    lookup of any other name, from any scope, is what it was; and every
    other scope is untouched. *)
Theorem set_then_get h s x v h' :
  SymbolMap_set h s x v = Done h' ->
  SymbolMap_get h' s x = Some v /\
  (forall s' y, y <> x -> SymbolMap_get h' s' y = SymbolMap_get h s' y) /\
  (forall s', s' <> s -> h' !! s' = h !! s').
Proof.
  intros H. split; [| split].
  - eapply SymbolMap_set_get, H.
  - intros s' y Hne. unfold SymbolMap_get. rewrite (SymbolMap_set_length _ _ _ _ _ H).
    eapply SymbolMap_get_from_other; eassumption.
  - intros s' Hne. unfold SymbolMap_set in H. destruct (h !! s); [| discriminate].
    injection H as <-. now rewrite list_lookup_insert_ne.
Qed.

(** X5: in a well-founded heap [get] is the recursion the source writes:
    the scope's own binding if it has one, otherwise what the parent
    answers, otherwise nothing.  An inner binding shadows an outer one, and
    the bound on the walk in [SymbolMap_get] is never what ends it. *)
Theorem get_walks_the_parents h s m x :
  parents_older h -> h !! s = Some m ->
  SymbolMap_get h s x =
    match sm_symbol_map m !! x with
    | Some value => Some value
    | None =>
        match sm_parent m with
        | Some parent => SymbolMap_get h parent x
        | None => None
        end
    end.
Proof.
  intros Hwf Hm. pose proof (lookup_lt_Some _ _ _ Hm) as Hlt.
  unfold SymbolMap_get. destruct (length h) as [| n] eqn:Hn; [lia |].
  cbn. rewrite Hm. destruct (sm_symbol_map m !! x); [reflexivity |].
  destruct (sm_parent m) as [p |] eqn:Hp; [| reflexivity].
  pose proof (Hwf _ _ _ Hm Hp).
  change (SymbolMap_get_from n h p x = SymbolMap_get_from (S n) h p x).
  apply SymbolMap_get_from_enough; [assumption | lia | lia].
Qed.

(** X6: [remove] of a name the scope does not bind raises [KeyError]
    (the parents are not consulted); [set] followed by [remove] of a name
    that was unbound gives the heap back; [remove] of a bound name unbinds
    it in that scope and leaves the scope's other names alone. *)
Theorem remove_needs_binding h s m x :
  h !! s = Some m ->
  (sm_symbol_map m !! x = None -> SymbolMap_remove h s x = Raised (KeyError x)) /\
  (forall v, sm_symbol_map m !! x = None ->
     exists h', SymbolMap_set h s x v = Done h' /\ SymbolMap_remove h' s x = Done h) /\
  (forall v, sm_symbol_map m !! x = Some v ->
     exists h', SymbolMap_remove h s x = Done h' /\
       bindings h' s !! x = None /\
       (forall y, y <> x -> bindings h' s !! y = bindings h s !! y)).
Proof.
  intros Hm. pose proof (lookup_lt_Some _ _ _ Hm) as Hlt. split; [| split].
  - intros Hx. unfold SymbolMap_remove. now rewrite Hm, Hx.
  - intros v Hx. unfold SymbolMap_set. rewrite Hm. eexists. split; [reflexivity |].
    unfold SymbolMap_remove. rewrite list_lookup_insert_eq by assumption. cbn.
    rewrite lookup_insert_eq. rewrite list_insert_insert_eq.
    rewrite delete_insert_id by assumption.
    f_equal. apply list_insert_id. now destruct m.
  - intros v Hx. unfold SymbolMap_remove. rewrite Hm, Hx. eexists. split; [reflexivity |].
    unfold bindings. rewrite list_lookup_insert_eq by assumption. cbn. rewrite Hm.
    split; [apply lookup_delete_eq |]. intros y Hne. now apply lookup_delete_ne.
Qed.

Lemma SymbolMap_get_from_app h k x :
  parents_older h ->
  forall n s, (s < length h)%nat ->
    SymbolMap_get_from n (h ++ k) s x = SymbolMap_get_from n h s x.
Proof.
  intros Hwf. induction n as [| n IH]; intros s Hs; [reflexivity |]. cbn.
  rewrite lookup_app_l by assumption.
  destruct (h !! s) as [m |] eqn:Hm; [| reflexivity].
  destruct (sm_symbol_map m !! x); [reflexivity |].
  destruct (sm_parent m) as [p |] eqn:Hp; [| reflexivity].
  pose proof (Hwf _ _ _ Hm Hp). apply IH. lia.
Qed.

(** X22: scoping is lexical.  In the scope [execute] creates for a call, a
    name is looked up among the parameters first and then in the scope the
    function was defined in, with that scope's own parents: the scopes of
    the caller play no part, and a parameter shadows an outer binding of
    the same name. *)
Theorem call_scope_is_lexical h fctx parameters args x :
  parents_older h ->
  (ctx_symbol_map fctx < length h)%nat ->
  SymbolMap_get (h ++ [call_scope fctx parameters args]) (length h) x =
    match bind_all parameters args ∅ !! x with
    | Some value => Some value
    | None => SymbolMap_get h (ctx_symbol_map fctx) x
    end.
Proof.
  intros Hwf Hs. unfold SymbolMap_get. rewrite length_app. cbn [length].
  replace (length h + 1)%nat with (S (length h)) by lia. cbn [SymbolMap_get_from].
  rewrite list_lookup_middle by reflexivity. cbn [call_scope sm_symbol_map sm_parent].
  destruct (bind_all parameters args ∅ !! x); [reflexivity |].
  now apply SymbolMap_get_from_app.
Qed.

(** ** Variables *)

(** X7: after [let x = e] gave the value [v], the access [x] in the same
    context gives [v] with the span of the access when [v] is truthy, and
    the error ['x' not defined] when [v] is falsy (a zero or [false]). *)
Theorem let_then_access fuel var e ps pe ctx h v h' :
  visit fuel (VarAssignNode var e ps pe) ctx h = Done (Success v, h') ->
  forall fuel' ps' pe',
    visit (S fuel') (VarAccessNode var ps' pe') ctx h' =
      Done (if truth v then Success (set_pos v ps' pe')
            else Failure (mkRTError ps' pe' ("'" ++ tok_name var ++ "' not defined")
                            (Some ctx)), h').
Proof.
  destruct fuel as [| n]; [discriminate |]. cbn. unfold visit_VarAssignNode.
  destruct (visit n e ctx h) as [[[w | err] h1] | |]; cbn; try discriminate.
  destruct (SymbolMap_set _ _ _ _) as [h2 | |] eqn:E; cbn; try discriminate.
  intros [= -> ->]. apply SymbolMap_set_get in E.
  intros fuel' ps' pe'. unfold visit_VarAccessNode. rewrite E. cbn.
  now destruct (truth v).
Qed.

(** ** Binding the parameters *)

Lemma bindings_set h s x v h' :
  SymbolMap_set h s x v = Done h' ->
  bindings h' s = <[x := v]> (bindings h s).
Proof.
  unfold SymbolMap_set, bindings. destruct (h !! s) as [m |] eqn:Hm; [| discriminate].
  intros [= <-]. rewrite list_lookup_insert_eq by (eapply lookup_lt_Some, Hm).
  reflexivity.
Qed.

Lemma bind_parameters_other scope x parameters : forall args h h',
  bind_parameters h scope parameters args = Done h' ->
  (forall j q, (j < length args)%nat -> parameters !! j = Some q -> tok_name q <> x) ->
  bindings h' scope !! x = bindings h scope !! x.
Proof.
  induction parameters as [| p ps IH]; intros [| a args] h h' H Hne; cbn in H;
    try (now injection H as <-).
  destruct (SymbolMap_set h scope (tok_name p) a) as [h1 | |] eqn:E; cbn in H; try discriminate.
  rewrite (IH _ _ _ H).
  - rewrite (bindings_set _ _ _ _ _ E). apply lookup_insert_ne.
    apply (Hne 0%nat p); [cbn; lia | reflexivity].
  - intros j q Hj Hq. apply (Hne (S j) q); [cbn; lia | exact Hq].
Qed.

(** X8: the loop of [execute] binds by position: the name of the [i]-th
    parameter is bound to the [i]-th argument, unless a later parameter
    has the same name (then the later one wins). *)
Theorem parameters_bound_by_position scope parameters : forall args h h' i p a,
  bind_parameters h scope parameters args = Done h' ->
  parameters !! i = Some p -> args !! i = Some a ->
  (forall j q, (i < j < length args)%nat -> parameters !! j = Some q ->
     tok_name q <> tok_name p) ->
  bindings h' scope !! tok_name p = Some a.
Proof.
  induction parameters as [| p0 ps IH]; intros [| a0 args] h h' i p a H Hp Ha Hlater;
    try discriminate.
  cbn in H.
  destruct (SymbolMap_set h scope (tok_name p0) a0) as [h1 | |] eqn:E; cbn in H; try discriminate.
  destruct i as [| i]; cbn in Hp, Ha.
  - injection Hp as ->. injection Ha as ->.
    rewrite (bind_parameters_other _ _ _ _ _ _ H).
    + rewrite (bindings_set _ _ _ _ _ E). apply lookup_insert_eq.
    + intros j q Hj Hq. apply (Hlater (S j) q); [cbn; lia | exact Hq].
  - eapply IH; try eassumption.
    intros j q Hj Hq. apply (Hlater (S j) q); [cbn; lia | exact Hq].
Qed.

(** ** Operators *)

Lemma binop_dispatch_not_numbers oper text l r_ :
  operator_text (type_ oper) = Some text ->
  is_number l && is_number r_ = false ->
  binop_dispatch oper l r_ = Done (None, Some (not_supported l text r_)).
Proof.
  intros Ht Hn. destruct oper as [ty val ps pe]. cbn in Ht.
  destruct ty; try discriminate; injection Ht as <-;
    destruct l, r_; try discriminate; reflexivity.
Qed.

(** X9: an arithmetic or comparison operator whose operands are not both
    Numbers fails with [<left type> does not support <operator> with
    <right type>], stamped with the span of the operation and carrying the
    context of the left operand.  That includes [true == true] and
    [true + 1]: a Bool supports no operator but [and], [or] and [not]. *)
Theorem operator_needs_numbers fuel left_node oper right_node ps pe ctx h l h1 r_ h2 text :
  visit fuel left_node ctx h = Done (Success l, h1) ->
  visit fuel right_node ctx h1 = Done (Success r_, h2) ->
  operator_text (type_ oper) = Some text ->
  is_number l && is_number r_ = false ->
  visit (S fuel) (BinOpNode left_node oper right_node ps pe) ctx h =
    Done (Failure (mkRTError ps pe
                     (type_name l ++ " does not support " ++ text ++ " with "
                        ++ type_name r_)
                     (value_context l)), h2).
Proof.
  intros Hl Hr Ht Hn. cbn. unfold visit_BinOpNode. rewrite Hl. cbn. rewrite Hr. cbn.
  now rewrite (binop_dispatch_not_numbers _ _ _ _ Ht Hn).
Qed.

(** X10: the value of a unary [+] is its operand's, with the span of the
    node, whatever its class.  Python's [set_pos] re-stamps the operand's
    object itself, so where that object is also bound in a scope, as after
    [+ (let x = 5)], the binding shows the new span too; values here carry
    no identity, and the statement is about the value returned, not about
    the store.  A unary [-] on an int gives its negation, a new Number, and
    leaves the store as the operand left it; on a value that is no Number
    it fails with the error of a multiplication
    ([... does not support * operator with Number]), which keeps the span
    of the operand. *)
Theorem unary_sign fuel oper operand ps pe ctx h v h1 :
  visit fuel operand ctx h = Done (Success v, h1) ->
  let node := UnaryOpNode oper operand ps pe in
  (type_ oper = t.PLUS ->
   exists h', visit (S fuel) node ctx h = Done (Success (set_pos v ps pe), h')) /\
  (type_ oper = t.MINUS ->
   (forall z vps vpe c, v = Number (PInt z) vps vpe c ->
      visit (S fuel) node ctx h = Done (Success (Number (PInt (- z)) ps pe c), h1)) /\
   (is_number v = false ->
      visit (S fuel) node ctx h =
        Done (Failure (mkRTError (value_pos_start v) (value_pos_end v)
                         (type_name v ++ " does not support * operator with Number")
                         (value_context v)), h1))).
Proof.
  intros Hv node. split; [| intros Hty; split].
  - intros Hty. exists h1. cbn. unfold visit_UnaryOpNode. rewrite Hv. cbn.
    unfold is_type, is_equals. rewrite Hty. cbn.
    rewrite bool_decide_eq_false_2 by (intros ?%list_elem_of_singleton; discriminate).
    reflexivity.
  - intros z vps vpe c ->. cbn. unfold visit_UnaryOpNode. rewrite Hv. cbn.
    unfold is_type. rewrite Hty. cbn.
    rewrite bool_decide_eq_true_2 by (apply list_elem_of_singleton; reflexivity).
    replace (- z) with (z * -1) by lia. reflexivity.
  - intros Hn. cbn. unfold visit_UnaryOpNode. rewrite Hv. cbn.
    unfold is_type. rewrite Hty. cbn.
    rewrite bool_decide_eq_true_2 by (apply list_elem_of_singleton; reflexivity).
    destruct v; try discriminate; reflexivity.
Qed.

(** X11: a call whose callee evaluates to a Number or a Bool raises
    [AttributeError] (no RTError is returned), and only after every
    argument was evaluated. *)
Theorem call_of_non_function fuel callee arguments ps pe ctx h v h1 vs h2 :
  visit fuel callee ctx h = Done (Success v, h1) ->
  plain v ->
  eval_args (visit fuel) ctx h1 arguments vs h2 ->
  visit (S fuel) (FuncCallNode callee arguments ps pe) ctx h =
    Raised (AttributeError ("'" ++ type_name v ++ "' object has no attribute 'execute'")).
Proof.
  intros Hc Hv Hargs. cbn. unfold visit_FuncCallNode. rewrite Hc. cbn.
  rewrite (visit_arguments_all _ _ _ _ _ _ Hargs). cbn.
  destruct v; [reflexivity | reflexivity | contradiction].
Qed.

(** X12: each comparison operator computes its own relation on two ints:
    [==] equality, [!=] its negation, [<], [>], [<=], [>=] the orders, the
    left operand on the left.  The result is a Bool with the span of the
    operation and the context of the left operand. *)
Theorem comparison_of_ints fuel left_node op sp right_node ps pe ctx h
    x lps lpe lc h1 y rps rpe rc h2 :
  visit fuel left_node ctx h = Done (Success (Number (PInt x) lps lpe lc), h1) ->
  visit fuel right_node ctx h1 = Done (Success (Number (PInt y) rps rpe rc), h2) ->
  exists b,
    visit (S fuel) (BinOpNode left_node (cmp_token op sp) right_node ps pe) ctx h =
      Done (Success (Bool b ps pe lc), h2) /\
    (b = true <-> int_relation op x y).
Proof.
  intros Hl Hr.
  exists match op with
         | CmpEq => x =? y
         | CmpNe => negb (x =? y)
         | CmpLt => x <? y
         | CmpGt => y <? x
         | CmpLe => x <=? y
         | CmpGe => y <=? x
         end.
  split.
  - cbn [visit]. unfold visit_BinOpNode. rewrite Hl. cbn [mbind Outcome_bind].
    rewrite Hr. cbn [mbind Outcome_bind].
    assert (Hb : binop_dispatch (cmp_token op sp) (Number (PInt x) lps lpe lc)
                   (Number (PInt y) rps rpe rc)
                 = Done (Some (Bool match op with
                                    | CmpEq => x =? y
                                    | CmpNe => negb (x =? y)
                                    | CmpLt => x <? y
                                    | CmpGt => y <? x
                                    | CmpLe => x <=? y
                                    | CmpGe => y <=? x
                                    end None None lc), None))
      by (destruct op; reflexivity).
    rewrite Hb. reflexivity.
  - destruct op; cbn [int_relation].
    + apply Z.eqb_eq.
    + rewrite negb_true_iff. apply Z.eqb_neq.
    + apply Z.ltb_lt.
    + rewrite Z.ltb_lt. lia.
    + apply Z.leb_le.
    + rewrite Z.leb_le. lia.
Qed.

(* ===================================================================== *)
(** * The parser returns on every token list that ends with EOF *)
(* ===================================================================== *)

Lemma ends_with_eof_split toks :
  ends_with_eof toks -> exists body eof, toks = body ++ [eof] /\ type_ eof = t.EOF.
Proof.
  unfold ends_with_eof. destruct (last toks) as [eof |] eqn:Hl; [| contradiction].
  intros Heof. apply last_Some in Hl as [body ->]. eauto.
Qed.

Lemma level_le prod : (level prod <= 8)%nat.
Proof. destruct prod; cbn; lia. Qed.

Lemma cur_in toks i tok : toks !! i = Some tok -> cur (parser_at toks i) = Done tok.
Proof. intros H. unfold cur, parser_at. cbn. now rewrite H. Qed.

Lemma advance_in toks i tok :
  ends_with_eof toks -> toks !! i = Some tok -> type_ tok <> t.EOF ->
  advance (parser_at toks i) = parser_at toks (S i) /\ (S i < length toks)%nat.
Proof.
  intros (body & eof & -> & Heof)%ends_with_eof_split Hi Hne.
  assert (Hlt : (S i < length (body ++ [eof]))%nat).
  { pose proof (lookup_lt_Some _ _ _ Hi) as Hlt. rewrite length_app in *. cbn in *.
    destruct (decide (i = length body)) as [-> |]; [| lia].
    rewrite list_lookup_middle in Hi by reflexivity. injection Hi as <-. contradiction. }
  split; [| assumption].
  unfold advance, parser_at. cbn.
  replace (Z.of_nat i + 1) with (Z.of_nat (S i)) by lia.
  destruct (Z.ltb_spec (Z.of_nat (S i)) (Z.of_nat (length (body ++ [eof])))); [| lia].
  now rewrite Nat2Z.id.
Qed.

Lemma is_type_not_eof tok tags :
  is_type tok tags = true -> t.EOF ∉ tags -> type_ tok <> t.EOF.
Proof.
  unfold is_type. intros H Hn Heq. apply bool_decide_eq_true in H. now rewrite Heq in H.
Qed.

Lemma is_equals_not_eof tok v : is_equals tok t.KW v = true -> type_ tok <> t.EOF.
Proof.
  unfold is_equals. intros H Heq. rewrite Heq in H. discriminate.
Qed.

Lemma returns_weaken toks i i' m :
  (i' <= i)%nat -> returns toks i m -> returns toks i' m.
Proof.
  intros Hle (res & j & -> & Hj & Hok). exists res, j. split; [reflexivity |].
  split; [lia |]. intros He. destruct (Hok He). split; [assumption | lia].
Qed.

(** The token a production advances over is not EOF. *)
Ltac no_eof :=
  first [ eapply is_equals_not_eof; eassumption
        | eapply is_type_not_eof; [eassumption | vm_compute; intros H; inversion H; subst;
            repeat match goal with H : _ ∈ _ |- _ => inversion H; clear H; subst end ] ].

(** Reduce the bookkeeping of [ParseResult] and the sequencing. *)
Ltac red_res :=
  cbn [mbind Outcome_bind register has_error success failure register_adv error node
       advancements ParseResult_init fst snd negb need default].

(** Close a branch that returns. *)
Ltac finish :=
  eexists _, _; split; [reflexivity |]; split; [lia |]; red_res;
  first [ intros; discriminate | intros; split; [eauto | lia] ].

Lemma ops_not_eof ops :
  Forall (fun o => match o with OpTag ty => ty <> t.EOF | OpPair ty _ => ty <> t.EOF end) ops ->
  forall tok, is_operator tok ops = true -> type_ tok <> t.EOF.
Proof.
  intros Hall tok H Heq. unfold is_operator in H. apply existsb_exists in H as (o & Hin & Ho).
  rewrite Forall_forall in Hall. specialize (Hall o ltac:(now apply list_elem_of_In)).
  destruct o as [ty | ty v].
  - apply bool_decide_eq_true in Ho. congruence.
  - unfold is_equals in Ho. apply andb_true_iff in Ho as [Ho _].
    apply bool_decide_eq_true in Ho. congruence.
Qed.

Ltac ops_ok := apply ops_not_eof; repeat constructor; discriminate.

(** ** Each production returns, given that the calls it makes do *)

Section Returns.
Variable toks : list Token.
Hypothesis Heof : ends_with_eof toks.
Variable self : Production -> Parser -> ParseM.
Variable n : nat.
Hypothesis Hself : returns_from toks n self.

Ltac at_tok j tok H :=
  destruct (lookup_lt_is_Some_2 toks j ltac:(lia)) as [tok H];
  rewrite (cur_in _ _ _ H); red_res.

Ltac adv H :=
  let L := fresh "Hlt" in
  destruct (advance_in toks _ _ Heof H ltac:(no_eof)) as [-> L].

Ltac sub prod H res j Hj Hok :=
  let E := fresh "E" in
  destruct (Hself prod _ _ H ltac:(cbn [level]; lia) ltac:(cbn [level]; try discriminate; intros _; no_eof))
    as (res & j & E & Hj & Hok);
  rewrite E; clear E; red_res.

Lemma atom_returns i tok :
  toks !! i = Some tok -> (10 * (length toks - i) + 1 <= S n)%nat ->
  returns toks i (atom self (parser_at toks i)).
Proof.
  intros Hi Hn. pose proof (lookup_lt_Some _ _ _ Hi) as Hlen.
  unfold atom. rewrite (cur_in _ _ _ Hi). red_res.
  destruct (is_type tok [t.INT; t.FLOAT]) eqn:H1; [adv Hi; finish |].
  destruct (is_type tok [t.LITERAL]) eqn:H2; [adv Hi; finish |].
  destruct (is_type tok [t.L_PAREN]) eqn:H3.
  { adv Hi. destruct (lookup_lt_is_Some_2 toks (S i) ltac:(lia)) as [tok1 Ht1].
    sub P_expr Ht1 res j Hj Hok.
    destruct (error res) eqn:He; red_res; [finish |].
    destruct Hok as [[nd Hnd] Hp]; [reflexivity |]. rewrite Hnd.
    at_tok j tokj Htj.
    destruct (is_type tokj [t.R_PAREN]) eqn:H4; [adv Htj; finish | finish]. }
  destruct (is_type tok [t.IDENTIFIER]) eqn:H4; [adv Hi; finish |].
  destruct (is_equals tok t.KW "if") eqn:H5.
  { sub P_if_expr Hi res j Hj Hok.
    destruct (error res) eqn:He; red_res; [finish |].
    destruct Hok as [[nd Hnd] Hp]; [reflexivity |]. rewrite Hnd. finish. }
  destruct (is_equals tok t.KW "fun") eqn:H6.
  { sub P_func_def Hi res j Hj Hok.
    destruct (error res) eqn:He; red_res; [finish |].
    destruct Hok as [[nd Hnd] Hp]; [reflexivity |]. rewrite Hnd. finish. }
  finish.
Qed.

Lemma factor_returns i tok :
  toks !! i = Some tok -> (10 * (length toks - i) + 4 <= S n)%nat ->
  returns toks i (factor self (parser_at toks i)).
Proof.
  intros Hi Hn. pose proof (lookup_lt_Some _ _ _ Hi) as Hlen.
  unfold factor. rewrite (cur_in _ _ _ Hi). red_res.
  destruct (is_type tok [t.PLUS; t.MINUS]) eqn:H1.
  - adv Hi. destruct (lookup_lt_is_Some_2 toks (S i) ltac:(lia)) as [tok1 Ht1].
    sub P_factor Ht1 res j Hj Hok.
    destruct (error res) eqn:He; red_res; [finish |].
    destruct Hok as [[nd Hnd] Hp]; [reflexivity |]. rewrite Hnd. red_res. finish.
  - apply (Hself P_power i tok Hi); cbn [level]; [lia | discriminate].
Qed.

Lemma bin_oper_loop_returns fr ops :
  (1 <= level fr)%nat ->
  (forall tok, is_operator tok ops = true -> type_ tok <> t.EOF) ->
  forall k i res left_,
    (i < length toks)%nat -> (length toks - i < k)%nat ->
    (10 * (length toks - i) <= S n)%nat ->
    exists res' j,
      bin_oper_loop self k fr ops res left_ (parser_at toks i) = Done (res', parser_at toks j) /\
      (i <= j < length toks)%nat /\
      (error res' = None -> is_Some (node res')).
Proof.
  intros Hfr Hops. induction k as [| k IH]; intros i res left_ Hi Hk Hn; [lia |].
  cbn [bin_oper_loop].
  destruct (lookup_lt_is_Some_2 toks i ltac:(lia)) as [tok Ht].
  rewrite (cur_in _ _ _ Ht). red_res.
  destruct (is_operator tok ops) eqn:Hop.
  - destruct (advance_in toks _ _ Heof Ht (Hops _ Hop)) as [-> Hlt].
    destruct (lookup_lt_is_Some_2 toks (S i) ltac:(lia)) as [tok1 Ht1].
    destruct (Hself fr _ _ Ht1 ltac:(pose proof (level_le fr); lia) ltac:(lia))
      as (r & j & E & Hj & Hok).
    rewrite E. red_res.
    destruct (error r) eqn:He; red_res.
    + eexists _, _. split; [reflexivity |]. split; [lia |]. red_res. discriminate.
    + destruct (error res) eqn:He'; red_res.
      * eexists _, _. split; [reflexivity |]. split; [lia |]. red_res. first [discriminate | rewrite He'; discriminate].
      * destruct Hok as [[nd Hnd] Hp]; [reflexivity |]. rewrite Hnd. red_res.
        destruct (IH j (mkParseResult None (node res) (advancements res + 1 + advancements r))
                    (BinOpNode_init left_ tok nd)) as (res' & j' & E' & Hj' & Hok');
          [lia | lia | lia |].
        rewrite E'. eexists _, _. split; [reflexivity |]. split; [lia | assumption].
  - eexists _, _. split; [reflexivity |]. split; [lia |]. red_res. eauto.
Qed.

Lemma bin_oper_returns k fl ops fr i tok :
  (1 <= level fl)%nat -> (1 <= level (default fl fr))%nat ->
  (forall tok, is_operator tok ops = true -> type_ tok <> t.EOF) ->
  toks !! i = Some tok ->
  (10 * (length toks - i) + S (level fl) <= S n)%nat ->
  (length toks - i < k)%nat ->
  returns toks i (bin_oper self k fl ops fr (parser_at toks i)).
Proof.
  intros Hfl Hfr Hops Hi Hn Hk. pose proof (lookup_lt_Some _ _ _ Hi) as Hlen.
  unfold bin_oper.
  destruct (Hself fl _ _ Hi ltac:(lia) ltac:(lia)) as (r & j & E & Hj & Hok).
  rewrite E. red_res.
  destruct (error r) eqn:He; red_res; [finish |].
  destruct Hok as [[nd Hnd] Hp]; [reflexivity |]. rewrite Hnd. red_res.
  destruct (bin_oper_loop_returns (default fl fr) ops Hfr Hops k j
              (mkParseResult None None (0 + advancements r)) nd)
    as (res' & j' & E' & Hj' & Hok'); [lia | lia | lia |].
  rewrite E'. exists res', j'. split; [reflexivity |]. split; [lia |].
  intros He'. split; [auto | lia].
Qed.

Lemma comp_expr_returns i tok :
  toks !! i = Some tok -> (10 * (length toks - i) + 7 <= S n)%nat ->
  returns toks i (comp_expr self n (parser_at toks i)).
Proof.
  intros Hi Hn. pose proof (lookup_lt_Some _ _ _ Hi) as Hlen.
  unfold comp_expr. rewrite (cur_in _ _ _ Hi). red_res.
  destruct (is_equals tok t.KW "not") eqn:H1.
  - adv Hi. destruct (lookup_lt_is_Some_2 toks (S i) ltac:(lia)) as [tok1 Ht1].
    sub P_comp_expr Ht1 res j Hj Hok.
    destruct (error res) eqn:He; red_res; [finish |].
    destruct Hok as [[nd Hnd] Hp]; [reflexivity |]. rewrite Hnd. red_res. finish.
  - destruct (bin_oper_returns n P_arith_expr
                [OpTag t.EE; OpTag t.NE; OpTag t.LT; OpTag t.GT; OpTag t.LTE; OpTag t.GTE]
                None i tok) as (res & j & E & Hj & Hok);
      [cbn; lia | cbn; lia | ops_ok | assumption | cbn [level]; lia | lia |].
    rewrite E. red_res.
    destruct (error res) eqn:He; red_res; [finish |].
    destruct Hok as [[nd Hnd] Hp]; [reflexivity |]. rewrite Hnd. finish.
Qed.

Lemma expr_returns i tok :
  toks !! i = Some tok -> (10 * (length toks - i) + 8 <= S n)%nat ->
  returns toks i (expr self n (parser_at toks i)).
Proof.
  intros Hi Hn. pose proof (lookup_lt_Some _ _ _ Hi) as Hlen.
  unfold expr. rewrite (cur_in _ _ _ Hi). red_res.
  destruct (is_equals tok t.KW "let") eqn:H1.
  - adv Hi. at_tok (S i) tok1 Ht1.
    destruct (is_type tok1 [t.IDENTIFIER]) eqn:H2; red_res; [| finish].
    adv Ht1. at_tok (S (S i)) tok2 Ht2.
    destruct (is_type tok2 [t.EQ]) eqn:H3; red_res; [| finish].
    adv Ht2. destruct (lookup_lt_is_Some_2 toks (S (S (S i))) ltac:(lia)) as [tok3 Ht3].
    sub P_expr Ht3 res j Hj Hok.
    destruct (error res) eqn:He; red_res; [finish |].
    destruct Hok as [[nd Hnd] Hp]; [reflexivity |]. rewrite Hnd. red_res. finish.
  - destruct (bin_oper_returns n P_comp_expr [OpPair t.KW "and"; OpPair t.KW "or"]
                None i tok) as (res & j & E & Hj & Hok);
      [cbn; lia | cbn; lia | ops_ok | assumption | cbn [level]; lia | lia |].
    rewrite E. red_res.
    destruct (error res) eqn:He; red_res; [finish |].
    destruct Hok as [[nd Hnd] Hp]; [reflexivity |]. rewrite Hnd. finish.
Qed.

Lemma if_expr_returns i tok :
  toks !! i = Some tok -> type_ tok <> t.EOF ->
  (10 * (length toks - i) <= S n)%nat ->
  returns toks i (if_expr self (parser_at toks i)).
Proof.
  intros Hi Hne Hn. pose proof (lookup_lt_Some _ _ _ Hi) as Hlen.
  unfold if_expr. red_res.
  destruct (advance_in toks _ _ Heof Hi Hne) as [-> Hlt].
  destruct (lookup_lt_is_Some_2 toks (S i) ltac:(lia)) as [tok1 Ht1].
  sub P_comp_expr Ht1 res j Hj Hok.
  destruct (error res) eqn:He; red_res; [finish |].
  destruct Hok as [[nd Hnd] Hp]; [reflexivity |]. rewrite Hnd.
  at_tok j tokj Htj.
  destruct (is_equals tokj t.KW "then") eqn:H1; red_res; [| finish].
  adv Htj. destruct (lookup_lt_is_Some_2 toks (S j) ltac:(lia)) as [tok2 Ht2].
  sub P_expr Ht2 res2 j2 Hj2 Hok2.
  destruct (error res2) eqn:He2; red_res; [finish |].
  destruct Hok2 as [[nd2 Hnd2] Hp2]; [reflexivity |]. rewrite Hnd2.
  at_tok j2 tokj2 Htj2.
  destruct (is_equals tokj2 t.KW "else") eqn:H2; red_res; [| finish].
  adv Htj2. destruct (lookup_lt_is_Some_2 toks (S j2) ltac:(lia)) as [tok3 Ht3].
  sub P_expr Ht3 res3 j3 Hj3 Hok3.
  destruct (error res3) eqn:He3; red_res; [finish |].
  destruct Hok3 as [[nd3 Hnd3] Hp3]; [reflexivity |]. rewrite Hnd3. red_res. finish.
Qed.

Lemma call_args_loop_returns : forall k i res args,
  (i < length toks)%nat -> (length toks - i < k)%nat ->
  (10 * (length toks - i) <= S n)%nat ->
  (exists res' j,
     call_args_loop self k res args (parser_at toks i) = Done (inl (res', parser_at toks j)) /\
     (i <= j < length toks)%nat /\ error res' <> None) \/
  (exists res' args' j,
     call_args_loop self k res args (parser_at toks i) = Done (inr (res', args', parser_at toks j)) /\
     (i <= j < length toks)%nat /\ error res' = error res).
Proof.
  induction k as [| k IH]; intros i res args Hi Hk Hn; [lia |].
  cbn [call_args_loop].
  at_tok i tok Ht.
  destruct (is_type tok [t.COMMA]) eqn:H1; [| right; eexists _, _, _; split; [reflexivity |]; split; [lia | reflexivity]].
  adv Ht. destruct (lookup_lt_is_Some_2 toks (S i) ltac:(lia)) as [tok1 Ht1].
  sub P_expr Ht1 r j Hj Hok.
  destruct (error r) eqn:He; red_res.
  { left. eexists _, _. split; [reflexivity |]. split; [lia | discriminate]. }
  destruct (error res) eqn:He'; red_res.
  { left. eexists _, _. split; [reflexivity |]. split; [lia |]. cbn. discriminate. }
  destruct Hok as [[nd Hnd] Hp]; [reflexivity |]. rewrite Hnd. red_res.
  at_tok j tokj Htj.
  destruct (is_type tokj [t.R_PAREN]) eqn:H2.
  { right. eexists _, _, _. split; [reflexivity |]. split; [lia | reflexivity]. }
  destruct (is_type tokj [t.COMMA]) eqn:H3; red_res.
  - destruct (IH j (mkParseResult None (node res) (advancements res + 1 + advancements r))
                (args ++ [nd])) as [(res' & j' & E & Hj' & Hr) | (res' & args' & j' & E & Hj' & Hr)];
      [lia | lia | lia | |]; rewrite E.
    + left. eexists _, _. split; [reflexivity |]. split; [lia | assumption].
    + right. eexists _, _, _. split; [reflexivity |]. split; [lia | assumption].
  - left. eexists _, _. split; [reflexivity |]. split; [lia | discriminate].
Qed.

Lemma call_returns i tok :
  toks !! i = Some tok -> (10 * (length toks - i) + 2 <= S n)%nat ->
  returns toks i (call self n (parser_at toks i)).
Proof.
  intros Hi Hn. pose proof (lookup_lt_Some _ _ _ Hi) as Hlen.
  unfold call. red_res.
  sub P_atom Hi r j Hj Hok.
  destruct (error r) eqn:He; red_res; [finish |].
  destruct Hok as [[nd Hnd] Hp]; [reflexivity |]. rewrite Hnd.
  at_tok j tokj Htj.
  destruct (is_type tokj [t.L_PAREN]) eqn:H1; [| finish].
  adv Htj. at_tok (S j) tok1 Ht1.
  destruct (is_type tok1 [t.R_PAREN]) eqn:H2; red_res.
  { unfold call_finish. rewrite (cur_in _ _ _ Ht1). red_res. adv Ht1. finish. }
  sub P_expr Ht1 r2 j2 Hj2 Hok2.
  destruct (error r2) eqn:He2; red_res; [finish |].
  destruct Hok2 as [[nd2 Hnd2] Hp2]; [reflexivity |]. rewrite Hnd2. red_res.
  match goal with
  | |- context [call_args_loop self n ?res ?args _] =>
      destruct (call_args_loop_returns n j2 res args)
        as [(res' & j' & E & Hj' & Hr) | (res' & args' & j' & E & Hj' & Hr)];
        [lia | lia | lia | |]; rewrite E; red_res
  end.
  - eexists _, _. split; [reflexivity |]. split; [lia |]. intros; contradiction.
  - at_tok j' tokj' Htj'.
    destruct (is_type tokj' [t.R_PAREN]) eqn:H3; red_res; [| finish].
    unfold call_finish. rewrite (cur_in _ _ _ Htj'). red_res. adv Htj'. finish.
Qed.

Lemma func_def_params_loop_returns : forall k i res parameters,
  (i < length toks)%nat -> (length toks - i < k)%nat ->
  (exists res' j,
     func_def_params_loop k res parameters (parser_at toks i) = Done (inl (res', parser_at toks j)) /\
     (i <= j < length toks)%nat /\ error res' <> None) \/
  (exists res' parameters' j,
     func_def_params_loop k res parameters (parser_at toks i)
       = Done (inr (res', parameters', parser_at toks j)) /\
     (i <= j < length toks)%nat /\ error res' = error res).
Proof.
  induction k as [| k IH]; intros i res parameters Hi Hk; [lia |].
  cbn [func_def_params_loop].
  at_tok i tok Ht.
  destruct (is_type tok [t.COMMA]) eqn:H1; [| right; eexists _, _, _; split; [reflexivity |]; split; [lia | reflexivity]].
  adv Ht. at_tok (S i) tok1 Ht1.
  destruct (is_type tok1 [t.IDENTIFIER]) eqn:H2.
  - adv Ht1.
    destruct (IH (S (S i)) (register_adv (register_adv res)) (parameters ++ [tok1]))
      as [(res' & j' & E & Hj' & Hr) | (res' & args' & j' & E & Hj' & Hr)];
      [lia | lia | |]; rewrite E.
    + left. eexists _, _. split; [reflexivity |]. split; [lia | assumption].
    + right. eexists _, _, _. split; [reflexivity |]. split; [lia | assumption].
  - destruct (is_type tok1 [t.R_PAREN]) eqn:H3.
    + right. eexists _, _, _. split; [reflexivity |]. split; [lia | reflexivity].
    + left. eexists _, _. split; [reflexivity |]. split; [lia | discriminate].
Qed.

Lemma func_def_finish_returns i0 i res name pos_start parameters :
  (i0 < i < length toks)%nat -> (10 * (length toks - i0) <= S n)%nat ->
  returns toks i0 (func_def_finish self res name pos_start parameters (parser_at toks i)).
Proof.
  intros Hi Hn. unfold func_def_finish.
  at_tok i tok Ht.
  destruct (is_type tok [t.R_PAREN]) eqn:H1; red_res; [| finish].
  adv Ht. at_tok (S i) tok1 Ht1.
  destruct (is_type tok1 [t.COLON]) eqn:H2; red_res; [| finish].
  adv Ht1. destruct (lookup_lt_is_Some_2 toks (S (S i)) ltac:(lia)) as [tok2 Ht2].
  sub P_expr Ht2 r j Hj Hok.
  destruct (error r) eqn:He; red_res; [finish |].
  destruct (error res) eqn:He'; red_res; [finish |].
  destruct Hok as [[nd Hnd] Hp]; [reflexivity |]. rewrite Hnd. red_res. finish.
Qed.

Lemma func_def_returns i tok :
  toks !! i = Some tok -> type_ tok <> t.EOF ->
  (10 * (length toks - i) <= S n)%nat ->
  returns toks i (func_def self n (parser_at toks i)).
Proof.
  intros Hi Hne Hn. pose proof (lookup_lt_Some _ _ _ Hi) as Hlen.
  unfold func_def. rewrite (cur_in _ _ _ Hi). red_res.
  destruct (advance_in toks _ _ Heof Hi Hne) as [-> Hlt].
  at_tok (S i) tok1 Ht1.
  assert (Hrest : forall name res i1, (i < i1 < length toks)%nat ->
            returns toks i
              (cur (parser_at toks i1) ≫= λ tok0,
                 if negb (is_type tok0 [t.L_PAREN])
                 then Done (failure res
                              (Some (syntax_error_at tok0
                                       (if bool_decide (name = "")
                                        then "Expected Identifier or '('"
                                        else "Expected '('"))), parser_at toks i1)
                 else
                   cur (advance (parser_at toks i1)) ≫= λ tok2,
                     if is_type tok2 [t.IDENTIFIER]
                     then
                       func_def_params_loop n (register_adv (register_adv res)) ([] ++ [tok2])
                         (advance (advance (parser_at toks i1))) ≫= λ lp,
                         match lp with
                         | inl ret => Done ret
                         | inr (res1, parameters, p) =>
                             func_def_finish self res1 name (tok_pos_start tok) parameters p
                         end
                     else func_def_finish self (register_adv res) name (tok_pos_start tok) []
                            (advance (parser_at toks i1)))).
  { intros name res i1 Hi1.
    at_tok i1 tok2 Ht2.
    destruct (is_type tok2 [t.L_PAREN]) eqn:H2; red_res; [| finish].
    adv Ht2. at_tok (S i1) tok3 Ht3.
    destruct (is_type tok3 [t.IDENTIFIER]) eqn:H3.
    - adv Ht3.
      match goal with
      | |- context [func_def_params_loop n ?res ?ps _] =>
          destruct (func_def_params_loop_returns n (S (S i1)) res ps)
            as [(res' & j' & E & Hj' & Hr) | (res' & ps' & j' & E & Hj' & Hr)];
            [lia | lia | |]; rewrite E; red_res
      end.
      + eexists _, _. split; [reflexivity |]. split; [lia |]. intros; contradiction.
      + apply func_def_finish_returns; lia.
    - apply func_def_finish_returns; lia. }
  destruct (is_type tok1 [t.IDENTIFIER]) eqn:H1.
  - adv Ht1. apply Hrest. lia.
  - apply Hrest. lia.
Qed.
End Returns.

(** ** All productions, by induction on the budget *)

Lemma production_returns toks :
  ends_with_eof toks -> forall n, returns_from toks n (pp n).
Proof.
  intros Heof. induction n as [| n IH]; intros prod i tok Hi Hn Hpre.
  - pose proof (lookup_lt_Some _ _ _ Hi). lia.
  - destruct prod; cbn [parse_production]; cbn [level] in *.
    + now apply (expr_returns toks Heof _ n IH i tok).
    + now apply (call_returns toks Heof _ n IH i tok).
    + now apply (atom_returns toks Heof _ n IH i tok).
    + now apply (factor_returns toks Heof _ n IH i tok).
    + apply (bin_oper_returns toks Heof _ n IH n P_factor _ None i tok);
        [cbn; lia | cbn; lia | ops_ok | assumption | cbn [level]; lia |].
      pose proof (lookup_lt_Some _ _ _ Hi). lia.
    + apply (bin_oper_returns toks Heof _ n IH n P_call _ (Some P_factor) i tok);
        [cbn; lia | cbn; lia | ops_ok | assumption | cbn [level]; lia |].
      pose proof (lookup_lt_Some _ _ _ Hi). lia.
    + apply (bin_oper_returns toks Heof _ n IH n P_term _ None i tok);
        [cbn; lia | cbn; lia | ops_ok | assumption | cbn [level]; lia |].
      pose proof (lookup_lt_Some _ _ _ Hi). lia.
    + now apply (comp_expr_returns toks Heof _ n IH i tok).
    + apply (if_expr_returns toks Heof _ n IH i tok); auto; lia.
    + apply (func_def_returns toks Heof _ n IH i tok); auto; lia.
Qed.

(** X13: on a token list that ends with EOF every production returns,
    from every position and with a recursion budget of ten per remaining
    token: it raises nothing and does not run on.  It leaves the parser on
    a token of the list, never before the one it started on (no
    backtracking), and when it reports no error it has built a node and
    read at least one token. *)
Theorem productions_return toks n prod i tok :
  ends_with_eof toks ->
  toks !! i = Some tok ->
  (10 * (length toks - i) + level prod <= n)%nat ->
  (level prod = 0%nat -> type_ tok <> t.EOF) ->
  exists res j,
    pp n prod (parser_at toks i) = Done (res, parser_at toks j) /\
    (i <= j < length toks)%nat /\
    (error res = None -> is_Some (node res) /\ (i < j)%nat).
Proof. intros Heof. now apply production_returns. Qed.

(** X14: [make_ast] returns its pair on every token list that ends with
    EOF, and a pair without an error holds a node. *)
Theorem make_ast_returns toks fuel :
  ends_with_eof toks ->
  (10 * length toks + 8 <= fuel)%nat ->
  exists nd err,
    make_ast fuel toks = Done (nd, err) /\ (err = None -> is_Some nd).
Proof.
  intros Heof Hfuel. unfold make_ast, parse. rewrite Parser_init_at.
  assert (Hlen : (0 < length toks)%nat).
  { destruct toks; [contradiction | cbn; lia]. }
  destruct (lookup_lt_is_Some_2 toks 0 Hlen) as [tok Ht].
  destruct (production_returns toks Heof fuel P_expr 0%nat tok Ht
              ltac:(cbn [level]; lia) ltac:(discriminate)) as (res & j & -> & Hj & Hok).
  red_res.
  destruct (lookup_lt_is_Some_2 toks j ltac:(lia)) as [tokj Htj].
  rewrite (cur_in _ _ _ Htj). red_res.
  unfold has_error. destruct (error res) eqn:He; cbn [negb andb].
  - red_res. eexists _, _. split; [reflexivity |]. rewrite He. discriminate.
  - destruct (is_type tokj [t.EOF; t.NEWLINE]); cbn [negb]; red_res.
    + eexists _, _. split; [reflexivity |]. intros _. now apply Hok.
    + eexists _, _. split; [reflexivity |]. discriminate.
Qed.

(* ===================================================================== *)
(** * The parser reads every phrase of the grammar as its tree *)
(* ===================================================================== *)

Section GSteps.
Variable self : Production -> Parser -> ParseM.

Lemma read_as_intro toks i s nd m a j :
  m = Done (mkParseResult None (Some nd) a, parser_at toks j) ->
  j = (i + length s)%nat -> read_as toks i s nd m.
Proof. intros -> ->. now exists a. Qed.

Lemma bin_oper_enters k fl ops fr toks i s left_ :
  read_as toks i s left_ (self fl (parser_at toks i)) ->
  exists a,
    bin_oper self k fl ops fr (parser_at toks i) =
      bin_oper_loop self k (default fl fr) ops (mkParseResult None None a)
        left_ (parser_at toks (i + length s)).
Proof. intros [a Hl]. unfold bin_oper. rewrite Hl. cbn. eauto. Qed.

Lemma bin_oper_loop_reads k fr ops a left_ toks i op s right_ rest :
  drop i toks = op :: s ++ rest ->
  rest <> [] ->
  is_operator op ops = true ->
  read_as toks (S i) s right_ (self fr (parser_at toks (S i))) ->
  exists a',
    bin_oper_loop self (S k) fr ops (mkParseResult None None a) left_ (parser_at toks i) =
      bin_oper_loop self k fr ops (mkParseResult None None a')
        (BinOpNode_init left_ op right_) (parser_at toks (i + S (length s))).
Proof.
  intros Hd Hne Hop [b Hright]. cbn. rewrite (cur_at _ _ _ _ Hd). cbn. rewrite Hop.
  rewrite (advance_at _ _ _ _ Hd) by (destruct s; [exact Hne | discriminate]).
  rewrite Hright. cbn. eexists.
  replace (S (i + length s)) with (i + S (length s))%nat by lia. reflexivity.
Qed.

Lemma bin_oper_loop_leaves k fr ops a left_ toks i r0 rest :
  drop i toks = r0 :: rest ->
  is_operator r0 ops = false ->
  bin_oper_loop self (S k) fr ops (mkParseResult None None a) left_ (parser_at toks i) =
    Done (mkParseResult None (Some left_) a, parser_at toks i).
Proof.
  intros Hd Hop. cbn. rewrite (cur_at _ _ _ _ Hd). cbn. now rewrite Hop.
Qed.
End GSteps.

(** ** Chains: one operand, one more operand, the end *)

Lemma follows_nonempty ok rest : follows ok rest -> rest <> [].
Proof. destruct rest; [contradiction | discriminate]. Qed.

Lemma chain_one operand ops s nd :
  reads operand s nd -> chain_reads operand ops 0 s nd.
Proof.
  intros Hr n k toks i rest Hn Hd Hf.
  rewrite Nat.sub_0_r. apply (bin_oper_enters _ k operand ops None).
  now apply (Hr n toks i rest).
Qed.

Lemma chain_more operand ops count s nd op s' nd' :
  chain_reads operand ops count s nd ->
  reads operand s' nd' ->
  is_operator op ops = true ->
  after operand op = true ->
  chain_reads operand ops (S count) (s ++ op :: s') (BinOpNode_init nd op nd').
Proof.
  intros Hc Hr Hop Hafter n k toks i rest Hn Hd Hf.
  rewrite length_app in *. cbn [length] in *.
  rewrite <- app_assoc in Hd. cbn [app] in Hd.
  destruct (Hc n k toks i _ ltac:(lia) Hd Hafter) as [a ->].
  destruct (k - count)%nat as [| k'] eqn:Hk.
  - replace (k - S count)%nat with 0%nat by lia. now exists 0%nat.
  - pose proof (drop_after _ _ _ _ Hd) as Hd'.
    destruct (bin_oper_loop_reads (pp n) k' operand ops a nd toks _ op s' nd' rest Hd'
                (follows_nonempty _ _ Hf) Hop) as [a' ->].
    + apply (Hr n toks _ rest); [lia | | exact Hf].
      apply (drop_S_tail _ _ _ _ Hd').
    + exists a'. replace (k - S count)%nat with k' by lia.
      replace (i + length s + S (length s'))%nat with (i + (length s + S (length s')))%nat by lia.
      reflexivity.
Qed.

Lemma chain_close operand ops count s nd (ok : Token -> bool) :
  chain_reads operand ops count s nd ->
  (count <= length s)%nat ->
  (forall tok, ok tok = true -> after operand tok = true /\ is_operator tok ops = false) ->
  forall n k toks i rest,
    (8 * length s + level operand <= n)%nat ->
    (length s < k)%nat ->
    drop i toks = s ++ rest ->
    follows ok rest ->
    read_as toks i s nd (bin_oper (pp n) k operand ops None (parser_at toks i)).
Proof.
  intros Hc Hcount Hok n k toks i rest Hn Hk Hd Hf.
  destruct rest as [| r0 rest]; [contradiction |]. cbn in Hf.
  destruct (Hok _ Hf) as [Ha Hop].
  destruct (Hc n k toks i (r0 :: rest) Hn Hd Ha) as [a ->].
  destruct (k - count)%nat as [| k'] eqn:Hk'; [lia |].
  rewrite (bin_oper_loop_leaves _ _ _ _ _ _ _ _ _ _ (drop_after _ _ _ _ Hd) Hop).
  now exists a.
Qed.

Lemma follows_impl (ok ok' : Token -> bool) rest :
  (forall tok, ok tok = true -> ok' tok = true) -> follows ok rest -> follows ok' rest.
Proof. destruct rest; [contradiction | cbn; auto]. Qed.

Lemma reads_with_impl prod (ok ok' : Token -> bool) s nd :
  (forall tok, ok' tok = true -> ok tok = true) ->
  reads_with prod ok s nd -> reads_with prod ok' s nd.
Proof.
  intros Himp Hr n toks i rest Hn Hd Hf. apply (Hr n toks i rest Hn Hd).
  eapply follows_impl; eassumption.
Qed.

Lemma begins_app ok s s' : begins ok s -> begins ok (s ++ s').
Proof. destruct s; [contradiction | exact id]. Qed.

Lemma begins_cur ok s toks i rest :
  begins ok s -> drop i toks = s ++ rest ->
  exists hd, cur (parser_at toks i) = Done hd /\ ok hd = true.
Proof.
  destruct s as [| hd tl]; [contradiction |]. intros Hb Hd.
  exists hd. split; [eapply cur_at, Hd | exact Hb].
Qed.

(** ** Atoms *)

Lemma atom_reads_number n sp : reads P_atom [number_token n sp] (NumberNode_init (number_token n sp)).
Proof.
  intros fuel toks i rest Hn Hd Hf. destruct fuel as [| m]; [cbn in Hn; lia |].
  cbn [parse_production].
  rewrite (atom_number _ _ _ _ _ rest Hd (follows_nonempty _ _ Hf)). now eexists.
Qed.

Lemma atom_reads_literal s sp : reads P_atom [literal s sp] (LiteralNode_init (literal s sp)).
Proof.
  intros fuel toks i rest Hn Hd Hf. destruct fuel as [| m]; [cbn in Hn; lia |].
  cbn [parse_production]. unfold atom. rewrite (cur_at _ _ _ _ Hd). red_res.
  change (is_type (literal s sp) [t.INT; t.FLOAT]) with false.
  change (is_type (literal s sp) [t.LITERAL]) with true. cbn iota.
  rewrite (advance_at _ _ _ _ Hd (follows_nonempty _ _ Hf)).
  eapply read_as_intro; [reflexivity | cbn; lia].
Qed.

Lemma atom_reads_ident s sp : reads P_atom [ident s sp] (VarAccessNode_init (ident s sp)).
Proof.
  intros fuel toks i rest Hn Hd Hf. destruct fuel as [| m]; [cbn in Hn; lia |].
  cbn [parse_production]. unfold atom. rewrite (cur_at _ _ _ _ Hd). red_res.
  change (is_type (ident s sp) [t.INT; t.FLOAT]) with false.
  change (is_type (ident s sp) [t.LITERAL]) with false.
  change (is_type (ident s sp) [t.L_PAREN]) with false.
  change (is_type (ident s sp) [t.IDENTIFIER]) with true. cbn iota.
  rewrite (advance_at _ _ _ _ Hd (follows_nonempty _ _ Hf)).
  eapply read_as_intro; [reflexivity | cbn; lia].
Qed.

Lemma after_expr_r_paren r : after_expr (sym t.R_PAREN r) = true.
Proof. reflexivity. Qed.

Lemma atom_reads_paren l s nd r :
  reads P_expr s nd ->
  reads P_atom (sym t.L_PAREN l :: s ++ [sym t.R_PAREN r]) nd.
Proof.
  intros He fuel toks i rest Hn Hd Hf. cbn [length] in Hn. rewrite length_app in Hn.
  cbn [length level] in Hn.
  destruct fuel as [| m]; [lia |].
  cbn [parse_production]. unfold atom. rewrite (cur_at _ _ _ _ Hd). red_res.
  change (is_type (sym t.L_PAREN l) [t.INT; t.FLOAT]) with false.
  change (is_type (sym t.L_PAREN l) [t.LITERAL]) with false.
  change (is_type (sym t.L_PAREN l) [t.L_PAREN]) with true. cbn iota.
  cbn [app] in Hd. rewrite <- app_assoc in Hd. cbn [app] in Hd.
  rewrite (advance_at _ _ _ _ Hd) by (destruct s; discriminate).
  pose proof (drop_S_tail _ _ _ _ Hd) as Hd1.
  destruct (He m toks (S i) _ ltac:(cbn [level]; lia) Hd1 (after_expr_r_paren r)) as [a ->].
  red_res.
  pose proof (drop_after _ _ _ _ Hd1) as Hd2.
  rewrite (cur_at _ _ _ _ Hd2). red_res.
  change (is_type (sym t.R_PAREN r) [t.R_PAREN]) with true. cbn iota.
  rewrite (advance_at _ _ _ _ Hd2 (follows_nonempty _ _ Hf)).
  eapply read_as_intro; [reflexivity |]. cbn [length]. rewrite length_app. cbn. lia.
Qed.

(** ** Calls *)

Lemma call_reads_none s nd :
  reads P_atom s nd -> reads P_call s nd.
Proof.
  intros Ha n toks i rest Hn Hd Hf. destruct n as [| m]; [cbn in Hn; lia |].
  cbn [parse_production]. unfold call.
  destruct (Ha m toks i rest ltac:(cbn [level] in *; lia) Hd) as [a ->].
  { destruct rest; [contradiction | reflexivity]. }
  red_res.
  destruct rest as [| r0 rest]; [contradiction |]. cbn in Hf.
  rewrite (cur_at _ _ _ _ (drop_after _ _ _ _ Hd)). red_res.
  unfold after_call in Hf. apply negb_true_iff in Hf. rewrite Hf.
  now eexists.
Qed.

Lemma call_reads_empty ok s nd lp rp :
  reads P_atom s nd ->
  reads_with P_call ok (s ++ [sym t.L_PAREN lp; sym t.R_PAREN rp])
    (node_set_pos (FuncCallNode_init nd []) (node_pos_start nd) (Some (snd rp))).
Proof.
  intros Ha n toks i rest Hn Hd Hf. rewrite length_app in *. cbn [length level] in Hn.
  destruct n as [| m]; [lia |].
  cbn [parse_production]. unfold call.
  rewrite <- app_assoc in Hd. cbn [app] in Hd.
  destruct (Ha m toks i _ ltac:(cbn [level]; lia) Hd eq_refl) as [a ->].
  red_res.
  pose proof (drop_after _ _ _ _ Hd) as Hd1.
  rewrite (cur_at _ _ _ _ Hd1). red_res.
  change (is_type (sym t.L_PAREN lp) [t.L_PAREN]) with true. cbn iota.
  rewrite (advance_at _ _ _ _ Hd1) by discriminate.
  pose proof (drop_S_tail _ _ _ _ Hd1) as Hd2.
  rewrite (cur_at _ _ _ _ Hd2). red_res.
  change (is_type (sym t.R_PAREN rp) [t.R_PAREN]) with true. cbn [negb].
  unfold call_finish. rewrite (cur_at _ _ _ _ Hd2). red_res.
  rewrite (advance_at _ _ _ _ Hd2 (follows_nonempty _ _ Hf)).
  eapply read_as_intro; [reflexivity |]. rewrite length_app. cbn [length]. lia.
Qed.

Lemma more_reads_nil : more_reads MoreNil.
Proof.
  intros n k toks i rp rest res args Hn Hk Hd Hres. cbn [more_tokens more_nodes length app] in *.
  destruct k as [| k]; [lia |]. cbn [call_args_loop].
  rewrite (cur_at _ _ _ _ Hd). red_res.
  change (is_type (sym t.R_PAREN rp) [t.COMMA]) with false. cbn iota.
  exists (advancements res). rewrite app_nil_r, Nat.add_0_r.
  destruct res as [e nd a]. cbn in Hres. subst e. reflexivity.
Qed.

Lemma more_reads_cons comma e more :
  reads P_expr (expr_tokens e) (expr_node e) -> more_reads more ->
  more_reads (MoreCons comma e more).
Proof.
  intros He Hmore n k toks i rp rest res args Hn Hk Hd Hres.
  cbn [more_tokens more_nodes length app] in *. rewrite length_app in *.
  destruct k as [| k]; [lia |]. cbn [call_args_loop].
  rewrite (cur_at _ _ _ _ Hd). red_res.
  change (is_type (sym t.COMMA comma) [t.COMMA]) with true. cbn iota.
  rewrite <- app_assoc in Hd.
  rewrite (advance_at _ _ _ _ Hd) by (destruct (expr_tokens e); [destruct (more_tokens more) |]; discriminate).
  pose proof (drop_S_tail _ _ _ _ Hd) as Hd1.
  destruct (He n toks (S i) _ ltac:(cbn [level]; lia) Hd1) as [a ->].
  { destruct more; reflexivity. }
  red_res. rewrite Hres. red_res.
  pose proof (drop_after _ _ _ _ Hd1) as Hd2.
  destruct more as [| comma' e' more'].
  - cbn [more_tokens app] in Hd2. rewrite (cur_at _ _ _ _ Hd2). red_res.
    change (is_type (sym t.R_PAREN rp) [t.R_PAREN]) with true. cbn iota.
    eexists. cbn [more_tokens more_nodes length]. rewrite Nat.add_0_r.
    replace (i + S (length (expr_tokens e)))%nat with (S i + length (expr_tokens e))%nat by lia.
    reflexivity.
  - pose proof Hd2 as Hd2'. cbn [more_tokens app] in Hd2'.
    rewrite (cur_at _ _ _ _ Hd2'). red_res.
    change (is_type (sym t.COMMA comma') [t.R_PAREN]) with false.
    change (is_type (sym t.COMMA comma') [t.COMMA]) with true. cbn [negb].
    cbn iota.
    destruct (Hmore n k toks _ rp rest
                (mkParseResult None (node res) (advancements res + 1 + a))
                (args ++ [expr_node e]) ltac:(lia) ltac:(lia) Hd2 eq_refl) as [a' ->].
    exists a'. rewrite <- app_assoc. cbn [app].
    replace (i + S (length (expr_tokens e) + length (more_tokens (MoreCons comma' e' more'))))%nat
      with (S i + length (expr_tokens e) + length (more_tokens (MoreCons comma' e' more')))%nat by lia.
    reflexivity.
Qed.

Lemma call_reads_args ok s nd lp first more rp :
  reads P_atom s nd ->
  reads P_expr (expr_tokens first) (expr_node first) ->
  begins first_expr (expr_tokens first) ->
  more_reads more ->
  reads_with P_call ok
    (s ++ sym t.L_PAREN lp :: expr_tokens first ++ more_tokens more ++ [sym t.R_PAREN rp])
    (node_set_pos (FuncCallNode_init nd (expr_node first :: more_nodes more))
       (node_pos_start nd) (Some (snd rp))).
Proof.
  intros Ha He Hb Hmore n toks i rest Hn Hd Hf.
  rewrite !length_app in Hn. cbn [length level] in Hn. rewrite !length_app in Hn.
  cbn [length] in Hn.
  destruct n as [| m]; [lia |].
  cbn [parse_production]. unfold call.
  rewrite <- app_assoc in Hd. cbn [app] in Hd.
  destruct (Ha m toks i _ ltac:(cbn [level]; lia) Hd eq_refl) as [a ->].
  red_res.
  pose proof (drop_after _ _ _ _ Hd) as Hd1.
  rewrite (cur_at _ _ _ _ Hd1). red_res.
  change (is_type (sym t.L_PAREN lp) [t.L_PAREN]) with true. cbn iota.
  rewrite (advance_at _ _ _ _ Hd1)
    by (destruct (expr_tokens first); [contradiction | discriminate]).
  pose proof (drop_S_tail _ _ _ _ Hd1) as Hd2.
  rewrite <- !app_assoc in Hd2. cbn [app] in Hd2.
  destruct (begins_cur _ _ _ _ _ Hb Hd2) as (hd & -> & Hhd). red_res.
  replace (is_type hd [t.R_PAREN]) with false
    by (clear - Hhd; destruct hd as [[] ? ? ?]; revert Hhd; vm_compute; congruence).
  cbn [negb].
  destruct (He m toks _ _ ltac:(cbn [level]; lia) Hd2) as [a1 ->].
  { destruct more; reflexivity. }
  red_res.
  pose proof (drop_after _ _ _ _ Hd2) as Hd3.
  destruct (Hmore m m toks _ rp rest (mkParseResult None None (0 + a + 1 + a1))
              ([] ++ [expr_node first]) ltac:(lia) ltac:(lia) Hd3 eq_refl) as [a2 ->].
  red_res.
  pose proof (drop_after _ _ _ _ Hd3) as Hd4.
  rewrite (cur_at _ _ _ _ Hd4). red_res.
  change (is_type (sym t.R_PAREN rp) [t.R_PAREN]) with true. cbn [negb].
  unfold call_finish. rewrite (cur_at _ _ _ _ Hd4). red_res.
  rewrite (advance_at _ _ _ _ Hd4 (follows_nonempty _ _ Hf)).
  eapply read_as_intro; [reflexivity |].
  rewrite !length_app. cbn [length]. rewrite !length_app. cbn [length]. lia.
Qed.

(** ** Powers and factors *)

Lemma after_power_facts r0 :
  after_power r0 = true ->
  after_call r0 = true /\ is_operator r0 [OpTag t.POW] = false.
Proof. destruct r0 as [[] ? ? ?]; vm_compute; intuition congruence. Qed.

Lemma power_reads_one s nd :
  reads P_call s nd -> reads P_power s nd.
Proof.
  intros Hc n toks i rest Hn Hd Hf. destruct n as [| m]; [cbn in Hn; lia |].
  cbn [parse_production]. unfold power. cbn [level] in Hn.
  destruct rest as [| r0 rest]; [contradiction |]. cbn in Hf.
  destruct (after_power_facts _ Hf) as [Hcall Hpow].
  destruct (bin_oper_enters (pp m) m P_call [OpTag t.POW] (Some P_factor) toks i s nd) as [a ->].
  { apply (Hc m toks i (r0 :: rest)); [cbn [level]; lia | exact Hd | exact Hcall]. }
  destruct m as [| k]; [lia |].
  rewrite (bin_oper_loop_leaves _ _ _ _ _ _ _ _ _ _ (drop_after _ _ _ _ Hd) Hpow).
  now eexists.
Qed.

Lemma power_reads_op s nd sp s' nd' :
  reads P_call s nd -> reads P_factor s' nd' ->
  reads P_power (s ++ sym t.POW sp :: s') (BinOpNode_init nd (sym t.POW sp) nd').
Proof.
  intros Hc Hfa n toks i rest Hn Hd Hf. rewrite length_app in *. cbn [length level] in Hn.
  destruct n as [| m]; [lia |].
  cbn [parse_production]. unfold power.
  rewrite <- app_assoc in Hd. cbn [app] in Hd.
  destruct (bin_oper_enters (pp m) m P_call [OpTag t.POW] (Some P_factor) toks i s nd) as [a ->].
  { apply (Hc m toks i (sym t.POW sp :: s' ++ rest)); [cbn [level]; lia | exact Hd | reflexivity]. }
  pose proof (drop_after _ _ _ _ Hd) as Hd1. cbn [default from_option id].
  destruct m as [| k]; [lia |].
  destruct (bin_oper_loop_reads (pp (S k)) k P_factor [OpTag t.POW] a nd toks _ (sym t.POW sp) s' nd' rest
              Hd1 (follows_nonempty _ _ Hf) eq_refl) as [a' ->].
  { apply (Hfa (S k) toks _ rest); [cbn [level]; lia | | exact Hf].
    apply (drop_S_tail _ _ _ _ Hd1). }
  destruct k as [| k]; [lia |].
  destruct rest as [| r0 rest]; [contradiction |]. cbn in Hf.
  destruct (after_power_facts _ Hf) as [_ Hpow].
  assert (Hd2 : drop (i + length s + S (length s')) toks = r0 :: rest).
  { apply (drop_after _ _ (sym t.POW sp :: s')). exact Hd1. }
  rewrite (bin_oper_loop_leaves _ _ _ _ _ _ _ _ _ _ Hd2 Hpow).
  eapply read_as_intro; [reflexivity |]. rewrite length_app. cbn. lia.
Qed.

Lemma factor_reads_signed op sp s nd :
  reads P_factor s nd ->
  reads P_factor (add_token op sp :: s) (UnaryOpNode_init (add_token op sp) nd).
Proof.
  intros Hfa n toks i rest Hn Hd Hf. cbn [length level] in Hn.
  destruct n as [| m]; [lia |].
  cbn [parse_production]. unfold factor. rewrite (cur_at _ _ _ _ Hd). red_res.
  replace (is_type (add_token op sp) [t.PLUS; t.MINUS]) with true
    by (destruct op; reflexivity).
  cbn [app] in Hd.
  rewrite (advance_at _ _ _ _ Hd) by (destruct s; [exact (follows_nonempty _ _ Hf) | discriminate]).
  destruct (Hfa m toks (S i) rest ltac:(cbn [level]; lia) (drop_S_tail _ _ _ _ Hd) Hf) as [a ->].
  red_res. eapply read_as_intro; [reflexivity |]. cbn. lia.
Qed.

Lemma factor_reads_unsigned ok s nd :
  begins not_sign s -> reads_with P_power ok s nd -> reads_with P_factor ok s nd.
Proof.
  intros Hb Hp n toks i rest Hn Hd Hf. cbn [level] in Hn.
  destruct n as [| m]; [lia |].
  cbn [parse_production]. unfold factor.
  destruct (begins_cur _ _ _ _ _ Hb Hd) as (hd & -> & Hhd). red_res.
  unfold not_sign in Hhd. apply negb_true_iff in Hhd. rewrite Hhd.
  apply (Hp m toks i rest); [cbn [level]; lia | exact Hd | exact Hf].
Qed.

(** ** Chains and the productions around them *)

Lemma bin_reads_one operand ops (ok : Token -> bool) s nd :
  reads_with operand ok s nd ->
  (forall tok, ok tok = true -> is_operator tok ops = false) ->
  bin_reads operand ops ok s nd.
Proof.
  intros Hr Hok n k toks i rest Hn Hk Hd Hf.
  destruct (bin_oper_enters (pp n) k operand ops None toks i s nd) as [a ->].
  { now apply (Hr n toks i rest). }
  destruct rest as [| r0 rest]; [contradiction |]. cbn in Hf.
  destruct k as [| k]; [lia |].
  rewrite (bin_oper_loop_leaves _ _ _ _ _ _ _ _ _ _ (drop_after _ _ _ _ Hd) (Hok _ Hf)).
  now exists a.
Qed.

Lemma bin_reads_chain operand ops count s nd (ok : Token -> bool) :
  chain_reads operand ops count s nd ->
  (count <= length s)%nat ->
  (forall tok, ok tok = true -> after operand tok = true /\ is_operator tok ops = false) ->
  bin_reads operand ops ok s nd.
Proof.
  intros Hc Hcount Hok n k toks i rest Hn Hk Hd Hf.
  eapply chain_close; eassumption.
Qed.

Lemma term_reads ok s nd :
  bin_reads P_factor [OpTag t.MUL; OpTag t.DIV] ok s nd -> reads_with P_term ok s nd.
Proof.
  intros Hb n toks i rest Hn Hd Hf. cbn [level] in Hn. destruct n as [| m]; [lia |].
  cbn [parse_production]. unfold term.
  apply (Hb m m toks i rest); [cbn [level]; lia | lia | exact Hd | exact Hf].
Qed.

Lemma arith_reads ok s nd :
  bin_reads P_term [OpTag t.PLUS; OpTag t.MINUS] ok s nd -> reads_with P_arith_expr ok s nd.
Proof.
  intros Hb n toks i rest Hn Hd Hf. cbn [level] in Hn. destruct n as [| m]; [lia |].
  cbn [parse_production]. unfold arith_expr.
  apply (Hb m m toks i rest); [cbn [level]; lia | lia | exact Hd | exact Hf].
Qed.

Lemma comp_reads ok s nd :
  begins (not_kw "not") s ->
  bin_reads P_arith_expr cmp_operators ok s nd -> reads_with P_comp_expr ok s nd.
Proof.
  intros Hbeg Hb n toks i rest Hn Hd Hf. cbn [level] in Hn. destruct n as [| m]; [lia |].
  cbn [parse_production]. unfold comp_expr.
  destruct (begins_cur _ _ _ _ _ Hbeg Hd) as (hd & -> & Hhd). red_res.
  unfold not_kw in Hhd. apply negb_true_iff in Hhd. rewrite Hhd.
  destruct (Hb m m toks i rest ltac:(cbn [level]; lia) ltac:(lia) Hd Hf) as [a E].
  unfold cmp_operators in E. rewrite E. red_res. now eexists.
Qed.

Lemma expr_reads ok s nd :
  begins (not_kw "let") s ->
  bin_reads P_comp_expr logic_operators ok s nd -> reads_with P_expr ok s nd.
Proof.
  intros Hbeg Hb n toks i rest Hn Hd Hf. cbn [level] in Hn. destruct n as [| m]; [lia |].
  cbn [parse_production]. unfold expr.
  destruct (begins_cur _ _ _ _ _ Hbeg Hd) as (hd & -> & Hhd). red_res.
  unfold not_kw in Hhd. apply negb_true_iff in Hhd. rewrite Hhd.
  destruct (Hb m m toks i rest ltac:(cbn [level]; lia) ltac:(lia) Hd Hf) as [a E].
  unfold logic_operators in E. rewrite E. red_res. now eexists.
Qed.

Lemma comp_reads_not sp s nd :
  reads P_comp_expr s nd ->
  reads P_comp_expr (kw "not" sp :: s) (UnaryOpNode_init (kw "not" sp) nd).
Proof.
  intros Hc n toks i rest Hn Hd Hf. cbn [length level] in Hn.
  destruct n as [| m]; [lia |].
  cbn [parse_production]. unfold comp_expr. rewrite (cur_at _ _ _ _ Hd). red_res.
  change (is_equals (kw "not" sp) t.KW "not") with true. cbn iota.
  cbn [app] in Hd.
  rewrite (advance_at _ _ _ _ Hd) by (destruct s; [exact (follows_nonempty _ _ Hf) | discriminate]).
  destruct (Hc m toks (S i) rest ltac:(cbn [level]; lia) (drop_S_tail _ _ _ _ Hd) Hf) as [a ->].
  red_res. eapply read_as_intro; [reflexivity |]. cbn. lia.
Qed.

Lemma expr_reads_let l x xs eq s nd :
  reads P_expr s nd ->
  reads P_expr (kw "let" l :: ident x xs :: sym t.EQ eq :: s)
    (VarAssignNode_init (ident x xs) nd).
Proof.
  intros He n toks i rest Hn Hd Hf. cbn [length level] in Hn.
  destruct n as [| m]; [lia |].
  cbn [parse_production]. unfold expr. rewrite (cur_at _ _ _ _ Hd). red_res.
  change (is_equals (kw "let" l) t.KW "let") with true. cbn iota.
  cbn [app] in Hd.
  rewrite (advance_at _ _ _ _ Hd) by discriminate.
  pose proof (drop_S_tail _ _ _ _ Hd) as Hd1.
  rewrite (cur_at _ _ _ _ Hd1). red_res.
  change (is_type (ident x xs) [t.IDENTIFIER]) with true. cbn [negb].
  rewrite (advance_at _ _ _ _ Hd1) by discriminate.
  pose proof (drop_S_tail _ _ _ _ Hd1) as Hd2.
  rewrite (cur_at _ _ _ _ Hd2). red_res.
  change (is_type (sym t.EQ eq) [t.EQ]) with true. cbn [negb].
  rewrite (advance_at _ _ _ _ Hd2) by (destruct s; [exact (follows_nonempty _ _ Hf) | discriminate]).
  destruct (He m toks _ rest ltac:(cbn [level]; lia) (drop_S_tail _ _ _ _ Hd2) Hf) as [a ->].
  red_res. eapply read_as_intro; [reflexivity |]. cbn. lia.
Qed.

(** ** [if] and [fun] *)

Lemma if_reads sp sc ndc th s1 nd1 el s2 nd2 :
  reads P_comp_expr sc ndc -> reads P_expr s1 nd1 -> reads P_expr s2 nd2 ->
  reads P_if_expr (kw "if" sp :: sc ++ kw "then" th :: s1 ++ kw "else" el :: s2)
    (IfBlockNode_init (ndc, nd1) nd2).
Proof.
  intros Hc H1 H2 n toks i rest Hn Hd Hf.
  cbn [length level] in Hn. rewrite !length_app in Hn. cbn [length] in Hn.
  rewrite !length_app in Hn. cbn [length] in Hn.
  destruct n as [| m]; [lia |].
  cbn [parse_production]. unfold if_expr. red_res.
  cbn [app] in Hd. rewrite <- !app_assoc in Hd. cbn [app] in Hd.
  rewrite <- !app_assoc in Hd. cbn [app] in Hd.
  rewrite (advance_at _ _ _ _ Hd) by (destruct sc; discriminate).
  pose proof (drop_S_tail _ _ _ _ Hd) as Hd1.
  destruct (Hc m toks _ _ ltac:(cbn [level]; lia) Hd1 eq_refl) as [a ->]. red_res.
  pose proof (drop_after _ _ _ _ Hd1) as Hd2.
  rewrite (cur_at _ _ _ _ Hd2). red_res.
  change (is_equals (kw "then" th) t.KW "then") with true. cbn [negb].
  rewrite (advance_at _ _ _ _ Hd2) by (destruct s1; discriminate).
  pose proof (drop_S_tail _ _ _ _ Hd2) as Hd3.
  destruct (H1 m toks _ _ ltac:(cbn [level]; lia) Hd3 eq_refl) as [a1 ->]. red_res.
  pose proof (drop_after _ _ _ _ Hd3) as Hd4.
  rewrite (cur_at _ _ _ _ Hd4). red_res.
  change (is_equals (kw "else" el) t.KW "else") with true. cbn [negb].
  rewrite (advance_at _ _ _ _ Hd4) by (destruct s2; [exact (follows_nonempty _ _ Hf) | discriminate]).
  pose proof (drop_S_tail _ _ _ _ Hd4) as Hd5.
  destruct (H2 m toks _ _ ltac:(cbn [level]; lia) Hd5 Hf) as [a2 ->]. red_res.
  eapply read_as_intro; [reflexivity |].
  cbn [length]. rewrite !length_app. cbn [length]. rewrite !length_app. cbn [length]. lia.
Qed.

Lemma params_loop_reads more : forall trailing k toks i rp rest res acc,
  (2 * length more + 2 <= k)%nat ->
  drop i toks = more_params_tokens more ++ trailing_tokens trailing
                  ++ sym t.R_PAREN rp :: rest ->
  rest <> [] ->
  exists a,
    func_def_params_loop k res acc (parser_at toks i) =
      Done (inr (mkParseResult (error res) (node res) a,
                 acc ++ map (fun cp => param_token (snd cp)) more,
                 parser_at toks (i + length (more_params_tokens more ++ trailing_tokens trailing)))).
Proof.
  induction more as [| [c [y ys]] more IH]; intros trailing k toks i rp rest res acc Hk Hd Hne.
  - cbn [more_params_tokens flat_map app map length] in *. rewrite app_nil_r.
    destruct k as [| k]; [lia |]. cbn [func_def_params_loop].
    destruct trailing as [c |]; cbn [trailing_tokens app length] in *.
    + rewrite (cur_at _ _ _ _ Hd). red_res.
      change (is_type (sym t.COMMA c) [t.COMMA]) with true. cbn iota.
      rewrite (advance_at _ _ _ _ Hd) by discriminate.
      pose proof (drop_S_tail _ _ _ _ Hd) as Hd1.
      rewrite (cur_at _ _ _ _ Hd1). red_res.
      change (is_type (sym t.R_PAREN rp) [t.IDENTIFIER]) with false.
      change (is_type (sym t.R_PAREN rp) [t.R_PAREN]) with true. cbn iota.
      eexists. replace (i + 1)%nat with (S i) by lia. reflexivity.
    + rewrite (cur_at _ _ _ _ Hd). red_res.
      change (is_type (sym t.R_PAREN rp) [t.COMMA]) with false. cbn iota.
      exists (advancements res). rewrite Nat.add_0_r. destruct res; reflexivity.
  - cbn [more_params_tokens flat_map app map length fst snd] in *.
    fold (more_params_tokens more) in *.
    destruct k as [| k]; [lia |]. cbn [func_def_params_loop].
    rewrite (cur_at _ _ _ _ Hd). red_res.
    change (is_type (sym t.COMMA c) [t.COMMA]) with true. cbn iota.
    rewrite (advance_at _ _ _ _ Hd) by discriminate.
    pose proof (drop_S_tail _ _ _ _ Hd) as Hd1.
    rewrite (cur_at _ _ _ _ Hd1). red_res.
    change (is_type (param_token (y, ys)) [t.IDENTIFIER]) with true. cbn iota.
    rewrite (advance_at _ _ _ _ Hd1)
      by (destruct (more_params_tokens more); [destruct trailing |]; discriminate).
    pose proof (drop_S_tail _ _ _ _ Hd1) as Hd2.
    destruct (IH trailing k toks _ rp rest (register_adv (register_adv res))
                (acc ++ [param_token (y, ys)]) ltac:(lia) Hd2 Hne) as [a ->].
    exists a. rewrite <- app_assoc. cbn [app length].
    replace (i + S (S (length (more_params_tokens more ++ trailing_tokens trailing))))%nat
      with (S (S i) + length (more_params_tokens more ++ trailing_tokens trailing))%nat by lia.
    reflexivity.
Qed.

Lemma func_def_finish_reads self res name pos_start parameters toks i rp co s nd rest a0 :
  drop i toks = sym t.R_PAREN rp :: sym t.COLON co :: s ++ rest ->
  rest <> [] ->
  res = mkParseResult None None a0 ->
  read_as toks (S (S i)) s nd (self P_expr (parser_at toks (S (S i)))) ->
  exists a,
    func_def_finish self res name pos_start parameters (parser_at toks i) =
      Done (mkParseResult None
              (Some (node_set_pos (FuncDefNode_init name parameters nd)
                       (Some pos_start) (node_pos_end nd))) a,
            parser_at toks (S (S i) + length s)).
Proof.
  intros Hd Hne -> [a He]. unfold func_def_finish.
  rewrite (cur_at _ _ _ _ Hd). red_res.
  change (is_type (sym t.R_PAREN rp) [t.R_PAREN]) with true. cbn [negb].
  rewrite (advance_at _ _ _ _ Hd) by discriminate.
  pose proof (drop_S_tail _ _ _ _ Hd) as Hd1.
  rewrite (cur_at _ _ _ _ Hd1). red_res.
  change (is_type (sym t.COLON co) [t.COLON]) with true. cbn [negb].
  rewrite (advance_at _ _ _ _ Hd1) by (destruct s; [exact Hne | discriminate]).
  rewrite He. red_res. eauto.
Qed.

Lemma func_def_reads f name lp ps rp co sb ndb :
  reads P_expr sb ndb ->
  reads P_func_def
    (kw "fun" f :: name_tokens name ++ sym t.L_PAREN lp :: params_tokens ps
       ++ sym t.R_PAREN rp :: sym t.COLON co :: sb)
    (node_set_pos (FuncDefNode_init (name_string name) (params_list ps) ndb)
       (Some (fst f)) (node_pos_end ndb)).
Proof.
  intros Hb n toks i rest Hn Hd Hf.
  cbn [length level] in Hn. rewrite !length_app in Hn. cbn [length] in Hn.
  rewrite !length_app in Hn. cbn [length] in Hn.
  destruct n as [| m]; [lia |].
  cbn [parse_production]. unfold func_def.
  cbn [app] in Hd. rewrite <- !app_assoc in Hd. cbn [app] in Hd.
  rewrite <- !app_assoc in Hd. cbn [app] in Hd.
  rewrite (cur_at _ _ _ _ Hd). red_res.
  rewrite (advance_at _ _ _ _ Hd) by (destruct name; discriminate).
  pose proof (drop_S_tail _ _ _ _ Hd) as Hd1.
  pose proof (follows_nonempty _ _ Hf) as Hne.
  assert (Hrest : forall nm res i1 a0,
            drop i1 toks = sym t.L_PAREN lp :: params_tokens ps
                             ++ sym t.R_PAREN rp :: sym t.COLON co :: sb ++ rest ->
            res = mkParseResult None None a0 ->
            exists a,
              (cur (parser_at toks i1) ≫= λ tok0,
                 if negb (is_type tok0 [t.L_PAREN])
                 then Done (failure res
                              (Some (syntax_error_at tok0
                                       (if bool_decide (nm = "")
                                        then "Expected Identifier or '('"
                                        else "Expected '('"))), parser_at toks i1)
                 else
                   cur (advance (parser_at toks i1)) ≫= λ tok2,
                     if is_type tok2 [t.IDENTIFIER]
                     then
                       func_def_params_loop m (register_adv (register_adv res)) ([] ++ [tok2])
                         (advance (advance (parser_at toks i1))) ≫= λ lp,
                         match lp with
                         | inl ret => Done ret
                         | inr (res1, parameters, p) =>
                             func_def_finish (pp m) res1 nm (tok_pos_start (kw "fun" f))
                               parameters p
                         end
                     else func_def_finish (pp m) (register_adv res) nm
                            (tok_pos_start (kw "fun" f)) [] (advance (parser_at toks i1)))
              = Done (mkParseResult None
                        (Some (node_set_pos (FuncDefNode_init nm (params_list ps) ndb)
                                 (Some (fst f)) (node_pos_end ndb))) a,
                      parser_at toks
                        (i1 + S (length (params_tokens ps) + S (S (length sb)))))).
  { intros nm res i1 a0 Hd2 ->.
    rewrite (cur_at _ _ _ _ Hd2). red_res.
    change (is_type (sym t.L_PAREN lp) [t.L_PAREN]) with true. cbn [negb].
    rewrite (advance_at _ _ _ _ Hd2) by (destruct (params_tokens ps); discriminate).
    pose proof (drop_S_tail _ _ _ _ Hd2) as Hd3.
    destruct ps as [| [x xs] more trailing].
    - cbn [params_tokens params_list app length] in *.
      rewrite (cur_at _ _ _ _ Hd3). red_res.
      change (is_type (sym t.R_PAREN rp) [t.IDENTIFIER]) with false. cbn iota.
      destruct (func_def_finish_reads (pp m) (register_adv (mkParseResult None None a0)) nm
                  (tok_pos_start (kw "fun" f)) [] toks (S i1) rp co sb ndb rest (a0 + 1)%nat
                  Hd3 Hne eq_refl) as [a ->].
      { apply (Hb m toks _ rest); [cbn [level]; lia | | exact Hf].
        apply (drop_S_tail _ _ _ _ (drop_S_tail _ _ _ _ Hd3)). }
      exists a. do 2 f_equal. f_equal. lia.
    - cbn [params_tokens params_list] in *.
      cbn [app] in Hd3. rewrite <- app_assoc in Hd3.
      rewrite (cur_at _ _ _ _ Hd3). red_res.
      change (is_type (param_token (x, xs)) [t.IDENTIFIER]) with true. cbn iota.
      rewrite (advance_at _ _ _ _ Hd3)
        by (destruct (more_params_tokens more); [destruct trailing |]; discriminate).
      pose proof (drop_S_tail _ _ _ _ Hd3) as Hd4.
      cbn [length] in Hn. rewrite length_app in Hn.
      assert (Hlen : (2 * length more <= length (more_params_tokens more))%nat).
      { clear. induction more as [| ? more IH]; cbn; [lia |].
        fold (more_params_tokens more). lia. }
      destruct (params_loop_reads more trailing m toks _ rp (sym t.COLON co :: sb ++ rest)
                  (register_adv (register_adv (mkParseResult None None a0)))
                  ([] ++ [param_token (x, xs)]) ltac:(lia) Hd4 ltac:(discriminate)) as [a1 ->].
      red_res.
      pose proof Hd4 as Hd5. rewrite app_assoc in Hd5. apply drop_after in Hd5.
      destruct (func_def_finish_reads (pp m) (mkParseResult None None a1) nm
                  (tok_pos_start (kw "fun" f))
                  (([] ++ [param_token (x, xs)]) ++ map (fun cp => param_token (snd cp)) more)
                  toks _ rp co sb ndb rest a1 Hd5 Hne eq_refl) as [a ->].
      { apply (Hb m toks _ rest); [cbn [level]; lia | | exact Hf].
        apply (drop_S_tail _ _ _ _ (drop_S_tail _ _ _ _ Hd5)). }
      exists a. cbn [app length]. do 2 f_equal. f_equal.
      rewrite !length_app. lia. }
  destruct name as [[x xs] |]; cbn [name_tokens name_string app length] in *.
  - rewrite (cur_at _ _ _ _ Hd1). red_res.
    change (is_type (param_token (x, xs)) [t.IDENTIFIER]) with true. cbn iota.
    rewrite (advance_at _ _ _ _ Hd1) by discriminate.
    pose proof (drop_S_tail _ _ _ _ Hd1) as Hd2.
    destruct (Hrest (tok_name (param_token (x, xs))) _ _ (0 + 1 + 1 + 1)%nat Hd2 eq_refl) as [a E].
    eapply read_as_intro; [exact E |].
    repeat first [rewrite length_app | progress cbn [length app] ]. lia.
  - rewrite (cur_at _ _ _ _ Hd1). red_res.
    change (is_type (sym t.L_PAREN lp) [t.IDENTIFIER]) with false. cbn iota.
    destruct (Hrest "" _ _ (0 + 1 + 1)%nat Hd1 eq_refl) as [a E].
    eapply read_as_intro; [exact E |].
    repeat first [rewrite length_app | progress cbn [length app] ]. lia.
Qed.

(** ** From an atom up to an expression *)

Lemma atom_reads_if ok sp tl nd :
  reads_with P_if_expr ok (kw "if" sp :: tl) nd ->
  reads_with P_atom ok (kw "if" sp :: tl) nd.
Proof.
  intros Hi n toks i rest Hn Hd Hf. cbn [level] in Hn. destruct n as [| m]; [lia |].
  cbn [parse_production]. unfold atom. rewrite (cur_at _ _ _ _ Hd). red_res.
  change (is_type (kw "if" sp) [t.INT; t.FLOAT]) with false.
  change (is_type (kw "if" sp) [t.LITERAL]) with false.
  change (is_type (kw "if" sp) [t.L_PAREN]) with false.
  change (is_type (kw "if" sp) [t.IDENTIFIER]) with false.
  change (is_equals (kw "if" sp) t.KW "if") with true. cbn iota.
  destruct (Hi m toks i rest ltac:(cbn [level]; lia) Hd Hf) as [a ->].
  red_res. now eexists.
Qed.

Lemma atom_reads_fun ok sp tl nd :
  reads_with P_func_def ok (kw "fun" sp :: tl) nd ->
  reads_with P_atom ok (kw "fun" sp :: tl) nd.
Proof.
  intros Hi n toks i rest Hn Hd Hf. cbn [level] in Hn. destruct n as [| m]; [lia |].
  cbn [parse_production]. unfold atom. rewrite (cur_at _ _ _ _ Hd). red_res.
  change (is_type (kw "fun" sp) [t.INT; t.FLOAT]) with false.
  change (is_type (kw "fun" sp) [t.LITERAL]) with false.
  change (is_type (kw "fun" sp) [t.L_PAREN]) with false.
  change (is_type (kw "fun" sp) [t.IDENTIFIER]) with false.
  change (is_equals (kw "fun" sp) t.KW "if") with false.
  change (is_equals (kw "fun" sp) t.KW "fun") with true. cbn iota.
  destruct (Hi m toks i rest ltac:(cbn [level]; lia) Hd Hf) as [a ->].
  red_res. now eexists.
Qed.

Lemma call_lift (ok : Token -> bool) s nd :
  reads_with P_atom ok s nd ->
  (forall tok, ok tok = true -> after_call tok = true) ->
  reads_with P_call ok s nd.
Proof.
  intros Ha Hok n toks i rest Hn Hd Hf. destruct n as [| m]; [cbn in Hn; lia |].
  cbn [parse_production]. unfold call.
  destruct (Ha m toks i rest ltac:(cbn [level] in *; lia) Hd Hf) as [a ->].
  red_res.
  destruct rest as [| r0 rest]; [contradiction |]. cbn in Hf.
  rewrite (cur_at _ _ _ _ (drop_after _ _ _ _ Hd)). red_res.
  apply Hok in Hf. unfold after_call in Hf. apply negb_true_iff in Hf. rewrite Hf.
  now eexists.
Qed.

Lemma power_lift (ok : Token -> bool) s nd :
  reads_with P_call ok s nd ->
  (forall tok, ok tok = true -> is_operator tok [OpTag t.POW] = false) ->
  reads_with P_power ok s nd.
Proof.
  intros Hc Hok n toks i rest Hn Hd Hf. destruct n as [| m]; [cbn in Hn; lia |].
  cbn [parse_production]. unfold power. cbn [level] in Hn.
  destruct (bin_oper_enters (pp m) m P_call [OpTag t.POW] (Some P_factor) toks i s nd) as [a ->].
  { apply (Hc m toks i rest); [cbn [level]; lia | exact Hd | exact Hf]. }
  destruct rest as [| r0 rest]; [contradiction |]. cbn in Hf.
  destruct m as [| k]; [lia |].
  rewrite (bin_oper_loop_leaves _ _ _ _ _ _ _ _ _ _ (drop_after _ _ _ _ Hd) (Hok _ Hf)).
  now eexists.
Qed.

Lemma after_expr_facts tok :
  after_expr tok = true ->
  after_comp tok = true /\ is_operator tok logic_operators = false.
Proof.
  unfold after_expr, after_comp. intros [H1 H2]%andb_true_iff.
  apply negb_true_iff in H2. now split.
Qed.

Lemma after_comp_facts tok :
  after_comp tok = true ->
  after_sum tok = true /\ is_operator tok cmp_operators = false.
Proof. destruct tok as [[] ? ? ?]; vm_compute; intuition congruence. Qed.

Lemma after_sum_facts tok :
  after_sum tok = true ->
  after_term tok = true /\ is_operator tok [OpTag t.PLUS; OpTag t.MINUS] = false.
Proof. destruct tok as [[] ? ? ?]; vm_compute; intuition congruence. Qed.

Lemma after_term_facts tok :
  after_term tok = true ->
  after_power tok = true /\ is_operator tok [OpTag t.MUL; OpTag t.DIV] = false.
Proof. destruct tok as [[] ? ? ?]; vm_compute; intuition congruence. Qed.

Lemma after_expr_all tok :
  after_expr tok = true ->
  after_call tok = true /\ is_operator tok [OpTag t.POW] = false /\
  is_operator tok [OpTag t.MUL; OpTag t.DIV] = false /\
  is_operator tok [OpTag t.PLUS; OpTag t.MINUS] = false /\
  is_operator tok cmp_operators = false /\
  is_operator tok logic_operators = false.
Proof.
  intros H. destruct (after_expr_facts _ H) as [Ha Hl].
  destruct (after_comp_facts _ Ha) as [Hb Hc].
  destruct (after_sum_facts _ Hb) as [Hd Hs].
  destruct (after_term_facts _ Hd) as [He Ht].
  destruct (after_power_facts _ He) as [Hf Hp]. auto 10.
Qed.

Lemma begins_impl (ok ok' : Token -> bool) s :
  (forall tok, ok tok = true -> ok' tok = true) -> begins ok s -> begins ok' s.
Proof. destruct s; [contradiction | cbn; auto]. Qed.

Lemma keyword_if_fun_facts tok :
  keyword_if_fun tok = true ->
  not_sign tok = true /\ not_kw "not" tok = true /\ not_kw "let" tok = true.
Proof.
  unfold keyword_if_fun, not_sign, not_kw, is_equals, is_type, value_is.
  destruct tok as [[] [| | v] ? ?]; cbn; try discriminate.
  intros [H | H]%orb_true_iff; apply bool_decide_eq_true in H; subst; now vm_compute.
Qed.

Lemma expr_lift s nd :
  begins keyword_if_fun s ->
  reads_with P_atom after_expr s nd -> reads P_expr s nd.
Proof.
  intros Hb Ha.
  assert (Hs := begins_impl _ _ _ (fun tok H => proj1 (keyword_if_fun_facts tok H)) Hb).
  assert (Hn := begins_impl _ _ _ (fun tok H => proj1 (proj2 (keyword_if_fun_facts tok H))) Hb).
  assert (Hl := begins_impl _ _ _ (fun tok H => proj2 (proj2 (keyword_if_fun_facts tok H))) Hb).
  apply expr_reads; [exact Hl |]. apply bin_reads_one; [| intros ? ?; now apply after_expr_all].
  apply comp_reads; [exact Hn |]. apply bin_reads_one; [| intros ? ?; now apply after_expr_all].
  apply arith_reads. apply bin_reads_one; [| intros ? ?; now apply after_expr_all].
  apply term_reads. apply bin_reads_one; [| intros ? ?; now apply after_expr_all].
  apply factor_reads_unsigned; [exact Hs |].
  apply power_lift; [| intros ? ?; now apply after_expr_all].
  apply call_lift; [| intros ? ?; now apply after_expr_all].
  exact Ha.
Qed.

(** ** The first token of a phrase *)

Lemma first_atom_factor tok : first_atom tok = true -> first_factor tok = true.
Proof. destruct tok as [[] ? ? ?]; vm_compute; congruence. Qed.

Lemma first_factor_comp tok : first_factor tok = true -> first_comp tok = true.
Proof. unfold first_comp. now intros ->. Qed.

Lemma first_comp_expr tok : first_comp tok = true -> first_expr tok = true.
Proof.
  unfold first_comp, is_equals. destruct tok as [[] ? ? ?]; vm_compute; try congruence.
Qed.

Lemma first_atom_not_sign tok : first_atom tok = true -> not_sign tok = true.
Proof. destruct tok as [[] ? ? ?]; vm_compute; congruence. Qed.

Lemma first_factor_not_kw v tok : first_factor tok = true -> not_kw v tok = true.
Proof.
  unfold not_kw, is_equals. destruct tok as [[] ? ? ?]; vm_compute; congruence.
Qed.

Lemma first_comp_not_let tok : first_comp tok = true -> not_kw "let" tok = true.
Proof.
  unfold first_comp. intros [H | H]%orb_true_iff.
  - now apply first_factor_not_kw.
  - unfold not_kw, is_equals, value_is in *. destruct tok as [[] [| | v] ? ?]; try discriminate.
    cbn in *. apply bool_decide_eq_true in H. now subst.
Qed.

Lemma grammar_first :
  (forall e, begins first_expr (expr_tokens e)) /\
  (forall l, begins first_comp (logic_tokens l)) /\
  (forall c, begins first_comp (comp_tokens c)) /\
  (forall k, begins first_factor (cmp_tokens k)) /\
  (forall s, begins first_factor (gsum_tokens s)) /\
  (forall tm, begins first_factor (gterm_tokens tm)) /\
  (forall f, begins first_factor (gfactor_tokens f)) /\
  (forall p, begins first_atom (gpower_tokens p)) /\
  (forall c, begins first_atom (call_tokens c)) /\
  (forall m : GMore, True) /\
  (forall a, begins first_atom (gatom_tokens a)).
Proof.
  apply grammar_mutind;
    cbn [expr_tokens logic_tokens comp_tokens cmp_tokens gsum_tokens gterm_tokens
         gfactor_tokens gpower_tokens call_tokens more_tokens gatom_tokens];
    intros; try exact I; try assumption; try (now apply begins_app); try reflexivity.
  - eapply begins_impl; [apply first_comp_expr | assumption].
  - eapply begins_impl; [apply first_factor_comp | assumption].
  - destruct op; reflexivity.
  - eapply begins_impl; [apply first_atom_factor | assumption].
  - destruct n; reflexivity.
Qed.

(** ** Every phrase *)

Lemma logic_count_le l : (logic_count l <= length (logic_tokens l))%nat.
Proof. induction l; cbn; [lia |]. rewrite length_app. cbn. lia. Qed.
Lemma cmp_count_le k : (cmp_count k <= length (cmp_tokens k))%nat.
Proof. induction k; cbn; [lia |]. rewrite length_app. cbn. lia. Qed.
Lemma gsum_count_le s : (gsum_count s <= length (gsum_tokens s))%nat.
Proof. induction s; cbn; [lia |]. rewrite length_app. cbn. lia. Qed.
Lemma gterm_count_le tm : (gterm_count tm <= length (gterm_tokens tm))%nat.
Proof. induction tm; cbn; [lia |]. rewrite length_app. cbn. lia. Qed.

Lemma term_of_chain_reads tm :
  chain_reads P_factor [OpTag t.MUL; OpTag t.DIV] (gterm_count tm) (gterm_tokens tm)
    (gterm_node tm) ->
  reads P_term (gterm_tokens tm) (gterm_node tm).
Proof.
  intros H. apply term_reads. eapply bin_reads_chain; [exact H | apply gterm_count_le |].
  apply after_term_facts.
Qed.

Lemma sum_of_chain_reads s :
  chain_reads P_term [OpTag t.PLUS; OpTag t.MINUS] (gsum_count s) (gsum_tokens s)
    (gsum_node s) ->
  reads P_arith_expr (gsum_tokens s) (gsum_node s).
Proof.
  intros H. apply arith_reads. eapply bin_reads_chain; [exact H | apply gsum_count_le |].
  apply after_sum_facts.
Qed.

Lemma parser_reads_grammar :
  (forall e, reads P_expr (expr_tokens e) (expr_node e)) /\
  (forall l, chain_reads P_comp_expr logic_operators (logic_count l)
               (logic_tokens l) (logic_node l)) /\
  (forall c, reads P_comp_expr (comp_tokens c) (comp_node c)) /\
  (forall k, chain_reads P_arith_expr cmp_operators (cmp_count k)
               (cmp_tokens k) (cmp_node k)) /\
  (forall s, chain_reads P_term [OpTag t.PLUS; OpTag t.MINUS] (gsum_count s)
               (gsum_tokens s) (gsum_node s)) /\
  (forall tm, chain_reads P_factor [OpTag t.MUL; OpTag t.DIV] (gterm_count tm)
                (gterm_tokens tm) (gterm_node tm)) /\
  (forall f, reads P_factor (gfactor_tokens f) (gfactor_node f)) /\
  (forall p, reads P_power (gpower_tokens p) (gpower_node p)) /\
  (forall c, reads P_call (call_tokens c) (call_node c)) /\
  (forall m, more_reads m) /\
  (forall a, reads P_atom (gatom_tokens a) (gatom_node a)).
Proof.
  destruct grammar_first as (Fe & Fl & Fc & Fk & Fs & Ft & Ff & Fp & Fcall & _ & Fa).
  apply grammar_mutind;
    cbn [expr_tokens logic_tokens comp_tokens cmp_tokens gsum_tokens gterm_tokens
         gfactor_tokens gpower_tokens call_tokens more_tokens gatom_tokens
         expr_node logic_node comp_node cmp_node gsum_node gterm_node
         gfactor_node gpower_node call_node more_nodes gatom_node
         logic_count cmp_count gsum_count gterm_count].
  - (* let *)
    intros l x xs eq v IH. now apply expr_reads_let.
  - (* if *)
    intros sp c IHc th e1 IH1 el e2 IH2.
    apply expr_lift; [reflexivity |]. apply atom_reads_if. now apply if_reads.
  - (* fun *)
    intros f name lp ps rp co body IH.
    apply expr_lift; [reflexivity |]. apply atom_reads_fun. now apply func_def_reads.
  - (* a chain of and/or *)
    intros l IH. apply expr_reads.
    + eapply begins_impl; [apply first_comp_not_let | apply Fl].
    + eapply bin_reads_chain; [exact IH | apply logic_count_le | apply after_expr_facts].
  - intros c IH. now apply chain_one.
  - intros l IHl op sp c IHc. apply chain_more; try assumption; destruct op; reflexivity.
  - (* not *)
    intros sp c IH. now apply comp_reads_not.
  - (* a chain of comparisons *)
    intros k IH. apply comp_reads.
    + eapply begins_impl; [apply first_factor_not_kw | apply Fk].
    + eapply bin_reads_chain; [exact IH | apply cmp_count_le | apply after_comp_facts].
  - intros s IH. apply chain_one. now apply sum_of_chain_reads.
  - intros k IHk op sp s IHs. apply chain_more; try assumption;
      [now apply sum_of_chain_reads | destruct op; reflexivity | destruct op; reflexivity].
  - intros tm IH. apply chain_one. now apply term_of_chain_reads.
  - intros s IHs op sp tm IHtm. apply chain_more; try assumption;
      [now apply term_of_chain_reads | destruct op; reflexivity | destruct op; reflexivity].
  - intros f IH. now apply chain_one.
  - intros tm IHtm op sp f IHf. apply chain_more; try assumption; destruct op; reflexivity.
  - (* a signed factor *)
    intros op sp f IH. now apply factor_reads_signed.
  - intros p IH. apply factor_reads_unsigned; [| exact IH].
    eapply begins_impl; [apply first_atom_not_sign | apply Fp].
  - intros c IH. now apply power_reads_one.
  - intros c IHc sp f IHf. now apply power_reads_op.
  - intros a IH. now apply call_reads_none.
  - intros a IH lp rp. now apply call_reads_empty.
  - intros a IHa lp first IHf more IHm rp. apply call_reads_args; auto.
  - apply more_reads_nil.
  - intros comma e IHe more IHm. now apply more_reads_cons.
  - intros n sp. apply atom_reads_number.
  - intros s sp. apply atom_reads_literal.
  - intros s sp. apply atom_reads_ident.
  - intros lp e IH rp. now apply atom_reads_paren.
Qed.

Lemma after_expr_end eof : is_type eof [t.EOF; t.NEWLINE] = true -> after_expr eof = true.
Proof.
  unfold after_expr, is_operator, is_equals. destruct eof as [[] ? ? ?]; vm_compute; congruence.
Qed.

(** X15: for every phrase of the grammar, [make_ast] on its tokens,
    closed by EOF or NEWLINE, returns the tree of the phrase and no error:
    [let], [if]/[then]/[else], [fun] with or without a name (a comma may
    follow the last parameter), [and]/[or], [not], the six comparisons,
    the arithmetic levels with their precedence, calls with their
    arguments in order, numbers, literals, identifiers and parentheses.
    Whatever follows the closing EOF or NEWLINE is not read. *)
Theorem parser_reads_every_phrase e eof rest fuel :
  is_type eof [t.EOF; t.NEWLINE] = true ->
  (8 * length (expr_tokens e) + 8 <= fuel)%nat ->
  make_ast fuel (expr_tokens e ++ eof :: rest) = Done (Some (expr_node e), None).
Proof.
  intros Heof Hfuel. unfold make_ast, parse. rewrite Parser_init_at.
  destruct (proj1 parser_reads_grammar e fuel (expr_tokens e ++ eof :: rest) 0%nat
              (eof :: rest) Hfuel eq_refl (after_expr_end _ Heof)) as [a ->].
  red_res. rewrite (cur_at _ _ eof rest) by apply drop_app_length.
  red_res. rewrite Heof. reflexivity.
Qed.

(* ===================================================================== *)
(** * Syntax errors *)
(* ===================================================================== *)

Section Rise.
Variable self : Production -> Parser -> ParseM.

Lemma bin_oper_error k fl ops fr p r p' err :
  self fl p = Done (r, p') -> error r = Some err ->
  bin_oper self k fl ops fr p =
    Done (mkParseResult (Some err) None (0 + advancements r), p').
Proof. intros H He. unfold bin_oper. rewrite H. red_res. rewrite He. reflexivity. Qed.

Lemma call_error k p r p' err :
  self P_atom p = Done (r, p') -> error r = Some err ->
  call self k p = Done (mkParseResult (Some err) None (0 + advancements r), p').
Proof. intros H He. unfold call. rewrite H. red_res. rewrite He. reflexivity. Qed.
End Rise.

Lemma error_rises_to_factor n toks i hd r p' err :
  toks !! i = Some hd -> not_sign hd = true ->
  pp n P_atom (parser_at toks i) = Done (r, p') -> error r = Some err ->
  exists a,
    pp (S (S (S n))) P_factor (parser_at toks i) = Done (mkParseResult (Some err) None a, p').
Proof.
  intros Hi Hsign Ha He. unfold not_sign in Hsign. apply negb_true_iff in Hsign.
  assert (Hcur : cur (parser_at toks i) = Done hd).
  { unfold cur, parser_at. cbn. now rewrite Hi. }
  assert (H1 : pp (S n) P_call (parser_at toks i) =
               Done (mkParseResult (Some err) None (0 + advancements r), p')).
  { cbn [parse_production]. eapply call_error; eassumption. }
  remember (S n) as n1 eqn:E1. clear E1.
  assert (H2 : pp (S n1) P_power (parser_at toks i) =
               Done (mkParseResult (Some err) None (0 + (0 + advancements r)), p')).
  { cbn [parse_production]. unfold power.
    exact (bin_oper_error _ _ _ _ _ _ _ _ _ H1 eq_refl). }
  remember (S n1) as n2 eqn:E2. clear E2.
  eexists. cbn [parse_production]. unfold factor. rewrite Hcur. red_res. rewrite Hsign.
  exact H2.
Qed.

Lemma error_rises_from_factor n toks i hd a p' err :
  toks !! i = Some hd -> not_kw "not" hd = true -> not_kw "let" hd = true ->
  pp n P_factor (parser_at toks i) = Done (mkParseResult (Some err) None a, p') ->
  exists a',
    pp (S (S (S (S n)))) P_expr (parser_at toks i) =
      Done (mkParseResult (Some err) None a', p').
Proof.
  intros Hi Hnot Hlet H3. unfold not_kw in *. apply negb_true_iff in Hnot, Hlet.
  assert (Hcur : cur (parser_at toks i) = Done hd).
  { unfold cur, parser_at. cbn. now rewrite Hi. }
  assert (H4 : pp (S n) P_term (parser_at toks i) =
               Done (mkParseResult (Some err) None (0 + a), p')).
  { cbn [parse_production]. unfold term.
    exact (bin_oper_error _ _ _ _ _ _ _ _ _ H3 eq_refl). }
  remember (S n) as n1 eqn:E1. clear E1.
  assert (H5 : pp (S n1) P_arith_expr (parser_at toks i) =
               Done (mkParseResult (Some err) None (0 + (0 + a)), p')).
  { cbn [parse_production]. unfold arith_expr.
    exact (bin_oper_error _ _ _ _ _ _ _ _ _ H4 eq_refl). }
  remember (S n1) as n2 eqn:E2. clear E2.
  assert (H6 : exists a', pp (S n2) P_comp_expr (parser_at toks i) =
               Done (mkParseResult (Some err) None a', p')).
  { cbn [parse_production]. unfold comp_expr. rewrite Hcur. red_res. rewrite Hnot.
    erewrite bin_oper_error; [| exact H5 | reflexivity]. red_res. eauto. }
  destruct H6 as [a6 H6].
  remember (S n2) as n3 eqn:E3. clear E3.
  cbn [parse_production]. unfold expr. rewrite Hcur. red_res. rewrite Hlet.
  erewrite bin_oper_error; [| exact H6 | reflexivity]. red_res. eauto.
Qed.

(** An error that [atom] reports reaches the caller of [expr] as it is:
    every production in between returns at the first error. *)
Lemma error_rises m toks i hd r p' err :
  toks !! i = Some hd -> passed_down hd = true ->
  pp m P_atom (parser_at toks i) = Done (r, p') -> error r = Some err ->
  exists a, pp (7 + m) P_expr (parser_at toks i) = Done (mkParseResult (Some err) None a, p').
Proof.
  intros Hi Hp Ha He.
  apply andb_true_iff in Hp as [Hp Hlet]. apply andb_true_iff in Hp as [Hsign Hnot].
  destruct (error_rises_to_factor _ _ _ _ _ _ _ Hi Hsign Ha He) as [a H3].
  exact (error_rises_from_factor _ _ _ _ _ _ _ Hi Hnot Hlet H3).
Qed.

Lemma make_ast_error m toks hd j tokj err :
  toks !! 0%nat = Some hd -> passed_down hd = true ->
  toks !! j = Some tokj ->
  (exists r, pp m P_atom (parser_at toks 0) = Done (r, parser_at toks j) /\
             error r = Some err) ->
  make_ast (7 + m) toks = Done (None, Some err).
Proof.
  intros H0 Hp Hj (r & Ha & He). unfold make_ast, parse. rewrite Parser_init_at.
  destruct (error_rises _ _ _ _ _ _ _ H0 Hp Ha He) as [a ->]. red_res.
  unfold cur, parser_at. cbn. rewrite Hj. reflexivity.
Qed.

(** X16: a token list whose first token cannot start an expression (a
    closing parenthesis, an operator other than a sign, a keyword other
    than [let], [not], [if], [fun], or EOF: the empty program) gives no
    node and the error [Expected Value: ...] at that token. *)
Theorem value_expected bad rest fuel :
  starts_value bad = false -> (8 <= fuel)%nat ->
  make_ast fuel (bad :: rest) =
    Done (None, Some (syntax_error_at bad
                        "Expected Value: identifier, int, float, '+', '-' or '('")).
Proof.
  intros Hs Hfuel. replace fuel with (7 + S (fuel - 8))%nat by lia.
  unfold starts_value in Hs. repeat (apply orb_false_iff in Hs as [Hs ?]).
  apply (make_ast_error _ _ bad 0%nat bad); [reflexivity | | reflexivity |].
  - unfold passed_down, not_sign, not_kw.
    repeat (apply andb_true_iff; split); apply negb_true_iff; try assumption.
    clear - Hs. destruct bad as [[] ? ? ?]; revert Hs; vm_compute; congruence.
  - cbn [parse_production]. unfold atom. unfold cur, parser_at. cbn [cur_tok lookup list_lookup].
    red_res.
    replace (is_type bad [t.INT; t.FLOAT]) with false
      by (clear - Hs; destruct bad as [[] ? ? ?]; revert Hs; vm_compute; congruence).
    replace (is_type bad [t.LITERAL]) with false
      by (clear - Hs; destruct bad as [[] ? ? ?]; revert Hs; vm_compute; congruence).
    replace (is_type bad [t.L_PAREN]) with false
      by (clear - Hs; destruct bad as [[] ? ? ?]; revert Hs; vm_compute; congruence).
    replace (is_type bad [t.IDENTIFIER]) with false
      by (clear - Hs; destruct bad as [[] ? ? ?]; revert Hs; vm_compute; congruence).
    match goal with H : is_equals bad t.KW "if" = false |- _ => rewrite H end.
    match goal with H : is_equals bad t.KW "fun" = false |- _ => rewrite H end.
    eexists. split; reflexivity.
Qed.

(** X17: a phrase followed by a token that neither continues it nor ends
    the line gives the error [Invalid Syntax] (kind [p]) at that token,
    and [make_ast] hands back the tree of the phrase together with the
    error. *)
Theorem leftover_token_is_invalid_syntax e bad rest fuel :
  after_expr bad = true -> is_type bad [t.EOF; t.NEWLINE] = false ->
  (8 * length (expr_tokens e) + 8 <= fuel)%nat ->
  make_ast fuel (expr_tokens e ++ bad :: rest) =
    Done (Some (expr_node e),
          Some (set_ecode (syntax_error_at bad "Invalid Syntax") "p")).
Proof.
  intros Hbad Hend Hfuel. unfold make_ast, parse. rewrite Parser_init_at.
  destruct (proj1 parser_reads_grammar e fuel (expr_tokens e ++ bad :: rest) 0%nat
              (bad :: rest) Hfuel eq_refl Hbad) as [a ->].
  red_res. rewrite (cur_at _ _ bad rest) by apply drop_app_length.
  red_res. rewrite Hend. reflexivity.
Qed.

(** X18: an opening parenthesis and a phrase, followed by a token that is
    not the closing parenthesis, gives no node and the error
    [Expected ')'] at that token. *)
Theorem unclosed_parenthesis l e bad rest fuel :
  after_expr bad = true -> is_type bad [t.R_PAREN] = false ->
  (8 * length (expr_tokens e) + 16 <= fuel)%nat ->
  make_ast fuel (sym t.L_PAREN l :: expr_tokens e ++ bad :: rest) =
    Done (None, Some (syntax_error_at bad "Expected ')'")).
Proof.
  intros Hbad Hclose Hfuel.
  set (toks := sym t.L_PAREN l :: expr_tokens e ++ bad :: rest).
  assert (Hd : drop 0 toks = sym t.L_PAREN l :: expr_tokens e ++ bad :: rest) by reflexivity.
  replace fuel with (7 + S (fuel - 8))%nat by lia.
  apply (make_ast_error _ toks (sym t.L_PAREN l) (1 + length (expr_tokens e)) bad);
    [reflexivity | reflexivity | |].
  - eapply drop_lookup. apply (drop_after _ 1%nat (expr_tokens e)). reflexivity.
  - cbn [parse_production]. unfold atom. rewrite (cur_at _ _ _ _ Hd). red_res.
    change (is_type (sym t.L_PAREN l) [t.INT; t.FLOAT]) with false.
    change (is_type (sym t.L_PAREN l) [t.LITERAL]) with false.
    change (is_type (sym t.L_PAREN l) [t.L_PAREN]) with true. cbn iota.
    rewrite (advance_at _ _ _ _ Hd) by (destruct (expr_tokens e); discriminate).
    pose proof (drop_S_tail _ _ _ _ Hd) as Hd1.
    destruct (proj1 parser_reads_grammar e (fuel - 8)%nat toks 1%nat (bad :: rest)
                ltac:(cbn [level]; lia) Hd1 Hbad) as [a ->].
    red_res.
    rewrite (cur_at _ _ _ _ (drop_after _ _ _ _ Hd1)). red_res.
    rewrite Hclose. eexists. split; reflexivity.
Qed.

(** X19: [if] and a condition, followed by a token that is not [then],
    gives the error [Expected 'then'] at that token; with [then] and a
    phrase, followed by a token that is not [else], the error
    [Expected 'else']: the [else] branch is not optional. *)
Theorem if_needs_then_and_else sp c bad rest fuel :
  (after_comp bad = true -> is_equals bad t.KW "then" = false ->
   (8 * length (comp_tokens c) + 16 <= fuel)%nat ->
   make_ast fuel (kw "if" sp :: comp_tokens c ++ bad :: rest) =
     Done (None, Some (syntax_error_at bad "Expected 'then'"))) /\
  (forall th e1,
     after_expr bad = true -> is_equals bad t.KW "else" = false ->
     (8 * (length (comp_tokens c) + length (expr_tokens e1)) + 24 <= fuel)%nat ->
     make_ast fuel (kw "if" sp :: comp_tokens c ++ kw "then" th :: expr_tokens e1
                      ++ bad :: rest) =
       Done (None, Some (syntax_error_at bad "Expected 'else'"))).
Proof.
  split.
  - intros Hbad Hthen Hfuel.
    set (toks := kw "if" sp :: comp_tokens c ++ bad :: rest).
    assert (Hd : drop 0 toks = kw "if" sp :: comp_tokens c ++ bad :: rest) by reflexivity.
    replace fuel with (7 + S (S (fuel - 9)))%nat by lia.
    apply (make_ast_error _ toks (kw "if" sp) (1 + length (comp_tokens c)) bad);
      [reflexivity | reflexivity | |].
    + eapply drop_lookup. apply (drop_after _ 1%nat (comp_tokens c)). reflexivity.
    + cbn [parse_production]. unfold atom at 1. rewrite (cur_at _ _ _ _ Hd). red_res.
      change (is_type (kw "if" sp) [t.INT; t.FLOAT]) with false.
      change (is_type (kw "if" sp) [t.LITERAL]) with false.
      change (is_type (kw "if" sp) [t.L_PAREN]) with false.
      change (is_type (kw "if" sp) [t.IDENTIFIER]) with false.
      change (is_equals (kw "if" sp) t.KW "if") with true. cbn iota.
      unfold if_expr. red_res.
      rewrite (advance_at _ _ _ _ Hd) by (destruct (comp_tokens c); discriminate).
      pose proof (drop_S_tail _ _ _ _ Hd) as Hd1.
      destruct (proj1 (proj2 (proj2 parser_reads_grammar)) c (fuel - 9)%nat toks 1%nat
                  (bad :: rest) ltac:(cbn [level]; lia) Hd1 Hbad) as [a ->].
      red_res.
      rewrite (cur_at _ _ _ _ (drop_after _ _ _ _ Hd1)). red_res.
      rewrite Hthen. eexists. split; reflexivity.
  - intros th e1 Hbad Helse Hfuel.
    set (toks := kw "if" sp :: comp_tokens c ++ kw "then" th :: expr_tokens e1 ++ bad :: rest).
    assert (Hd : drop 0 toks = kw "if" sp :: comp_tokens c ++ kw "then" th :: expr_tokens e1
                                 ++ bad :: rest) by reflexivity.
    replace fuel with (7 + S (S (fuel - 9)))%nat by lia.
    apply (make_ast_error _ toks (kw "if" sp)
             (S (1 + length (comp_tokens c)) + length (expr_tokens e1)) bad);
      [reflexivity | reflexivity | |].
    + eapply drop_lookup. apply (drop_after _ _ (expr_tokens e1)).
      apply (drop_S_tail _ _ (kw "then" th)).
      apply (drop_after _ 1%nat (comp_tokens c)). reflexivity.
    + cbn [parse_production]. unfold atom at 1. rewrite (cur_at _ _ _ _ Hd). red_res.
      change (is_type (kw "if" sp) [t.INT; t.FLOAT]) with false.
      change (is_type (kw "if" sp) [t.LITERAL]) with false.
      change (is_type (kw "if" sp) [t.L_PAREN]) with false.
      change (is_type (kw "if" sp) [t.IDENTIFIER]) with false.
      change (is_equals (kw "if" sp) t.KW "if") with true. cbn iota.
      unfold if_expr. red_res.
      rewrite (advance_at _ _ _ _ Hd) by (destruct (comp_tokens c); discriminate).
      pose proof (drop_S_tail _ _ _ _ Hd) as Hd1.
      destruct (proj1 (proj2 (proj2 parser_reads_grammar)) c (fuel - 9)%nat toks 1%nat
                  _ ltac:(cbn [level]; lia) Hd1 eq_refl) as [a ->].
      red_res.
      pose proof (drop_after _ _ _ _ Hd1) as Hd2.
      rewrite (cur_at _ _ _ _ Hd2). red_res.
      change (is_equals (kw "then" th) t.KW "then") with true. cbn [negb].
      rewrite (advance_at _ _ _ _ Hd2) by (destruct (expr_tokens e1); discriminate).
      pose proof (drop_S_tail _ _ _ _ Hd2) as Hd3.
      destruct (proj1 parser_reads_grammar e1 (fuel - 9)%nat toks _
                  (bad :: rest) ltac:(cbn [level]; lia) Hd3 Hbad) as [a1 ->].
      red_res.
      rewrite (cur_at _ _ _ _ (drop_after _ _ _ _ Hd3)). red_res.
      rewrite Helse. eexists. split; reflexivity.
Qed.

(** X20: [let] followed by a token that is no identifier gives the error
    [Expected identifier] at that token; [let] and an identifier followed
    by a token that is not [=] gives [Expected '=']. *)
Theorem let_needs_name_and_equals l bad rest fuel :
  (1 <= fuel)%nat ->
  (is_type bad [t.IDENTIFIER] = false ->
   make_ast fuel (kw "let" l :: bad :: rest) =
     Done (None, Some (syntax_error_at bad "Expected identifier"))) /\
  (forall x xs,
     is_type bad [t.EQ] = false ->
     make_ast fuel (kw "let" l :: ident x xs :: bad :: rest) =
       Done (None, Some (syntax_error_at bad "Expected '='"))).
Proof.
  intros Hfuel. destruct fuel as [| m]; [lia |]. split.
  - intros Hbad. unfold make_ast, parse. rewrite Parser_init_at.
    cbn [parse_production]. unfold expr.
    rewrite (cur_at _ 0 (kw "let" l) (bad :: rest)) by reflexivity. red_res.
    change (is_equals (kw "let" l) t.KW "let") with true. cbn iota.
    rewrite (advance_at _ 0 (kw "let" l) (bad :: rest)) by (reflexivity || discriminate).
    rewrite (cur_at _ 1 bad rest) by reflexivity. red_res.
    rewrite Hbad. cbn [negb]. red_res.
    rewrite (cur_at _ 1 bad rest) by reflexivity. reflexivity.
  - intros x xs Hbad. unfold make_ast, parse. rewrite Parser_init_at.
    cbn [parse_production]. unfold expr.
    rewrite (cur_at _ 0 (kw "let" l) (ident x xs :: bad :: rest)) by reflexivity. red_res.
    change (is_equals (kw "let" l) t.KW "let") with true. cbn iota.
    rewrite (advance_at _ 0 (kw "let" l) (ident x xs :: bad :: rest))
      by (reflexivity || discriminate).
    rewrite (cur_at _ 1 (ident x xs) (bad :: rest)) by reflexivity. red_res.
    change (is_type (ident x xs) [t.IDENTIFIER]) with true. cbn [negb].
    rewrite (advance_at _ 1 (ident x xs) (bad :: rest)) by (reflexivity || discriminate).
    rewrite (cur_at _ 2 bad rest) by reflexivity. red_res.
    rewrite Hbad. cbn [negb]. red_res.
    rewrite (cur_at _ 2 bad rest) by reflexivity. reflexivity.
Qed.

(** ** Calls *)

Lemma error_rises_from_call n toks i hd r p' err :
  toks !! i = Some hd -> passed_down hd = true ->
  pp n P_call (parser_at toks i) = Done (r, p') -> error r = Some err ->
  exists a, pp (6 + n) P_expr (parser_at toks i) = Done (mkParseResult (Some err) None a, p').
Proof.
  intros Hi Hp H1 He.
  apply andb_true_iff in Hp as [Hp Hlet]. apply andb_true_iff in Hp as [Hsign Hnot].
  assert (Hcur : cur (parser_at toks i) = Done hd).
  { unfold cur, parser_at. cbn. now rewrite Hi. }
  assert (H2 : pp (S n) P_power (parser_at toks i) =
               Done (mkParseResult (Some err) None (0 + advancements r), p')).
  { cbn [parse_production]. unfold power.
    exact (bin_oper_error _ _ _ _ _ _ _ _ _ H1 He). }
  remember (S n) as n1 eqn:E1.
  assert (H3 : pp (S n1) P_factor (parser_at toks i) =
               Done (mkParseResult (Some err) None (0 + advancements r), p')).
  { cbn [parse_production]. unfold factor. rewrite Hcur. red_res.
    unfold not_sign in Hsign. apply negb_true_iff in Hsign. rewrite Hsign. exact H2. }
  remember (S n1) as n2 eqn:E2.
  destruct (error_rises_from_factor _ _ _ _ _ _ _ Hi Hnot Hlet H3) as [a H].
  exists a. subst n2 n1. exact H.
Qed.

Lemma make_ast_call_error m toks hd j tokj err :
  toks !! 0%nat = Some hd -> passed_down hd = true ->
  toks !! j = Some tokj ->
  (exists r, pp m P_call (parser_at toks 0) = Done (r, parser_at toks j) /\
             error r = Some err) ->
  make_ast (6 + m) toks = Done (None, Some err).
Proof.
  intros H0 Hp Hj (r & Ha & He). unfold make_ast, parse. rewrite Parser_init_at.
  destruct (error_rises_from_call _ _ _ _ _ _ _ H0 Hp Ha He) as [a ->]. red_res.
  unfold cur, parser_at. cbn. rewrite Hj. reflexivity.
Qed.

Lemma first_atom_passed_down tok : first_atom tok = true -> passed_down tok = true.
Proof. destruct tok as [[] ? ? ?]; vm_compute; congruence. Qed.

Lemma first_expr_not_r_paren tok : first_expr tok = true -> is_type tok [t.R_PAREN] = false.
Proof. destruct tok as [[] ? ? ?]; vm_compute; congruence. Qed.

Lemma more_stops : forall more comma e n k toks i bad rest res args,
  (8 * length (more_tokens (MoreCons comma e more)) + 8 <= n)%nat ->
  (length (more_tokens (MoreCons comma e more)) < k)%nat ->
  drop i toks = more_tokens (MoreCons comma e more) ++ bad :: rest ->
  after_expr bad = true ->
  is_type bad [t.R_PAREN] = false -> is_type bad [t.COMMA] = false ->
  error res = None ->
  exists r,
    call_args_loop (pp n) k res args (parser_at toks i) =
      Done (inl (r, parser_at toks (i + length (more_tokens (MoreCons comma e more))))) /\
    error r = Some (syntax_error_at bad "Expected ',' or ')'").
Proof.
  induction more as [| comma' e' more' IH]; intros comma e n k toks i bad rest res args
    Hn Hk Hd Hbad Hclose Hcomma Hres;
    cbn [more_tokens length app] in Hn, Hk, Hd |- *; rewrite ?length_app in *;
    (destruct k as [| k]; [lia |]); cbn [call_args_loop];
    rewrite (cur_at _ _ _ _ Hd); red_res;
    change (is_type (sym t.COMMA comma) [t.COMMA]) with true; cbn iota;
    rewrite <- ?app_assoc in Hd.
  - rewrite (advance_at _ _ _ _ Hd) by (destruct (expr_tokens e); discriminate).
    pose proof (drop_S_tail _ _ _ _ Hd) as Hd1. cbn [app] in Hd1.
    destruct (proj1 parser_reads_grammar e n toks (S i) (bad :: rest)
                ltac:(cbn [level length] in *; lia) Hd1 Hbad) as [a ->].
    red_res. rewrite Hres. red_res.
    rewrite (cur_at _ _ _ _ (drop_after _ _ _ _ Hd1)). red_res.
    rewrite Hclose, Hcomma. cbn [negb]. eexists. split.
    + cbn [length]. rewrite Nat.add_0_r.
      replace (i + S (length (expr_tokens e)))%nat with (S i + length (expr_tokens e))%nat by lia.
      reflexivity.
    + reflexivity.
  - rewrite (advance_at _ _ _ _ Hd) by (destruct (expr_tokens e); discriminate).
    pose proof (drop_S_tail _ _ _ _ Hd) as Hd1.
    cbn [more_tokens length app] in Hn, Hk, Hd1. rewrite ?length_app in *.
    rewrite <- ?app_assoc in Hd1. cbn [app] in Hd1.
    assert (Hq : (8 * length (expr_tokens e) + level P_expr <= n)%nat).
    { cbn [level]. lia. }
    destruct (proj1 parser_reads_grammar e n toks (S i) _
                Hq Hd1 eq_refl) as [a ->].
    red_res. rewrite Hres. red_res.
    pose proof (drop_after _ _ _ _ Hd1) as Hd2.
    rewrite (cur_at _ _ _ _ Hd2). red_res.
    change (is_type (sym t.COMMA comma') [t.R_PAREN]) with false.
    change (is_type (sym t.COMMA comma') [t.COMMA]) with true. cbn [negb]. cbn iota.
    destruct (IH comma' e' n k toks _ bad rest
                (mkParseResult None (node res) (advancements res + 1 + a))
                (args ++ [expr_node e]) ltac:(cbn [more_tokens length]; rewrite ?length_app; cbn [length] in *; lia)
                ltac:(cbn [more_tokens length]; rewrite ?length_app; cbn [length] in *; lia)
                ltac:(cbn [more_tokens app]; rewrite <- ?app_assoc; exact Hd2)
                Hbad Hclose Hcomma eq_refl) as (r & E & Er).
    exists r. split; [| exact Er]. rewrite E.
    cbn [more_tokens length]. rewrite ?length_app. cbn [length].
    do 4 f_equal. cbn [more_tokens length]. rewrite ?length_app. cbn [length]. lia.
Qed.

(** X24: in a call, an argument followed by a token that is neither a
    comma nor the closing parenthesis is an error at that token:
    [Expected ')'] after the first argument, [Expected ',' or ')'] after a
    later one. *)
Theorem call_arguments_need_closing a lp first bad rest fuel :
  after_expr bad = true ->
  is_type bad [t.R_PAREN] = false -> is_type bad [t.COMMA] = false ->
  ((8 * (length (gatom_tokens a) + length (expr_tokens first)) + 24 <= fuel)%nat ->
   make_ast fuel (gatom_tokens a ++ sym t.L_PAREN lp :: expr_tokens first ++ bad :: rest) =
     Done (None, Some (syntax_error_at bad "Expected ')'"))) /\
  (forall comma e more,
     (8 * (length (gatom_tokens a) + length (expr_tokens first)
           + length (more_tokens (MoreCons comma e more))) + 24 <= fuel)%nat ->
     make_ast fuel (gatom_tokens a ++ sym t.L_PAREN lp :: expr_tokens first
                      ++ more_tokens (MoreCons comma e more) ++ bad :: rest) =
       Done (None, Some (syntax_error_at bad "Expected ',' or ')'"))).
Proof.
  intros Hbad Hclose Hcomma.
  destruct grammar_first as (Fe & _ & _ & _ & _ & _ & _ & _ & _ & _ & Fa).
  destruct parser_reads_grammar as (Re & _ & _ & _ & _ & _ & _ & _ & _ & _ & Ra).
  split.
  - intros Hfuel.
    set (toks := gatom_tokens a ++ sym t.L_PAREN lp :: expr_tokens first ++ bad :: rest).
    assert (Hd : drop 0 toks = gatom_tokens a ++ sym t.L_PAREN lp :: expr_tokens first
                                 ++ bad :: rest) by reflexivity.
    destruct (begins_cur _ _ toks 0%nat _ (Fa a) Hd) as (hd & Hhd & Hfirst).
    replace fuel with (6 + S (fuel - 7))%nat by lia.
    apply (make_ast_call_error _ toks hd
             (S (0 + length (gatom_tokens a)) + length (expr_tokens first)) bad).
    + revert Hhd. unfold cur, parser_at. cbn [cur_tok]. destruct (toks !! 0%nat); congruence.
    + now apply first_atom_passed_down.
    + eapply drop_lookup. apply (drop_after _ _ (expr_tokens first)).
      apply (drop_S_tail _ _ (sym t.L_PAREN lp)). apply (drop_after _ _ _ _ Hd).
    + cbn [parse_production]. unfold call.
      destruct (Ra a (fuel - 7)%nat toks 0%nat _ ltac:(cbn [level]; lia) Hd eq_refl) as [a0 ->].
      red_res.
      pose proof (drop_after _ _ _ _ Hd) as Hd1.
      rewrite (cur_at _ _ _ _ Hd1). red_res.
      change (is_type (sym t.L_PAREN lp) [t.L_PAREN]) with true. cbn iota.
      rewrite (advance_at _ _ _ _ Hd1) by (destruct (expr_tokens first); discriminate).
      pose proof (drop_S_tail _ _ _ _ Hd1) as Hd2.
      destruct (begins_cur _ _ _ _ _ (Fe first) Hd2) as (hd1 & -> & Hhd1). red_res.
      rewrite (first_expr_not_r_paren _ Hhd1). cbn [negb].
      destruct (Re first (fuel - 7)%nat toks _ (bad :: rest) ltac:(cbn [level]; lia) Hd2 Hbad)
        as [a1 ->].
      red_res.
      pose proof (drop_after _ _ _ _ Hd2) as Hd3.
      destruct (fuel - 7)%nat as [| k] eqn:Ek; [lia |]. cbn [call_args_loop].
      rewrite (cur_at _ _ _ _ Hd3). red_res. rewrite Hcomma. red_res.
      rewrite (cur_at _ _ _ _ Hd3). red_res. rewrite Hclose. cbn [negb].
      eexists. split; reflexivity.
  - intros comma e more Hfuel.
    set (toks := gatom_tokens a ++ sym t.L_PAREN lp :: expr_tokens first
                   ++ more_tokens (MoreCons comma e more) ++ bad :: rest).
    assert (Hd : drop 0 toks = gatom_tokens a ++ sym t.L_PAREN lp :: expr_tokens first
                   ++ more_tokens (MoreCons comma e more) ++ bad :: rest) by reflexivity.
    destruct (begins_cur _ _ toks 0%nat _ (Fa a) Hd) as (hd & Hhd & Hfirst).
    replace fuel with (6 + S (fuel - 7))%nat by lia.
    apply (make_ast_call_error _ toks hd
             (S (0 + length (gatom_tokens a)) + length (expr_tokens first)
              + length (more_tokens (MoreCons comma e more))) bad).
    + revert Hhd. unfold cur, parser_at. cbn [cur_tok]. destruct (toks !! 0%nat); congruence.
    + now apply first_atom_passed_down.
    + eapply drop_lookup. apply (drop_after _ _ (more_tokens (MoreCons comma e more))).
      apply (drop_after _ _ (expr_tokens first)).
      apply (drop_S_tail _ _ (sym t.L_PAREN lp)). apply (drop_after _ _ _ _ Hd).
    + cbn [parse_production]. unfold call.
      destruct (Ra a (fuel - 7)%nat toks 0%nat _ ltac:(cbn [level]; lia) Hd eq_refl) as [a0 ->].
      red_res.
      pose proof (drop_after _ _ _ _ Hd) as Hd1.
      rewrite (cur_at _ _ _ _ Hd1). red_res.
      change (is_type (sym t.L_PAREN lp) [t.L_PAREN]) with true. cbn iota.
      rewrite (advance_at _ _ _ _ Hd1) by (destruct (expr_tokens first); discriminate).
      pose proof (drop_S_tail _ _ _ _ Hd1) as Hd2.
      destruct (begins_cur _ _ _ _ _ (Fe first) Hd2) as (hd1 & -> & Hhd1). red_res.
      rewrite (first_expr_not_r_paren _ Hhd1). cbn [negb].
      destruct (Re first (fuel - 7)%nat toks _ _ ltac:(cbn [level]; lia) Hd2 eq_refl)
        as [a1 ->].
      red_res.
      pose proof (drop_after _ _ _ _ Hd2) as Hd3.
      destruct (more_stops more comma e (fuel - 7)%nat (fuel - 7)%nat toks _ bad rest
                  (mkParseResult None None (0 + a0 + 1 + a1)) ([] ++ [expr_node first])
                  ltac:(lia) ltac:(lia) Hd3 Hbad Hclose Hcomma eq_refl) as (r & -> & Er).
      red_res. eexists. split; [reflexivity | exact Er].
Qed.

Lemma starts_value_passed_down tok : starts_value tok = false -> passed_down tok = true.
Proof.
  unfold starts_value, passed_down, not_sign, not_kw. intros Hs.
  repeat (apply orb_false_iff in Hs as [Hs ?]).
  repeat (apply andb_true_iff; split); apply negb_true_iff; try assumption.
  clear - Hs. destruct tok as [[] ? ? ?]; revert Hs; vm_compute; congruence.
Qed.

Lemma expr_expects_value m toks i bad :
  toks !! i = Some bad -> starts_value bad = false ->
  exists a,
    pp (8 + m) P_expr (parser_at toks i) =
      Done (mkParseResult
              (Some (syntax_error_at bad
                       "Expected Value: identifier, int, float, '+', '-' or '('"))
              None a, parser_at toks i).
Proof.
  intros Hi Hs.
  apply (error_rises (S m) toks i bad
           (failure ParseResult_init
              (Some (syntax_error_at bad
                       "Expected Value: identifier, int, float, '+', '-' or '('"))));
    [exact Hi | now apply starts_value_passed_down | | reflexivity].
  unfold starts_value in Hs. repeat (apply orb_false_iff in Hs as [Hs ?]).
  cbn [parse_production]. unfold atom. unfold cur, parser_at. cbn [cur_tok]. rewrite Hi.
  red_res.
  replace (is_type bad [t.INT; t.FLOAT]) with false
    by (clear - Hs; destruct bad as [[] ? ? ?]; revert Hs; vm_compute; congruence).
  replace (is_type bad [t.LITERAL]) with false
    by (clear - Hs; destruct bad as [[] ? ? ?]; revert Hs; vm_compute; congruence).
  replace (is_type bad [t.L_PAREN]) with false
    by (clear - Hs; destruct bad as [[] ? ? ?]; revert Hs; vm_compute; congruence).
  replace (is_type bad [t.IDENTIFIER]) with false
    by (clear - Hs; destruct bad as [[] ? ? ?]; revert Hs; vm_compute; congruence).
  match goal with H : is_equals bad t.KW "if" = false |- _ => rewrite H end.
  match goal with H : is_equals bad t.KW "fun" = false |- _ => rewrite H end.
  reflexivity.
Qed.

Lemma more_trailing : forall more n k toks i comma rp rest res args,
  (8 * length (more_tokens more) + 8 <= n)%nat ->
  (length (more_tokens more) < k)%nat ->
  drop i toks = more_tokens more ++ sym t.COMMA comma :: sym t.R_PAREN rp :: rest ->
  error res = None ->
  exists r,
    call_args_loop (pp n) k res args (parser_at toks i) =
      Done (inl (r, parser_at toks (S (i + length (more_tokens more))))) /\
    error r = Some (syntax_error_at (sym t.R_PAREN rp)
                      "Expected Value: identifier, int, float, '+', '-' or '('").
Proof.
  induction more as [| comma' e more IH]; intros n k toks i comma rp rest res args
    Hn Hk Hd Hres; cbn [more_tokens length app] in Hn, Hk, Hd |- *;
    rewrite ?length_app in *; (destruct k as [| k]; [lia |]); cbn [call_args_loop];
    rewrite (cur_at _ _ _ _ Hd); red_res.
  - change (is_type (sym t.COMMA comma) [t.COMMA]) with true. cbn iota.
    rewrite (advance_at _ _ _ _ Hd) by discriminate.
    pose proof (drop_S_tail _ _ _ _ Hd) as Hd1.
    replace n with (8 + (n - 8))%nat by lia.
    destruct (expr_expects_value (n - 8) toks (S i) (sym t.R_PAREN rp)
                (drop_lookup _ _ _ _ Hd1) eq_refl) as [a ->].
    red_res. rewrite Nat.add_0_r. eexists. split; reflexivity.
  - change (is_type (sym t.COMMA comma') [t.COMMA]) with true. cbn iota.
    rewrite <- ?app_assoc in Hd.
    rewrite (advance_at _ _ _ _ Hd)
      by (destruct (expr_tokens e); [destruct (more_tokens more) |]; discriminate).
    pose proof (drop_S_tail _ _ _ _ Hd) as Hd1.
    assert (Hq : (8 * length (expr_tokens e) + level P_expr <= n)%nat) by (cbn [level]; lia).
    destruct (proj1 parser_reads_grammar e n toks (S i) _ Hq Hd1) as [a ->].
    { destruct more; reflexivity. }
    red_res. rewrite Hres. red_res.
    pose proof (drop_after _ _ _ _ Hd1) as Hd2.
    assert (Hnext : exists c tl, drop (S i + length (expr_tokens e)) toks = sym t.COMMA c :: tl).
    { rewrite Hd2. destruct more; cbn [more_tokens app]; eauto. }
    destruct Hnext as (c & tl & Hd2').
    rewrite (cur_at _ _ _ _ Hd2'). red_res.
    change (is_type (sym t.COMMA c) [t.R_PAREN]) with false.
    change (is_type (sym t.COMMA c) [t.COMMA]) with true. cbn [negb]. cbn iota.
    destruct (IH n k toks _ comma rp rest
                (mkParseResult None (node res) (advancements res + 1 + a))
                (args ++ [expr_node e]) ltac:(lia) ltac:(lia) Hd2 eq_refl) as (r & E & Er).
    exists r. split; [| exact Er]. rewrite E. do 4 f_equal. lia.
Qed.

(** X25: a comma before the closing parenthesis of a call is an error,
    [Expected Value: ...] at the parenthesis (the parameter list of a
    definition accepts such a comma). *)
Theorem call_has_no_trailing_comma a lp first more comma rp rest fuel :
  (8 * (length (gatom_tokens a) + length (expr_tokens first) + length (more_tokens more))
   + 24 <= fuel)%nat ->
  make_ast fuel (gatom_tokens a ++ sym t.L_PAREN lp :: expr_tokens first
                   ++ more_tokens more ++ sym t.COMMA comma :: sym t.R_PAREN rp :: rest) =
    Done (None, Some (syntax_error_at (sym t.R_PAREN rp)
                        "Expected Value: identifier, int, float, '+', '-' or '('")).
Proof.
  intros Hfuel.
  destruct grammar_first as (Fe & _ & _ & _ & _ & _ & _ & _ & _ & _ & Fa).
  destruct parser_reads_grammar as (Re & _ & _ & _ & _ & _ & _ & _ & _ & _ & Ra).
  set (toks := gatom_tokens a ++ sym t.L_PAREN lp :: expr_tokens first
                 ++ more_tokens more ++ sym t.COMMA comma :: sym t.R_PAREN rp :: rest).
  assert (Hd : drop 0 toks = gatom_tokens a ++ sym t.L_PAREN lp :: expr_tokens first
                 ++ more_tokens more ++ sym t.COMMA comma :: sym t.R_PAREN rp :: rest)
    by reflexivity.
  destruct (begins_cur _ _ toks 0%nat _ (Fa a) Hd) as (hd & Hhd & Hfirst).
  replace fuel with (6 + S (fuel - 7))%nat by lia.
  apply (make_ast_call_error _ toks hd
           (S (S (0 + length (gatom_tokens a)) + length (expr_tokens first)
               + length (more_tokens more))) (sym t.R_PAREN rp)).
  - revert Hhd. unfold cur, parser_at. cbn [cur_tok]. destruct (toks !! 0%nat); congruence.
  - now apply first_atom_passed_down.
  - eapply drop_lookup. apply (drop_S_tail _ _ (sym t.COMMA comma)).
    apply (drop_after _ _ (more_tokens more)).
    apply (drop_after _ _ (expr_tokens first)).
    apply (drop_S_tail _ _ (sym t.L_PAREN lp)). apply (drop_after _ _ _ _ Hd).
  - cbn [parse_production]. unfold call.
    destruct (Ra a (fuel - 7)%nat toks 0%nat _ ltac:(cbn [level]; lia) Hd eq_refl) as [a0 ->].
    red_res.
    pose proof (drop_after _ _ _ _ Hd) as Hd1.
    rewrite (cur_at _ _ _ _ Hd1). red_res.
    change (is_type (sym t.L_PAREN lp) [t.L_PAREN]) with true. cbn iota.
    pose proof (Fe first) as Hb.
    rewrite (advance_at _ _ _ _ Hd1)
      by (destruct (expr_tokens first); [contradiction | discriminate]).
    pose proof (drop_S_tail _ _ _ _ Hd1) as Hd2.
    destruct (begins_cur _ _ _ _ _ Hb Hd2) as (hd1 & -> & Hhd1). red_res.
    rewrite (first_expr_not_r_paren _ Hhd1). cbn [negb].
    destruct (Re first (fuel - 7)%nat toks _ _ ltac:(cbn [level]; lia) Hd2) as [a1 ->].
    { destruct more; reflexivity. }
    red_res.
    pose proof (drop_after _ _ _ _ Hd2) as Hd3.
    destruct (more_trailing more (fuel - 7)%nat (fuel - 7)%nat toks _ comma rp rest
                (mkParseResult None None (0 + a0 + 1 + a1)) ([] ++ [expr_node first])
                ltac:(lia) ltac:(lia) Hd3 eq_refl) as (r & -> & Er).
    red_res. eexists. split; [reflexivity | exact Er].
Qed.

Lemma call_to_expr (ok : Token -> bool) s nd :
  begins first_atom s ->
  (forall tok, ok tok = true ->
     is_operator tok [OpTag t.POW] = false /\
     is_operator tok [OpTag t.MUL; OpTag t.DIV] = false /\
     is_operator tok [OpTag t.PLUS; OpTag t.MINUS] = false /\
     is_operator tok cmp_operators = false /\
     is_operator tok logic_operators = false) ->
  reads_with P_call ok s nd -> reads_with P_expr ok s nd.
Proof.
  intros Hb Hok Hc.
  assert (Hp := begins_impl _ _ _ first_atom_passed_down Hb).
  assert (Hs : begins not_sign s).
  { eapply begins_impl; [| exact Hp]. intros tok [[H _]%andb_true_iff _]%andb_true_iff.
    exact H. }
  assert (Hn : begins (not_kw "not") s).
  { eapply begins_impl; [| exact Hp]. intros tok [[_ H]%andb_true_iff _]%andb_true_iff.
    exact H. }
  assert (Hl : begins (not_kw "let") s).
  { eapply begins_impl; [| exact Hp]. intros tok [_ H]%andb_true_iff. exact H. }
  apply expr_reads; [exact Hl |]. apply bin_reads_one; [| intros ? ?; now apply Hok].
  apply comp_reads; [exact Hn |]. apply bin_reads_one; [| intros ? ?; now apply Hok].
  apply arith_reads. apply bin_reads_one; [| intros ? ?; now apply Hok].
  apply term_reads. apply bin_reads_one; [| intros ? ?; now apply Hok].
  apply factor_reads_unsigned; [exact Hs |].
  apply power_lift; [| intros ? ?; now apply Hok].
  exact Hc.
Qed.

(** X26: the result of a call is not called.  A call with its argument
    list, followed by another opening parenthesis, gives the tree of the
    call together with the error [Invalid Syntax] (kind [p]) at that
    parenthesis. *)
Theorem call_result_is_not_called c lp rest fuel :
  has_arguments c = true ->
  (8 * length (call_tokens c) + 8 <= fuel)%nat ->
  make_ast fuel (call_tokens c ++ sym t.L_PAREN lp :: rest) =
    Done (Some (call_node c),
          Some (set_ecode (syntax_error_at (sym t.L_PAREN lp) "Invalid Syntax") "p")).
Proof.
  intros Hc Hfuel.
  destruct grammar_first as (Fe & _ & _ & _ & _ & _ & _ & _ & Fc & _ & _).
  destruct parser_reads_grammar as (Re & _ & _ & _ & _ & _ & _ & _ & _ & Rm & Ra).
  assert (Hr : reads_with P_call (fun tok => is_type tok [t.L_PAREN])
                 (call_tokens c) (call_node c)).
  { destruct c as [a | a l r | a l first more r]; [discriminate | |];
      cbn [call_tokens call_node].
    - apply call_reads_empty, Ra.
    - apply call_reads_args; auto. }
  apply call_to_expr in Hr; [| apply Fc |].
  - unfold make_ast, parse. rewrite Parser_init_at.
    destruct (Hr fuel (call_tokens c ++ sym t.L_PAREN lp :: rest) 0%nat
                (sym t.L_PAREN lp :: rest) Hfuel eq_refl eq_refl) as [a ->].
    red_res. rewrite (cur_at _ _ (sym t.L_PAREN lp) rest) by apply drop_app_length.
    reflexivity.
  - intros [[] ? ? ?]; vm_compute; intuition congruence.
Qed.

(** ** Definitions *)

Lemma make_ast_fun_error m f tl j tokj err :
  (kw "fun" f :: tl) !! j = Some tokj ->
  (exists r, func_def (pp m) m (parser_at (kw "fun" f :: tl) 0) =
               Done (r, parser_at (kw "fun" f :: tl) j) /\
             error r = Some err) ->
  make_ast (9 + m) (kw "fun" f :: tl) = Done (None, Some err).
Proof.
  intros Hj (r & Hr & He).
  apply (make_ast_error (S (S m)) _ (kw "fun" f) j tokj); [reflexivity | reflexivity | exact Hj |].
  remember (S m) as m1 eqn:E1.
  cbn [parse_production]. unfold atom.
  rewrite (cur_at _ 0 (kw "fun" f) tl) by reflexivity. red_res.
  change (is_type (kw "fun" f) [t.INT; t.FLOAT]) with false.
  change (is_type (kw "fun" f) [t.LITERAL]) with false.
  change (is_type (kw "fun" f) [t.L_PAREN]) with false.
  change (is_type (kw "fun" f) [t.IDENTIFIER]) with false.
  change (is_equals (kw "fun" f) t.KW "if") with false.
  change (is_equals (kw "fun" f) t.KW "fun") with true. cbn iota.
  subst m1. cbn [parse_production]. rewrite Hr. red_res. rewrite He.
  eexists. split; reflexivity.
Qed.

Lemma params_loop_stops more : forall k toks i bad rest res acc,
  (2 * length more + 2 <= k)%nat ->
  drop i toks = more_params_tokens more ++ bad :: rest ->
  is_type bad [t.COMMA] = false ->
  exists a,
    func_def_params_loop k res acc (parser_at toks i) =
      Done (inr (mkParseResult (error res) (node res) a,
                 acc ++ map (fun cp => param_token (snd cp)) more,
                 parser_at toks (i + length (more_params_tokens more)))).
Proof.
  induction more as [| [c [y ys]] more IH]; intros k toks i bad rest res acc Hk Hd Hbad.
  - cbn [more_params_tokens flat_map app map length] in *. rewrite app_nil_r.
    destruct k as [| k]; [lia |]. cbn [func_def_params_loop].
    rewrite (cur_at _ _ _ _ Hd). red_res. rewrite Hbad.
    exists (advancements res). rewrite Nat.add_0_r. destruct res; reflexivity.
  - cbn [more_params_tokens flat_map app map length fst snd] in *.
    fold (more_params_tokens more) in *.
    destruct k as [| k]; [lia |]. cbn [func_def_params_loop].
    rewrite (cur_at _ _ _ _ Hd). red_res.
    change (is_type (sym t.COMMA c) [t.COMMA]) with true. cbn iota.
    rewrite (advance_at _ _ _ _ Hd) by discriminate.
    pose proof (drop_S_tail _ _ _ _ Hd) as Hd1.
    rewrite (cur_at _ _ _ _ Hd1). red_res.
    change (is_type (param_token (y, ys)) [t.IDENTIFIER]) with true. cbn iota.
    rewrite (advance_at _ _ _ _ Hd1) by (destruct (more_params_tokens more); discriminate).
    pose proof (drop_S_tail _ _ _ _ Hd1) as Hd2.
    destruct (IH k toks _ bad rest (register_adv (register_adv res))
                (acc ++ [param_token (y, ys)]) ltac:(lia) Hd2 Hbad) as [a ->].
    exists a. rewrite <- app_assoc. cbn [app length].
    replace (i + S (S (length (more_params_tokens more))))%nat
      with (S (S i) + length (more_params_tokens more))%nat by lia.
    reflexivity.
Qed.

Lemma params_loop_fails more : forall k toks i comma bad rest res acc,
  (2 * length more + 2 <= k)%nat ->
  drop i toks = more_params_tokens more ++ sym t.COMMA comma :: bad :: rest ->
  is_type bad [t.IDENTIFIER] = false -> is_type bad [t.R_PAREN] = false ->
  exists r,
    func_def_params_loop k res acc (parser_at toks i) =
      Done (inl (r, parser_at toks (S (i + length (more_params_tokens more))))) /\
    error r = Some (syntax_error_at bad "Expected ',' or ')'").
Proof.
  induction more as [| [c [y ys]] more IH]; intros k toks i comma bad rest res acc
    Hk Hd Hident Hclose.
  - cbn [more_params_tokens flat_map app map length] in *.
    destruct k as [| k]; [lia |]. cbn [func_def_params_loop].
    rewrite (cur_at _ _ _ _ Hd). red_res.
    change (is_type (sym t.COMMA comma) [t.COMMA]) with true. cbn iota.
    rewrite (advance_at _ _ _ _ Hd) by discriminate.
    pose proof (drop_S_tail _ _ _ _ Hd) as Hd1.
    rewrite (cur_at _ _ _ _ Hd1). red_res. rewrite Hident, Hclose.
    rewrite Nat.add_0_r. eexists. split; reflexivity.
  - cbn [more_params_tokens flat_map app map length fst snd] in *.
    fold (more_params_tokens more) in *.
    destruct k as [| k]; [lia |]. cbn [func_def_params_loop].
    rewrite (cur_at _ _ _ _ Hd). red_res.
    change (is_type (sym t.COMMA c) [t.COMMA]) with true. cbn iota.
    rewrite (advance_at _ _ _ _ Hd) by discriminate.
    pose proof (drop_S_tail _ _ _ _ Hd) as Hd1.
    rewrite (cur_at _ _ _ _ Hd1). red_res.
    change (is_type (param_token (y, ys)) [t.IDENTIFIER]) with true. cbn iota.
    rewrite (advance_at _ _ _ _ Hd1) by (destruct (more_params_tokens more); discriminate).
    pose proof (drop_S_tail _ _ _ _ Hd1) as Hd2.
    destruct (IH k toks _ comma bad rest (register_adv (register_adv res))
                (acc ++ [param_token (y, ys)]) ltac:(lia) Hd2 Hident Hclose) as (r & -> & Er).
    exists r. split; [| exact Er]. do 4 f_equal. lia.
Qed.

Lemma more_params_length more :
  (2 * length more <= length (more_params_tokens more))%nat.
Proof.
  induction more as [| ? more IH]; cbn; [lia |]. fold (more_params_tokens more). lia.
Qed.

Lemma func_def_header self k f name tl :
  tl <> [] -> (name = None -> begins no_identifier tl) ->
  exists a,
    func_def self k (parser_at (kw "fun" f :: name_tokens name ++ tl) 0) =
      func_def_from_paren self k (mkParseResult None None a) (name_string name) (fst f)
        (parser_at (kw "fun" f :: name_tokens name ++ tl) (1 + length (name_tokens name))).
Proof.
  intros Hne Hname.
  set (toks := kw "fun" f :: name_tokens name ++ tl).
  assert (Hd : drop 0 toks = kw "fun" f :: name_tokens name ++ tl) by reflexivity.
  unfold func_def.
  rewrite (cur_at _ _ _ _ Hd). red_res.
  rewrite (advance_at _ _ _ _ Hd) by (destruct name; [discriminate | exact Hne]).
  pose proof (drop_S_tail _ _ _ _ Hd) as Hd1.
  destruct name as [[x xs] |]; cbn [name_tokens name_string app length fst] in *.
  - rewrite (cur_at _ _ _ _ Hd1). red_res.
    change (is_type (param_token (x, xs)) [t.IDENTIFIER]) with true. cbn iota.
    rewrite (advance_at _ _ _ _ Hd1 Hne). eexists. reflexivity.
  - destruct tl as [| hd tl]; [contradiction |]. specialize (Hname eq_refl). cbn in Hname.
    unfold no_identifier in Hname. apply negb_true_iff in Hname.
    rewrite (cur_at _ _ _ _ Hd1). red_res. rewrite Hname. cbn iota.
    eexists. reflexivity.
Qed.

Lemma make_ast_fun_header m f name tl j tokj err :
  tl <> [] -> (name = None -> begins no_identifier tl) ->
  (kw "fun" f :: name_tokens name ++ tl) !! j = Some tokj ->
  (forall a, exists r,
     func_def_from_paren (pp m) m (mkParseResult None None a) (name_string name) (fst f)
       (parser_at (kw "fun" f :: name_tokens name ++ tl) (1 + length (name_tokens name))) =
       Done (r, parser_at (kw "fun" f :: name_tokens name ++ tl) j) /\
     error r = Some err) ->
  make_ast (9 + m) (kw "fun" f :: name_tokens name ++ tl) = Done (None, Some err).
Proof.
  intros Hne Hname Hj H. apply (make_ast_fun_error _ _ _ j tokj _ Hj).
  destruct (func_def_header (pp m) m f name tl Hne Hname) as [a ->]. apply H.
Qed.

(** X27: [fun], with or without a name, followed by a token that is not
    an opening parenthesis gives the error [Expected '('] at that token
    when a non-empty name was read and [Expected Identifier or '(']
    otherwise; a parameter list followed by a token that is not a colon
    gives [Expected ':']. *)
Theorem fun_needs_parenthesis_and_colon f name bad rest fuel :
  (9 <= fuel)%nat ->
  (is_type bad [t.L_PAREN] = false ->
   (name = None -> is_type bad [t.IDENTIFIER] = false) ->
   make_ast fuel (kw "fun" f :: name_tokens name ++ bad :: rest) =
     Done (None,
           Some (syntax_error_at bad
                   (if bool_decide (name_string name = "")
                    then "Expected Identifier or '('" else "Expected '('")))) /\
  (forall lp ps rp,
     is_type bad [t.COLON] = false ->
     (length (params_tokens ps) + 16 <= fuel)%nat ->
     make_ast fuel (kw "fun" f :: name_tokens name ++ sym t.L_PAREN lp :: params_tokens ps
                      ++ sym t.R_PAREN rp :: bad :: rest) =
       Done (None, Some (syntax_error_at bad "Expected ':'"))).
Proof.
  intros Hfuel. split.
  - intros Hparen Hident.
    replace fuel with (9 + (fuel - 9))%nat by lia.
    apply (make_ast_fun_header _ f name _ (1 + length (name_tokens name)) bad);
      [discriminate | | |].
    { intros E. cbn. unfold no_identifier. now rewrite (Hident E). }
    { eapply drop_lookup. apply (drop_after _ 1%nat (name_tokens name)). reflexivity. }
    intros a. unfold func_def_from_paren.
    rewrite (cur_at _ _ bad rest) by (apply (drop_after _ 1%nat (name_tokens name)); reflexivity).
    red_res. rewrite Hparen. cbn [negb]. eexists. split; reflexivity.
  - intros lp ps rp Hcolon Hps.
    replace fuel with (9 + (fuel - 9))%nat by lia.
    set (tl := sym t.L_PAREN lp :: params_tokens ps ++ sym t.R_PAREN rp :: bad :: rest).
    set (toks := kw "fun" f :: name_tokens name ++ tl).
    assert (Hd2 : drop (1 + length (name_tokens name)) toks = tl).
    { apply (drop_after _ 1%nat (name_tokens name)). reflexivity. }
    apply (make_ast_fun_header _ f name tl
             (S (S (1 + length (name_tokens name)) + length (params_tokens ps))) bad);
      [discriminate | reflexivity | |].
    { eapply drop_lookup. apply (drop_S_tail _ _ (sym t.R_PAREN rp)).
      apply (drop_after _ _ (params_tokens ps)).
      apply (drop_S_tail _ _ (sym t.L_PAREN lp)). exact Hd2. }
    intros a. fold toks. unfold func_def_from_paren. unfold tl in Hd2.
    rewrite (cur_at _ _ _ _ Hd2). red_res.
    change (is_type (sym t.L_PAREN lp) [t.L_PAREN]) with true. cbn [negb].
    rewrite (advance_at _ _ _ _ Hd2) by (destruct (params_tokens ps); discriminate).
    pose proof (drop_S_tail _ _ _ _ Hd2) as Hd3.
    destruct ps as [| [x xs] more trailing].
    + cbn [params_tokens app length] in *.
      rewrite (cur_at _ _ _ _ Hd3). red_res.
      change (is_type (sym t.R_PAREN rp) [t.IDENTIFIER]) with false. cbn iota.
      unfold func_def_finish. rewrite (cur_at _ _ _ _ Hd3). red_res.
      change (is_type (sym t.R_PAREN rp) [t.R_PAREN]) with true. cbn [negb].
      rewrite (advance_at _ _ _ _ Hd3) by discriminate.
      rewrite (cur_at _ _ _ _ (drop_S_tail _ _ _ _ Hd3)). red_res.
      rewrite Hcolon. cbn [negb]. rewrite Nat.add_0_r. eexists. split; reflexivity.
    + cbn [params_tokens] in *. cbn [app] in Hd3. rewrite <- app_assoc in Hd3.
      rewrite (cur_at _ _ _ _ Hd3). red_res.
      change (is_type (param_token (x, xs)) [t.IDENTIFIER]) with true. cbn iota.
      rewrite (advance_at _ _ _ _ Hd3)
        by (destruct (more_params_tokens more); [destruct trailing |]; discriminate).
      pose proof (drop_S_tail _ _ _ _ Hd3) as Hd4.
      cbn [length] in Hps. rewrite length_app in Hps.
      pose proof (more_params_length more) as Hlen.
      destruct (params_loop_reads more trailing (fuel - 9)%nat toks _ rp (bad :: rest)
                  (register_adv (register_adv (mkParseResult None None a)))
                  ([] ++ [param_token (x, xs)]) ltac:(lia) Hd4 ltac:(discriminate))
        as [a1 ->].
      red_res.
      pose proof Hd4 as Hd5. rewrite app_assoc in Hd5. apply drop_after in Hd5.
      unfold func_def_finish. rewrite (cur_at _ _ _ _ Hd5). red_res.
      change (is_type (sym t.R_PAREN rp) [t.R_PAREN]) with true. cbn [negb].
      rewrite (advance_at _ _ _ _ Hd5) by discriminate.
      rewrite (cur_at _ _ _ _ (drop_S_tail _ _ _ _ Hd5)). red_res.
      rewrite Hcolon. cbn [negb].
      replace (S (S (1 + length (name_tokens name))
                  + length (param_token (x, xs) :: more_params_tokens more
                              ++ trailing_tokens trailing)))%nat
        with (S (S (S (1 + length (name_tokens name)))
                 + length (more_params_tokens more ++ trailing_tokens trailing)))%nat
        by (cbn [length]; lia).
      eexists. split; reflexivity.
Qed.

(** X28: in the parameter list of a definition, a token that is neither
    a parameter nor the closing parenthesis gives the error
    [Invalid Syntax] (kind [fd]) where the list starts or a parameter has
    just been read, and [Expected ',' or ')'] after a comma. *)
Theorem fun_parameters_need_closing f name lp bad rest fuel :
  is_type bad [t.R_PAREN] = false ->
  (is_type bad [t.IDENTIFIER] = false -> (9 <= fuel)%nat ->
   make_ast fuel (kw "fun" f :: name_tokens name ++ sym t.L_PAREN lp :: bad :: rest) =
     Done (None, Some (set_ecode (syntax_error_at bad "Invalid Syntax") "fd"))) /\
  (forall first more,
     is_type bad [t.COMMA] = false ->
     (2 * length more + 11 <= fuel)%nat ->
     make_ast fuel (kw "fun" f :: name_tokens name ++ sym t.L_PAREN lp :: param_token first
                      :: more_params_tokens more ++ bad :: rest) =
       Done (None, Some (set_ecode (syntax_error_at bad "Invalid Syntax") "fd"))) /\
  (forall first more comma,
     is_type bad [t.IDENTIFIER] = false ->
     (2 * length more + 11 <= fuel)%nat ->
     make_ast fuel (kw "fun" f :: name_tokens name ++ sym t.L_PAREN lp :: param_token first
                      :: more_params_tokens more ++ sym t.COMMA comma :: bad :: rest) =
       Done (None, Some (syntax_error_at bad "Expected ',' or ')'"))).
Proof.
  intros Hclose. split; [| split].
  - intros Hident Hfuel.
    replace fuel with (9 + (fuel - 9))%nat by lia.
    set (tl := sym t.L_PAREN lp :: bad :: rest).
    set (toks := kw "fun" f :: name_tokens name ++ tl).
    assert (Hd2 : drop (1 + length (name_tokens name)) toks = tl).
    { apply (drop_after _ 1%nat (name_tokens name)). reflexivity. }
    apply (make_ast_fun_header _ f name tl (S (1 + length (name_tokens name))) bad);
      [discriminate | reflexivity | |].
    { eapply drop_lookup. apply (drop_S_tail _ _ (sym t.L_PAREN lp)). exact Hd2. }
    intros a. fold toks. unfold func_def_from_paren. unfold tl in Hd2.
    rewrite (cur_at _ _ _ _ Hd2). red_res.
    change (is_type (sym t.L_PAREN lp) [t.L_PAREN]) with true. cbn [negb].
    rewrite (advance_at _ _ _ _ Hd2) by discriminate.
    pose proof (drop_S_tail _ _ _ _ Hd2) as Hd3.
    rewrite (cur_at _ _ _ _ Hd3). red_res. rewrite Hident.
    unfold func_def_finish. rewrite (cur_at _ _ _ _ Hd3). red_res.
    rewrite Hclose. cbn [negb]. eexists. split; reflexivity.
  - intros [x xs] more Hcomma Hfuel.
    replace fuel with (9 + (fuel - 9))%nat by lia.
    set (tl := sym t.L_PAREN lp :: param_token (x, xs) :: more_params_tokens more
                 ++ bad :: rest).
    set (toks := kw "fun" f :: name_tokens name ++ tl).
    assert (Hd2 : drop (1 + length (name_tokens name)) toks = tl).
    { apply (drop_after _ 1%nat (name_tokens name)). reflexivity. }
    apply (make_ast_fun_header _ f name tl
             (S (S (1 + length (name_tokens name))) + length (more_params_tokens more)) bad);
      [discriminate | reflexivity | |].
    { eapply drop_lookup. apply (drop_after _ _ (more_params_tokens more)).
      apply (drop_S_tail _ _ (param_token (x, xs))).
      apply (drop_S_tail _ _ (sym t.L_PAREN lp)). exact Hd2. }
    intros a. fold toks. unfold func_def_from_paren. unfold tl in Hd2.
    rewrite (cur_at _ _ _ _ Hd2). red_res.
    change (is_type (sym t.L_PAREN lp) [t.L_PAREN]) with true. cbn [negb].
    rewrite (advance_at _ _ _ _ Hd2) by discriminate.
    pose proof (drop_S_tail _ _ _ _ Hd2) as Hd3.
    rewrite (cur_at _ _ _ _ Hd3). red_res.
    change (is_type (param_token (x, xs)) [t.IDENTIFIER]) with true. cbn iota.
    rewrite (advance_at _ _ _ _ Hd3) by (destruct (more_params_tokens more); discriminate).
    pose proof (drop_S_tail _ _ _ _ Hd3) as Hd4.
    destruct (params_loop_stops more (fuel - 9)%nat toks _ bad rest
                (register_adv (register_adv (mkParseResult None None a)))
                ([] ++ [param_token (x, xs)]) ltac:(lia) Hd4 Hcomma) as [a1 ->].
    red_res. unfold func_def_finish.
    rewrite (cur_at _ _ _ _ (drop_after _ _ _ _ Hd4)). red_res.
    rewrite Hclose. cbn [negb]. eexists. split; reflexivity.
  - intros [x xs] more comma Hident Hfuel.
    replace fuel with (9 + (fuel - 9))%nat by lia.
    set (tl := sym t.L_PAREN lp :: param_token (x, xs) :: more_params_tokens more
                 ++ sym t.COMMA comma :: bad :: rest).
    set (toks := kw "fun" f :: name_tokens name ++ tl).
    assert (Hd2 : drop (1 + length (name_tokens name)) toks = tl).
    { apply (drop_after _ 1%nat (name_tokens name)). reflexivity. }
    apply (make_ast_fun_header _ f name tl
             (S (S (S (1 + length (name_tokens name))) + length (more_params_tokens more)))
             bad);
      [discriminate | reflexivity | |].
    { eapply drop_lookup. apply (drop_S_tail _ _ (sym t.COMMA comma)).
      apply (drop_after _ _ (more_params_tokens more)).
      apply (drop_S_tail _ _ (param_token (x, xs))).
      apply (drop_S_tail _ _ (sym t.L_PAREN lp)). exact Hd2. }
    intros a. fold toks. unfold func_def_from_paren. unfold tl in Hd2.
    rewrite (cur_at _ _ _ _ Hd2). red_res.
    change (is_type (sym t.L_PAREN lp) [t.L_PAREN]) with true. cbn [negb].
    rewrite (advance_at _ _ _ _ Hd2) by discriminate.
    pose proof (drop_S_tail _ _ _ _ Hd2) as Hd3.
    rewrite (cur_at _ _ _ _ Hd3). red_res.
    change (is_type (param_token (x, xs)) [t.IDENTIFIER]) with true. cbn iota.
    rewrite (advance_at _ _ _ _ Hd3) by (destruct (more_params_tokens more); discriminate).
    pose proof (drop_S_tail _ _ _ _ Hd3) as Hd4.
    destruct (params_loop_fails more (fuel - 9)%nat toks _ comma bad rest
                (register_adv (register_adv (mkParseResult None None a)))
                ([] ++ [param_token (x, xs)]) ltac:(lia) Hd4 Hident Hclose) as (r & -> & Er).
    red_res. exists r. split; [reflexivity | exact Er].
Qed.

(* ===================================================================== *)
(** * Token lists without EOF *)
(* ===================================================================== *)

Lemma signs_only_advance p : signs_only p -> signs_only (advance p).
Proof.
  intros (Hall & Hi & tok & Hc & Hs). split; [exact Hall |]. unfold advance. cbn.
  split; [lia |].
  destruct (_ <? _) eqn:Hlt; [| eauto].
  apply Z.ltb_lt in Hlt.
  destruct (lookup_lt_is_Some_2 (tokens p) (Z.to_nat (cur_index p + 1))) as [tok' Ht]; [lia |].
  exists tok'. split; [exact Ht |].
  rewrite Forall_forall in Hall. apply Hall. eapply list_elem_of_lookup_2, Ht.
Qed.

Lemma sign_facts tok :
  is_sign tok = true ->
  is_equals tok t.KW "let" = false /\ is_equals tok t.KW "not" = false.
Proof. unfold is_sign. destruct tok as [[] ? ? ?]; vm_compute; intuition congruence. Qed.

Lemma signs_never_return fuel : forall prod p,
  signs_only p -> above_factor prod = true -> pp fuel prod p = OutOfFuel.
Proof.
  induction fuel as [| n IH]; intros prod p Hp Hprod; [reflexivity |].
  destruct Hp as (Hall & Hi & tok & Hc & Hs).
  assert (Hp : signs_only p) by (split; eauto).
  assert (Hcur : cur p = Done tok) by (unfold cur; now rewrite Hc).
  destruct (sign_facts _ Hs) as [Hlet Hnot].
  destruct prod; try discriminate; cbn [parse_production].
  - unfold expr. rewrite Hcur. red_res. rewrite Hlet. unfold bin_oper.
    now rewrite (IH P_comp_expr p Hp).
  - unfold factor. rewrite Hcur. red_res. unfold is_sign in Hs. rewrite Hs.
    now rewrite (IH P_factor (advance p) (signs_only_advance _ Hp)).
  - unfold term, bin_oper. now rewrite (IH P_factor p Hp).
  - unfold arith_expr, bin_oper. now rewrite (IH P_term p Hp).
  - unfold comp_expr. rewrite Hcur. red_res. rewrite Hnot. unfold bin_oper.
    now rewrite (IH P_arith_expr p Hp).
Qed.

(** X21: outside the tokenizer's contract the parser does not answer
    with a syntax error: on the empty token list it raises
    [AttributeError], and on a list of [+] and [-] tokens only it never
    returns (each [factor] calls [factor], and [advance] keeps the last
    token once the list is exhausted). *)
Theorem token_list_needs_eof :
  (forall fuel, exists msg, make_ast (S fuel) [] = Raised (AttributeError msg)) /\
  (forall fuel toks,
     toks <> [] -> Forall (fun tok => is_sign tok = true) toks ->
     make_ast fuel toks = OutOfFuel).
Proof.
  split; [intros fuel; eexists; reflexivity |].
  intros fuel toks Hne Hall. unfold make_ast, parse.
  rewrite signs_never_return; [reflexivity | | reflexivity].
  rewrite Parser_init_at. split; [exact Hall |]. split; [cbn; lia |].
  destruct toks as [| tok toks]; [congruence |].
  exists tok. split; [reflexivity |]. now apply Forall_cons in Hall as [? _].
Qed.

(* ===================================================================== *)
(** * A session *)
(* ===================================================================== *)

(** X29: the runs of a session share the global scope.  After a run of
    [let x = e] returned the value [v], a later run of the program [x]
    on the store it left returns [v] with the span of that [x]; when [v]
    is falsy (a zero or [false]) it returns the error ['x' not defined]. *)
Theorem session_remembers_variables l x xs eq e eof rest fuel h v h1 :
  is_type eof [t.EOF; t.NEWLINE] = true ->
  (8 * length (expr_tokens e) + 32 <= fuel)%nat ->
  run fuel (kw "let" l :: ident x xs :: sym t.EQ eq :: expr_tokens e ++ eof :: rest) h =
    Done (RunValue v, h1) ->
  forall ys eof' rest' fuel',
    is_type eof' [t.EOF; t.NEWLINE] = true -> (16 <= fuel')%nat ->
    run fuel' (ident x ys :: eof' :: rest') h1 =
      Done (if truth v then RunValue (set_pos v (Some (fst ys)) (Some (snd ys)))
            else RunRTError
                   (mkRTError (Some (fst ys)) (Some (snd ys)) ("'" ++ x ++ "' not defined")
                      (Some (mkContext "<module>" None None GLOBAL_SYMBOL_MAP))), h1).
Proof.
  intros Heof Hfuel Hrun ys eof' rest' fuel' Heof' Hfuel'.
  destruct parser_reads_grammar as (Re & _).
  unfold run in Hrun.
  assert (Hp : make_ast fuel (expr_tokens (XLet l x xs eq e) ++ eof :: rest) =
               Done (Some (expr_node (XLet l x xs eq e)), None)).
  { unfold make_ast, parse. rewrite Parser_init_at.
    destruct (Re (XLet l x xs eq e) fuel (expr_tokens (XLet l x xs eq e) ++ eof :: rest) 0%nat
                (eof :: rest) ltac:(cbn [expr_tokens length level]; lia) eq_refl
                (after_expr_end _ Heof)) as [a ->].
    red_res. rewrite (cur_at _ _ eof rest) by apply drop_app_length.
    red_res. rewrite Heof. reflexivity. }
  cbn [expr_tokens expr_node app] in Hp. rewrite Hp in Hrun. cbn in Hrun.
  destruct fuel as [| n]; [lia |]. cbn in Hrun. unfold visit_VarAssignNode in Hrun.
  destruct (visit n (expr_node e) _ h) as [[[w | err] h0] | |]; cbn in Hrun; try discriminate.
  destruct (SymbolMap_set _ _ _ _) as [h2 | |] eqn:E; cbn in Hrun; try discriminate.
  injection Hrun as <- <-. apply SymbolMap_set_get in E.
  assert (Hq : make_ast fuel' (expr_tokens (atom_expr (GIdent x ys)) ++ eof' :: rest') =
               Done (Some (expr_node (atom_expr (GIdent x ys))), None)).
  { unfold make_ast, parse. rewrite Parser_init_at.
    destruct (Re (atom_expr (GIdent x ys)) fuel'
                (expr_tokens (atom_expr (GIdent x ys)) ++ eof' :: rest') 0%nat
                (eof' :: rest') ltac:(cbn; lia) eq_refl
                (after_expr_end _ Heof')) as [a ->].
    red_res. rewrite (cur_at _ _ eof' rest') by apply drop_app_length.
    red_res. rewrite Heof'. reflexivity. }
  unfold run. cbn in Hq. cbn. rewrite Hq. cbn.
  destruct fuel' as [| n']; [lia |]. cbn. unfold visit_VarAccessNode.
  cbn in E |- *. rewrite E. cbn. now destruct (truth w).
Qed.

End Cyan.

(* ===================================================================== *)
(** * The properties at concrete inputs, on the reference host *)
(* ===================================================================== *)

#[local] Existing Instance Binary64.host.

(** On the reference host [6 / 3] is the float 2.0 (mantissa 2^52,
    exponent -51). *)
Example six_by_three :
  py_truediv (PInt 6) (PInt 3)
    = Done (PFloat (S754_finite false 4503599627370496 (-51))).
Proof. reflexivity. Qed.

(** [6 / 3]: the divisor is not zero, the host's quotient is 2.0, and
    [operate_div] returns the Number that holds it. *)
Lemma operate_div_zero_or_quotient_witness :
  operate_div (Number_init (PInt 6)) (Number_init (PInt 3)) =
    Done (Some (Number (PFloat (S754_finite false 4503599627370496 (-51))) None None None),
          None).
Proof.
  exact (proj1 (proj1 (proj2 (operate_div_zero_or_quotient
                                (PInt 6) (PInt 3) None None None None None None))
                  eq_refl) _ eq_refl).
Defined.

(** C5 as stated fails where Python's own division fails: in
    [2 ^ 1024 / 1] the divisor is not zero and the quotient is outside
    the float range, so [/] raises [OverflowError]; no Number comes back
    and the run ends in the exception. *)
Lemma quotient_outside_float_range :
  py_is_zero (PInt 1) = false /\
  operate_div (Number_init (PInt (2 ^ 1024))) (Number_init (PInt 1)) = Raised OverflowError /\
  ~ (exists r, operate_div (Number_init (PInt (2 ^ 1024))) (Number_init (PInt 1)) = Done r) /\
  run 10 src_big_div_1 initial_heap = Raised OverflowError.
Proof.
  split; [reflexivity |]. split; [reflexivity |]. split.
  - intros [r Hr]. discriminate Hr.
  - reflexivity.
Qed.

(** The call [add(2, 3)] after [fun add(a, b): a + b]: the callee is the
    Function, both arguments evaluate, the counts match, and the call is
    the body evaluated in the new scope. *)
Lemma call_semantics_witness :
  let h := session 40 [src_def_add] in
  let callee := VarAccessNode_init (ID "add" 0%nat) in
  let arguments := [NumberNode_init (INT_ 2 2%nat); NumberNode_init (INT_ 3 4%nat)] in
  exists name params body fps fpe fctx vs,
    visit 9 callee module_context h
      = Done (Success (Function name params body fps fpe (Some fctx)), h) /\
    eval_args (visit 9) module_context h arguments vs h /\
    length vs = length params /\
    visit 10 (FuncCallNode callee arguments None None) module_context h
      = restamp None None
          (visit 9 body (mkContext name (Some fctx) None (length h))
             (h ++ [call_scope fctx params vs])).
Proof.
  any_host. cbv zeta.
  eassert (Hc : visit 9 (VarAccessNode_init (ID "add" 0%nat)) module_context
                  (session 40 [src_def_add])
                = Done (Success (Function _ _ _ _ _ (Some _)), session 40 [src_def_add]))
    by (vm_compute; reflexivity).
  eassert (Ha : eval_args (visit 9) module_context (session 40 [src_def_add])
                  [NumberNode_init (INT_ 2 2%nat); NumberNode_init (INT_ 3 4%nat)]
                  _ (session 40 [src_def_add])).
  { eapply eval_args_cons; [vm_compute; reflexivity |].
    eapply eval_args_cons; [vm_compute; reflexivity |].
    apply eval_args_nil. }
  do 7 eexists.
  split; [exact Hc |]. split; [exact Ha |]. split; [reflexivity |].
  exact (proj2 (proj2 (proj2 (proj1 call_semantics _ _ _ _ _ _ _ _ _ _ _ _ _ _ Hc) _ _ Ha))
           eq_refl).
Defined.

(** [2 + 3 * 4] with 48 units of fuel. *)
Lemma arithmetic_respects_precedence_witness :
  (8 * length (sum_tokens sum_2_plus_3_times_4 ++ [sym t.EOF (span_at 5)]) <= 48)%nat /\
  make_ast 48 (sum_tokens sum_2_plus_3_times_4 ++ [sym t.EOF (span_at 5)])
    = Done (Some (sum_node sum_2_plus_3_times_4), None).
Proof.
  any_host.
  assert (H : (8 * length (sum_tokens sum_2_plus_3_times_4 ++ [sym t.EOF (span_at 5)])
               <= 48)%nat) by (cbn; lia).
  split; [exact H |].
  exact (proj1 (proj1 arithmetic_respects_precedence sum_2_plus_3_times_4 (span_at 5) 48%nat
                  initial_heap H)).
Defined.

(** [if 1 < 2 then 10 else y]: the condition is true, so the node is its
    then-branch, whatever stands in the else-branch. *)
Lemma if_evaluates_only_selected_branch_witness :
  let cond :=
    BinOpNode_init (NumberNode_init (INT_ 1 1%nat)) (SYM t.LT 2%nat)
      (NumberNode_init (INT_ 2 3%nat)) in
  let then_ := NumberNode_init (INT_ 10 5%nat) in
  let else_ := VarAccessNode_init (ID "y" 7%nat) in
  exists v,
    visit 5 cond module_context initial_heap = Done (Success v, initial_heap) /\
    truth (is_truthy v) = true /\
    visit 6 (IfBlockNode (cond, then_) else_ None None) module_context initial_heap
      = visit 5 then_ module_context initial_heap.
Proof.
  any_host. cbv zeta. eexists.
  assert (Hc : visit 5
                 (BinOpNode_init (NumberNode_init (INT_ 1 1%nat)) (SYM t.LT 2%nat)
                    (NumberNode_init (INT_ 2 3%nat)))
                 module_context initial_heap
               = Done (Success _, initial_heap)) by (vm_compute; reflexivity).
  split; [exact Hc |]. split; [reflexivity |].
  exact (proj1 (proj1 if_evaluates_only_selected_branch _ _ _ _ _ _ _ _ _ _ Hc)).
Defined.

(** [true and 1] and [1 and fun f(): 1] *)
Lemma logic_operators_by_operand_class_witness :
  logic_and (Bool true None None None) (Number (PInt 1) None None None)
    = Done (Some (Bool true None None None), None) /\
  logic_and (Number (PInt 1) None None None)
      (Function "f" [] (NumberNode_init (INT_ 1 0%nat)) None None None)
    = Done (None,
            Some (mkRTError None None "Number does not support 'and' logic with Function"
                    None)).
Proof.
  any_host. split.
  - exact (proj1 (proj1 (proj2 (proj2 (proj2 (proj2 logic_operators_by_operand_class))))
                    true None None None (Number (PInt 1) None None None)
                    ltac:(discriminate))).
  - exact (proj1 (proj1 (proj2 (proj2 (proj2 logic_operators_by_operand_class)))
                    (PInt 1) None None None
                    (Function "f" [] (NumberNode_init (INT_ 1 0%nat)) None None None)
                    ltac:(discriminate))).
Defined.

(** C6 as stated fails on a Number and a Bool: [1 and true] does not
    produce a Bool, it is refused with the generic not-supported error. *)
Lemma number_and_bool_is_refused :
  logic_and (Number (PInt 1) None None None) (Bool true None None None)
    = Done (None,
            Some (mkRTError None None "Number does not support 'and' logic with Bool" None)) /\
  ~ (exists v, logic_and (Number (PInt 1) None None None) (Bool true None None None)
               = Done (Some v, None)).
Proof.
  any_host. split; [reflexivity |]. intros [v Hv]. discriminate Hv.
Qed.

(** [fun f(x): x] at module level, in the initial heap. *)
Lemma func_def_registers_under_node_name_witness :
  initial_heap !! ctx_symbol_map module_context = Some (mkSymbolMap ∅ None) /\
  exists h',
    visit 1 (FuncDefNode "f" [ID "x" 2%nat] (VarAccessNode_init (ID "x" 5%nat)) None None)
      module_context initial_heap
      = Done (Success (Function "f" [ID "x" 2%nat] (VarAccessNode_init (ID "x" 5%nat))
                         None None (Some module_context)), h') /\
    bindings h' GLOBAL_SYMBOL_MAP
      = <["f" := Function "f" [ID "x" 2%nat] (VarAccessNode_init (ID "x" 5%nat))
                   None None (Some module_context)]>
          (bindings initial_heap GLOBAL_SYMBOL_MAP).
Proof.
  any_host.
  assert (H : initial_heap !! ctx_symbol_map module_context = Some (mkSymbolMap ∅ None))
    by reflexivity.
  split; [exact H |].
  destruct (func_def_registers_under_node_name 0 "f" [ID "x" 2%nat]
              (VarAccessNode_init (ID "x" 5%nat)) None None module_context initial_heap
              _ H) as (h' & Hv & Hb & _).
  exists h'. split; [exact Hv | exact Hb].
Defined.

(** C7 as stated fails on an anonymous definition: running [fun (x): x]
    in the initial heap, where [[lambda]] is unbound, leaves the global
    scope with a binding of [[lambda]] to the new Function. *)
Lemma anonymous_definition_adds_binding :
  bindings initial_heap GLOBAL_SYMBOL_MAP !! "[lambda]" = None /\
  exists f h',
    run 40 src_lambda initial_heap = Done (RunValue f, h') /\
    bindings h' GLOBAL_SYMBOL_MAP !! "[lambda]" = Some f /\
    bindings h' GLOBAL_SYMBOL_MAP <> bindings initial_heap GLOBAL_SYMBOL_MAP.
Proof.
  any_host. split; [reflexivity |].
  destruct (run 40 src_lambda initial_heap) as [[r h'] | |] eqn:Hrun;
    [| vm_compute in Hrun; discriminate Hrun | vm_compute in Hrun; discriminate Hrun].
  destruct r as [f | e | e];
    [| vm_compute in Hrun; discriminate Hrun | vm_compute in Hrun; discriminate Hrun].
  exists f, h'. split; [reflexivity |].
  assert (Hl : bindings h' GLOBAL_SYMBOL_MAP !! "[lambda]" = Some f).
  { vm_compute in Hrun. injection Hrun as <- <-. vm_compute. reflexivity. }
  split; [exact Hl |].
  intros Heq. rewrite Heq in Hl. discriminate Hl.
Qed.

(** [if fun f(): 1 then 10 else 20], as the tree the parser builds. *)
Lemma function_condition_takes_then_branch_witness :
  let cond := FuncDefNode "f" [] (NumberNode_init (INT_ 1 6%nat)) None None in
  let then_ := NumberNode_init (INT_ 10 8%nat) in
  let else_ := NumberNode_init (INT_ 20 10%nat) in
  exists h1,
    visit 5 cond module_context initial_heap
      = Done (Success (Function "f" [] (NumberNode_init (INT_ 1 6%nat)) None None
                         (Some module_context)), h1) /\
    visit 6 (IfBlockNode (cond, then_) else_ None None) module_context initial_heap
      = visit 5 then_ module_context h1.
Proof.
  any_host. cbv zeta. eexists.
  assert (Hc : visit 5 (FuncDefNode "f" [] (NumberNode_init (INT_ 1 6%nat)) None None)
                 module_context initial_heap
               = Done (Success (Function "f" [] (NumberNode_init (INT_ 1 6%nat)) None None
                                  (Some module_context)), _))
    by (cbn; reflexivity).
  split; [exact Hc |].
  exact (proj2 (proj1 function_condition_takes_then_branch _ _ _ _ _ _ _ _ _ _ _ _ _ _ _ Hc)).
Defined.

(** ** The scopes *)

Lemma visit_writes_only_current_scope_witness :
  exists r h',
    visit 5 node_let_x_1 module_context initial_heap = Done (r, h') /\
    (length initial_heap <= length h')%nat.
Proof.
  any_host. eexists _, _. split; [reflexivity |].
  exact (proj1 (visit_writes_only_current_scope 5 node_let_x_1 module_context
                  initial_heap _ _ eq_refl)).
Defined.

Lemma execute_only_adds_scopes_witness :
  exists r h',
    execute (visit 5) function_id [Number_init (PInt 1)] initial_heap = Done (r, h') /\
    initial_heap `prefix_of` h'.
Proof.
  any_host. eexists _, _. split; [reflexivity |].
  exact (execute_only_adds_scopes 5 function_id [Number_init (PInt 1)] initial_heap
           _ _ eq_refl).
Defined.

Lemma visit_keeps_scopes_well_founded_witness :
  exists r h',
    visit 5 node_let_x_1 module_context initial_heap = Done (r, h') /\
    heap_ok h' /\ result_ok h' r.
Proof.
  any_host. eexists _, _. split; [reflexivity |].
  exact (visit_keeps_scopes_well_founded 5 node_let_x_1 module_context initial_heap
           _ _ heap_ok_initial eq_refl).
Defined.

Lemma set_then_get_witness :
  exists h',
    SymbolMap_set initial_heap 0 "x" (Number_init (PInt 1)) = Done h' /\
    SymbolMap_get h' 0 "x" = Some (Number_init (PInt 1)).
Proof.
  any_host. eexists. split; [reflexivity |].
  exact (proj1 (set_then_get initial_heap 0 "x" (Number_init (PInt 1)) _ eq_refl)).
Defined.

Lemma get_walks_the_parents_witness :
  SymbolMap_get two_scopes 1 "x" = SymbolMap_get two_scopes 0 "x".
Proof.
  any_host.
  exact (get_walks_the_parents two_scopes 1 (mkSymbolMap ∅ (Some 0%nat)) "x"
           parents_older_two_scopes eq_refl).
Defined.

Lemma remove_needs_binding_witness :
  SymbolMap_remove initial_heap 0 "x" = Raised (KeyError "x").
Proof.
  any_host.
  exact (proj1 (remove_needs_binding initial_heap 0 (mkSymbolMap ∅ None) "x" eq_refl)
           eq_refl).
Defined.

Lemma let_then_access_witness :
  exists v h',
    visit 5 node_let_x_1 module_context initial_heap = Done (Success v, h') /\
    visit 1 node_x module_context h' =
      Done (Success (set_pos v (Some (mkPosition 0 0 0)) (Some (mkPosition 1 0 1))), h').
Proof.
  any_host. eexists _, _. split; [reflexivity |].
  exact (let_then_access 5 (ID "x" 1%nat) (NumberNode_init (INT_ 1 3%nat))
           (Some (mkPosition 1 0 1)) (Some (mkPosition 4 0 4))
           module_context initial_heap _ _ eq_refl 0%nat _ _).
Defined.

Lemma parameters_bound_by_position_witness :
  exists h',
    bind_parameters initial_heap 0 [ID "a" 0%nat; ID "b" 1%nat]
      [Number_init (PInt 2); Number_init (PInt 3)] = Done h' /\
    bindings h' 0 !! "a" = Some (Number_init (PInt 2)).
Proof.
  any_host. eexists. split; [reflexivity |].
  refine (parameters_bound_by_position 0 [ID "a" 0%nat; ID "b" 1%nat]
            [Number_init (PInt 2); Number_init (PInt 3)] initial_heap _ 0%nat
            (ID "a" 0%nat) (Number_init (PInt 2)) eq_refl eq_refl eq_refl _).
  intros [| [| j]] q Hj Hq; cbn in Hj, Hq; try lia.
  injection Hq as <-. discriminate.
Defined.

Lemma call_scope_is_lexical_witness :
  SymbolMap_get
    (two_scopes ++ [call_scope (mkContext "f" None None 1%nat) [ID "y" 0%nat]
                      [Number_init (PInt 2)]])
    (length two_scopes) "x"
  = SymbolMap_get two_scopes 1 "x".
Proof.
  any_host.
  refine (call_scope_is_lexical two_scopes (mkContext "f" None None 1%nat)
            [ID "y" 0%nat] [Number_init (PInt 2)] "x" parents_older_two_scopes _).
  cbn. lia.
Defined.

Lemma run_keeps_scopes_witness :
  exists r h',
    run 40 src_let_x_1 initial_heap = Done (r, h') /\
    heap_ok h' /\
    (length initial_heap <= length h')%nat /\
    (forall i, (0 < i < length initial_heap)%nat -> h' !! i = initial_heap !! i) /\
    (forall e, r = RunSyntaxError e -> h' = initial_heap).
Proof.
  any_host. eexists _, _. split; [reflexivity |].
  exact (run_keeps_scopes 40 src_let_x_1 initial_heap _ _ heap_ok_initial eq_refl).
Defined.

(** ** Operators and calls *)

Lemma operator_needs_numbers_witness :
  visit 5 node_true_eq_true module_context initial_heap =
    Done (Failure (mkRTError (Some (mkPosition 0 0 0)) (Some (mkPosition 3 0 3))
                     "Bool does not support == operator with Bool"
                     (Some module_context)), initial_heap).
Proof.
  any_host.
  exact (operator_needs_numbers 4 (LiteralNode_init (LIT "true" 0%nat)) (SYM t.EE 1%nat)
           (LiteralNode_init (LIT "true" 2%nat)) _ _ module_context initial_heap
           _ _ _ _ "== operator" eq_refl eq_refl eq_refl eq_refl).
Defined.

Lemma unary_sign_witness :
  visit 5 node_minus_5 module_context initial_heap =
    Done (Success (Number (PInt (-5)) (Some (mkPosition 0 0 0)) (Some (mkPosition 2 0 2))
                     (Some module_context)), initial_heap).
Proof.
  any_host.
  exact (proj1 (proj2 (unary_sign 4 (SYM t.MINUS 0%nat) node_5 _ _ module_context
                         initial_heap _ _ eq_refl) eq_refl)
           5 _ _ _ eq_refl).
Defined.

Lemma call_of_non_function_witness :
  visit 5 node_5_of_0 module_context initial_heap =
    Raised (AttributeError "'Number' object has no attribute 'execute'").
Proof.
  any_host.
  refine (call_of_non_function 4 (NumberNode_init (INT_ 5 0%nat))
            [NumberNode_init (INT_ 0 2%nat)] None None module_context initial_heap
            _ _ _ _ eq_refl I _).
  eapply eval_args_cons; [reflexivity | apply eval_args_nil].
Defined.

Lemma comparison_of_ints_witness :
  exists b,
    visit 5 node_1_lt_2 module_context initial_heap =
      Done (Success (Bool b (Some (mkPosition 0 0 0)) (Some (mkPosition 3 0 3))
                       (Some module_context)), initial_heap) /\
    (b = true <-> 1 < 2).
Proof.
  any_host.
  exact (comparison_of_ints 4 (NumberNode_init (INT_ 1 0%nat)) CmpLt (span_at 1)
           (NumberNode_init (INT_ 2 2%nat)) _ _ module_context initial_heap
           1 _ _ _ _ 2 _ _ _ _ eq_refl eq_refl).
Defined.

(** ** The parser *)

Lemma productions_return_witness :
  exists res j,
    parse_production 100 P_expr (parser_at src_if_1_2_3 0) =
      Done (res, parser_at src_if_1_2_3 j) /\
    (0 <= j < length src_if_1_2_3)%nat /\
    (error res = None -> is_Some (node res) /\ (0 < j)%nat).
Proof.
  any_host.
  refine (productions_return src_if_1_2_3 100 P_expr 0 (KEY "if" 0%nat) _ eq_refl _ _).
  - reflexivity.
  - vm_compute. lia.
  - discriminate.
Defined.

Lemma make_ast_returns_witness :
  exists nd err,
    make_ast 100 src_if_1_2_3 = Done (nd, err) /\ (err = None -> is_Some nd).
Proof.
  any_host. refine (make_ast_returns src_if_1_2_3 100 _ _).
  - reflexivity.
  - vm_compute. lia.
Defined.

Lemma parser_reads_every_phrase_witness :
  make_ast 300 (expr_tokens phrase_let_fun ++ [SYM t.EOF 28%nat]) =
    Done (Some (expr_node phrase_let_fun), None).
Proof.
  any_host. refine (parser_reads_every_phrase phrase_let_fun (SYM t.EOF 28%nat) [] 300 _ _).
  - reflexivity.
  - vm_compute. lia.
Defined.

Lemma leftover_token_is_invalid_syntax_witness :
  make_ast 100 (expr_tokens (atom_expr (GNumber (PInt 1) (span_at 0)))
                  ++ INT_ 2 1%nat :: [SYM t.EOF 2%nat]) =
    Done (Some (NumberNode_init (INT_ 1 0%nat)),
          Some (set_ecode (syntax_error_at (INT_ 2 1%nat) "Invalid Syntax") "p")).
Proof.
  any_host.
  refine (leftover_token_is_invalid_syntax (atom_expr (GNumber (PInt 1) (span_at 0)))
            (INT_ 2 1%nat) [SYM t.EOF 2%nat] 100 _ _ _).
  - reflexivity.
  - reflexivity.
  - vm_compute. lia.
Defined.

Lemma value_expected_witness :
  make_ast 8 [SYM t.EOF 0%nat] =
    Done (None, Some (syntax_error_at (SYM t.EOF 0%nat)
                        "Expected Value: identifier, int, float, '+', '-' or '('")).
Proof.
  any_host. refine (value_expected (SYM t.EOF 0%nat) [] 8 _ _).
  - reflexivity.
  - lia.
Defined.

Lemma unclosed_parenthesis_witness :
  make_ast 100 (sym t.L_PAREN (span_at 0)
                  :: expr_tokens (atom_expr (GNumber (PInt 1) (span_at 1)))
                  ++ SYM t.EOF 2%nat :: []) =
    Done (None, Some (syntax_error_at (SYM t.EOF 2%nat) "Expected ')'")).
Proof.
  any_host.
  refine (unclosed_parenthesis (span_at 0) (atom_expr (GNumber (PInt 1) (span_at 1)))
            (SYM t.EOF 2%nat) [] 100 _ _ _).
  - reflexivity.
  - reflexivity.
  - vm_compute. lia.
Defined.

Lemma if_needs_then_and_else_witness :
  make_ast 100 (kw "if" (span_at 0)
                  :: comp_tokens (CompChain (CmpOne (atom_sum (GNumber (PInt 1) (span_at 1)))))
                  ++ KEY "and" 2%nat :: [INT_ 2 3%nat; SYM t.EOF 4%nat]) =
    Done (None, Some (syntax_error_at (KEY "and" 2%nat) "Expected 'then'")).
Proof.
  any_host.
  refine (proj1 (if_needs_then_and_else (span_at 0)
                   (CompChain (CmpOne (atom_sum (GNumber (PInt 1) (span_at 1)))))
                   (KEY "and" 2%nat) [INT_ 2 3%nat; SYM t.EOF 4%nat] 100) _ _ _).
  - reflexivity.
  - reflexivity.
  - vm_compute. lia.
Defined.

Lemma let_needs_name_and_equals_witness :
  make_ast 1 (kw "let" (span_at 0) :: INT_ 1 1%nat :: [SYM t.EOF 2%nat]) =
    Done (None, Some (syntax_error_at (INT_ 1 1%nat) "Expected identifier")).
Proof.
  any_host.
  refine (proj1 (let_needs_name_and_equals (span_at 0) (INT_ 1 1%nat) [SYM t.EOF 2%nat] 1 _) _).
  - lia.
  - reflexivity.
Defined.

Lemma call_arguments_need_closing_witness :
  make_ast 100 (gatom_tokens (GIdent "f" (span_at 0)) ++ sym t.L_PAREN (span_at 1)
                  :: expr_tokens (atom_expr (GNumber (PInt 1) (span_at 2)))
                  ++ SYM t.EOF 3%nat :: []) =
    Done (None, Some (syntax_error_at (SYM t.EOF 3%nat) "Expected ')'")).
Proof.
  any_host.
  refine (proj1 (call_arguments_need_closing (GIdent "f" (span_at 0)) (span_at 1)
                   (atom_expr (GNumber (PInt 1) (span_at 2)))
                   (SYM t.EOF 3%nat) [] 100 _ _ _) _).
  - reflexivity.
  - reflexivity.
  - reflexivity.
  - vm_compute. lia.
Defined.

Lemma call_has_no_trailing_comma_witness :
  make_ast 100 (gatom_tokens (GIdent "f" (span_at 0)) ++ sym t.L_PAREN (span_at 1)
                  :: expr_tokens (atom_expr (GNumber (PInt 1) (span_at 2)))
                  ++ more_tokens MoreNil
                  ++ sym t.COMMA (span_at 3) :: sym t.R_PAREN (span_at 4)
                  :: [SYM t.EOF 5%nat]) =
    Done (None, Some (syntax_error_at (sym t.R_PAREN (span_at 4))
                        "Expected Value: identifier, int, float, '+', '-' or '('")).
Proof.
  any_host.
  refine (call_has_no_trailing_comma (GIdent "f" (span_at 0)) (span_at 1)
            (atom_expr (GNumber (PInt 1) (span_at 2))) MoreNil (span_at 3) (span_at 4)
            [SYM t.EOF 5%nat] 100 _).
  vm_compute. lia.
Defined.

Lemma call_result_is_not_called_witness :
  make_ast 100 (call_tokens (CallEmpty (GIdent "f" (span_at 0)) (span_at 1) (span_at 2))
                  ++ sym t.L_PAREN (span_at 3)
                  :: [sym t.R_PAREN (span_at 4); SYM t.EOF 5%nat]) =
    Done (Some (call_node (CallEmpty (GIdent "f" (span_at 0)) (span_at 1) (span_at 2))),
          Some (set_ecode (syntax_error_at (sym t.L_PAREN (span_at 3)) "Invalid Syntax") "p")).
Proof.
  any_host.
  refine (call_result_is_not_called
            (CallEmpty (GIdent "f" (span_at 0)) (span_at 1) (span_at 2)) (span_at 3)
            [sym t.R_PAREN (span_at 4); SYM t.EOF 5%nat] 100 _ _).
  - reflexivity.
  - vm_compute. lia.
Defined.

Lemma fun_needs_parenthesis_and_colon_witness :
  make_ast 100 (kw "fun" (span_at 0) :: name_tokens (Some ("f", span_at 1))
                  ++ SYM t.COLON 2%nat :: [SYM t.EOF 3%nat]) =
    Done (None, Some (syntax_error_at (SYM t.COLON 2%nat) "Expected '('")).
Proof.
  any_host.
  refine (proj1 (fun_needs_parenthesis_and_colon (span_at 0) (Some ("f", span_at 1))
                   (SYM t.COLON 2%nat) [SYM t.EOF 3%nat] 100 _) _ _).
  - lia.
  - reflexivity.
  - discriminate.
Defined.

Lemma fun_parameters_need_closing_witness :
  make_ast 100 (kw "fun" (span_at 0) :: name_tokens (Some ("f", span_at 1))
                  ++ sym t.L_PAREN (span_at 2) :: SYM t.COLON 3%nat :: [SYM t.EOF 4%nat]) =
    Done (None,
          Some (set_ecode (syntax_error_at (SYM t.COLON 3%nat) "Invalid Syntax") "fd")).
Proof.
  any_host.
  refine (proj1 (fun_parameters_need_closing (span_at 0) (Some ("f", span_at 1)) (span_at 2)
                   (SYM t.COLON 3%nat) [SYM t.EOF 4%nat] 100 _) _ _).
  - reflexivity.
  - reflexivity.
  - lia.
Defined.

(** ** A session *)

Lemma session_remembers_variables_witness :
  exists v h1,
    run 100 (kw "let" (span_at 0) :: ident "x" (span_at 1) :: sym t.EQ (span_at 2)
               :: expr_tokens (atom_expr (GNumber (PInt 1) (span_at 3)))
               ++ SYM t.EOF 4%nat :: []) initial_heap = Done (RunValue v, h1) /\
    run 16 (ident "x" (span_at 0) :: SYM t.EOF 1%nat :: []) h1 =
      Done (if truth v
            then RunValue (set_pos v (Some (fst (span_at 0))) (Some (snd (span_at 0))))
            else RunRTError
                   (mkRTError (Some (fst (span_at 0))) (Some (snd (span_at 0)))
                      ("'" ++ "x" ++ "' not defined")
                      (Some (mkContext "<module>" None None GLOBAL_SYMBOL_MAP))), h1).
Proof.
  any_host. eexists _, _. split; [reflexivity |].
  refine (session_remembers_variables (span_at 0) "x" (span_at 1) (span_at 2)
            (atom_expr (GNumber (PInt 1) (span_at 3))) (SYM t.EOF 4%nat) [] 100
            initial_heap _ _ _ _ eq_refl (span_at 0) (SYM t.EOF 1%nat) [] 16 _ _).
  - reflexivity.
  - vm_compute. lia.
  - reflexivity.
  - lia.
Defined.
